(** * knoxite: the snapshot decode pipeline (lib/decode.go)

    A shallow embedding of the decode path of knoxite: the codec
    ([decodeChunk]), the shard loader ([loadChunk]), the archive writer
    ([DecodeArchive]), the snapshot decoder ([DecodeSnapshot]), the chunk
    cache ([DecodeArchiveData], [readArchiveChunk]) and the random-access
    reader ([ReadArchive]).

    Go code that touches the outside world is written in a small state
    monad over a [World]: the process-wide chunk cache and its mutex, the
    files on disk, and a log of the calls made to external collaborators
    (cipher, decompressor, hash, backend, erasure codec, filesystem,
    progress channel).  A computation ends by returning, by panicking, or
    by blocking for ever on the cache mutex. *)

From Stdlib Require Import ZArith Lia.
From Stdlib.Strings Require Import Byte Ascii String.
From Stdlib Require Import DecimalString.
From stdpp Require Import base gmap strings list fin_maps.

Local Open Scope Z_scope.

(** ** Bytes, machine integers *)

Abbreviation byte := Byte.byte.
Abbreviation bytes := (list Byte.byte).

Definition byte_to_Z (b : byte) : Z := Z.of_N (Byte.to_N b).

Definition byte_of_Z (x : Z) : byte :=
  match Byte.of_N (Z.to_N (x mod 256)) with
  | Some b => b
  | None => Byte.x00
  end.

(** Go's [uint] and [uint64] on the 64-bit targets knoxite is built for. *)
Definition wrap64 (x : Z) : Z := x mod 2 ^ 64.

(** Largest value of Go's [int]. *)
Definition max_int : Z := 2 ^ 63 - 1.

(** Go's [len] of a slice, as an [int].  The conversion [uint(len(s))]
    leaves it as it is, a length being a non-negative [int]. *)
Definition len {A} (l : list A) : Z := Z.of_nat (length l).

(** ** crypto/sha256 and encoding/hex *)

Module SHA256.

Definition wrap32 (x : Z) : Z := x mod 2 ^ 32.

Definition add32 (x y : Z) : Z := wrap32 (x + y).

Definition rotr (n x : Z) : Z :=
  Z.lor (Z.shiftr x n) (wrap32 (Z.shiftl x (32 - n))).

Definition not32 (x : Z) : Z := Z.lxor x 0xffffffff.

(** The constants of the digest are the first thirty-two bits of the
    fractional parts of the square roots of the first eight primes
    ([init]) and of the cube roots of the first sixty-four primes ([K]). *)
Definition is_prime (n : Z) : bool :=
forallb (fun d => negb (n mod d =? 0)) (seqZ 2 (n - 2)).

Definition primes (count : nat) : list Z :=
take count (filter (fun n => is_prime n = true) (seqZ 2 310)).

(** The integer cube root of [x], one bit at a time from bit [bits - 1]. *)
Fixpoint cube_root (bits : nat) (x r : Z) : Z :=
match bits with
| O => r
| S bits' =>
    let r' := r + 2 ^ Z.of_nat bits' in
    cube_root bits' x (if r' * r' * r' <=? x then r' else r)
end.

Definition init : list Z :=
Eval vm_compute in
  map (fun p => wrap32 (Z.sqrt (p * 2 ^ 64))) (primes 8).

Definition K : list Z :=
Eval vm_compute in
  map (fun p => wrap32 (cube_root 36 (p * 2 ^ 96) 0)) (primes 64).

(** Big-endian encoding of [x] on [n] bytes. *)
Fixpoint be_bytes (n : nat) (x : Z) : bytes :=
  match n with
  | O => []
  | S n' => byte_of_Z (Z.shiftr x (8 * Z.of_nat n')) :: be_bytes n' x
  end.

Definition be_word (bs : bytes) : Z :=
  fold_left (fun acc b => Z.lor (Z.shiftl acc 8) (byte_to_Z b)) bs 0.

(** The padding the digest appends: 0x80, zeroes up to 56 mod 64, and
    the bit length on eight bytes. *)
Definition pad (msg : bytes) : bytes :=
  let l := len msg in
  let zeros := (55 - l) mod 64 in
  msg ++ [byte_of_Z 0x80] ++ replicate (Z.to_nat zeros) Byte.x00
      ++ be_bytes 8 (wrap64 (8 * l)).

Fixpoint words (n : nat) (bs : bytes) : list Z :=
  match n with
  | O => []
  | S n' => be_word (take 4 bs) :: words n' (drop 4 bs)
  end.

(** The message schedule, most recent word first. *)
Fixpoint schedule (n : nat) (r : list Z) : list Z :=
  match n with
  | O => r
  | S n' =>
      let v1 := nth 1 r 0 in
      let t1 := Z.lxor (Z.lxor (rotr 17 v1) (rotr 19 v1)) (Z.shiftr v1 10) in
      let v2 := nth 14 r 0 in
      let t2 := Z.lxor (Z.lxor (rotr 7 v2) (rotr 18 v2)) (Z.shiftr v2 3) in
      schedule n' (add32 (add32 (add32 t1 (nth 6 r 0)) t2) (nth 15 r 0) :: r)
  end.

Definition round (s : list Z) (kw : Z * Z) : list Z :=
  match s with
  | [a; b; c; d; e; f; g; h] =>
      let t1 :=
        add32 (add32 (add32 (add32 h
          (Z.lxor (Z.lxor (rotr 6 e) (rotr 11 e)) (rotr 25 e)))
          (Z.lxor (Z.land e f) (Z.land (not32 e) g))) (fst kw)) (snd kw) in
      let t2 :=
        add32 (Z.lxor (Z.lxor (rotr 2 a) (rotr 13 a)) (rotr 22 a))
              (Z.lxor (Z.lxor (Z.land a b) (Z.land a c)) (Z.land b c)) in
      [add32 t1 t2; a; b; c; add32 d t1; e; f; g]
  | _ => s
  end.

Definition block (h : list Z) (p : bytes) : list Z :=
  let w := rev (schedule 48 (rev (words 16 p))) in
  let s := fold_left round (combine K w) h in
  map (fun xy => add32 (fst xy) (snd xy)) (combine h s).

Fixpoint blocks (n : nat) (h : list Z) (p : bytes) : list Z :=
  match n with
  | O => h
  | S n' => blocks n' (block h (take 64 p)) (drop 64 p)
  end.

(** [sha256.Sum256] *)
Definition Sum256 (data : bytes) : bytes :=
  let p := pad data in
  let h := blocks (length p / 64)%nat init p in
  concat (map (be_bytes 4) h).

End SHA256.

Definition hexdigit (x : Z) : ascii :=
  match String.get (Z.to_nat x) "0123456789abcdef" with
  | Some c => c
  | None => "0"%char
  end.

(** [hex.EncodeToString]: two lowercase digits per byte. *)
Fixpoint hex_EncodeToString (bs : bytes) : string :=
  match bs with
  | [] => EmptyString
  | b :: rest =>
      String (hexdigit (byte_to_Z b / 16))
        (String (hexdigit (byte_to_Z b mod 16)) (hex_EncodeToString rest))
  end.

Definition bytes_of_string (s : string) : bytes := list_byte_of_string s.

(** ** Data model *)

(** Modelled from the spec: the types of chunks, archives, snapshots,
    statistics, progress events, repositories and backends are declared
    outside decode.go.  [Encrypted] is one of {None, AES}; [Compressed]
    is one of {None, GZip, ...}. *)
Inductive Encryption := EncryptionNone | EncryptionAES.
Inductive Compression := CompressionNone | CompressionGZip | CompressionOther.

#[global] Instance Encryption_eq_dec : EqDecision Encryption.
Proof. solve_decision. Defined.
#[global] Instance Compression_eq_dec : EqDecision Compression.
Proof. solve_decision. Defined.

(** Modelled from the spec: a content-addressed unit of backup data, with
    the fields decode.go reads.  [DataParts] and [ParityParts] are Go
    [uint]s, [Size] an [int]; [Num] is the logical index of the chunk
    inside its archive. *)
Module Chunk.
Record t := mk {
  DataParts : Z;
  ParityParts : Z;
  Size : Z;
  DecryptedShaSum : string;
  ShaSum : string;
  Num : Z;
  Encrypted : Encryption;
  Compressed : Compression
}.
End Chunk.
Abbreviation Chunk := Chunk.t.

(** The errors of decode.go, and [ExternalError] for the opaque errors of
    the cipher, the decompressor, the erasure codec, the backend and the
    operating system, identified by their message. *)
Inductive error :=
| ChunkError (ChunkNum : Z)
| SeekError (Offset : Z)
| CheckSumError (Method ExpectedCheckSum FoundCheckSum : string)
| DataReconstructionError (chunk : Chunk) (BlocksFound FailedBackends : Z)
| ExternalError (msg : string).

Definition decimal (n : Z) : string := NilZero.string_of_int (Z.to_int n).

(** The [Error() string] methods. *)
Definition Error (e : error) : string :=
  match e with
  | ChunkError n => "Could not find chunk #" +:+ decimal n
  | SeekError off => "Could not seek to offset " +:+ decimal off
  | CheckSumError m expected found =>
      m +:+ " mismatch, expected " +:+ expected +:+ ", got " +:+ found
  | DataReconstructionError c found failed =>
      "Could not reconstruct data, got " +:+ decimal found +:+ " out of "
        +:+ decimal (Chunk.DataParts c) +:+ " chunks (" +:+ decimal failed
        +:+ " backends missing data)"
  | ExternalError msg => msg
  end.

(** Modelled from the spec: one filesystem entry inside a snapshot.  Its
    type is File, Directory or SymLink; [OtherType] stands for any other
    value of the field, which decode.go lets through. *)
Inductive ArchiveType := Directory | SymLink | File | OtherType.

Module Archive.
Record t := mk {
  Path : string;
  PointsTo : string;
  Mode : Z;
  ModTime : Z;
  Size : Z;
  StorageSize : Z;
  UID : Z;
  GID : Z;
  Chunks : list Chunk;
  Typ : ArchiveType
}.
End Archive.
Abbreviation Archive := Archive.t.

(** Modelled from the spec: an ordered list of archives. *)
Module Snapshot.
Record t := mk { Archives : list Archive }.
End Snapshot.
Abbreviation Snapshot := Snapshot.t.

(** Modelled from the spec: counters for files, directories, symlinks and
    bytes, all [uint64]. *)
Module Stats.
Record t := mk {
  Files : Z;
  Dirs : Z;
  SymLinks : Z;
  Size : Z;
  StorageSize : Z;
  Transferred : Z
}.
Definition zero : t := mk 0 0 0 0 0 0.
End Stats.
Abbreviation Stats := Stats.t.

(** Modelled from the spec: a progress event. *)
Module Progress.
Record t := mk {
  Path : string;
  CurrentItemStats : Stats;
  TotalStatistics : Stats;
  Error : option error
}.
End Progress.
Abbreviation Progress := Progress.t.

(** Modelled from the spec: the constructors of progress events are not
    among the sources.  A progress event is {archive, totalStats,
    currentItemStats, error?}; [newProgress] makes the event of an archive,
    with its counters at zero and no error. *)
Definition newProgress (arc : Archive) : Progress :=
  Progress.mk (Archive.Path arc) Stats.zero Stats.zero None.

(** Modelled from the spec: an event whose error field carries [err]. *)
Definition newProgressError (err : error) : Progress :=
  Progress.mk EmptyString Stats.zero Stats.zero (Some err).

(** Modelled from the spec: [IndexOfChunk] is a method of Archive that is
    not among the sources; it returns the position in the sequence whose
    logical index is [chunkNum], and a [ChunkError] when there is none. *)
Definition IndexOfChunk (arc : Archive) (chunkNum : Z) : Z * option error :=
  match list_find (fun c => Chunk.Num c = chunkNum) (Archive.Chunks arc) with
  | Some (i, _) => (Z.of_nat i, None)
  | None => (0, Some (ChunkError chunkNum))
  end.

(** Modelled from the spec: the backend interface,
    [LoadChunk(chunk, shardIndex) -> (bytes, error)], and the repository,
    which carries the password and a backend. *)
Module Backend.
Record t := mk { LoadChunk : Chunk -> Z -> bytes * option error }.
End Backend.

Module Repository.
Record t := mk { Password : string; Backend : Backend.t }.
End Repository.
Abbreviation Repository := Repository.t.

(** ** The world *)

Inductive Event :=
| EvDecrypt (b : bytes) (password : string)
| EvUncompress (b : bytes)
| EvSum256 (b : bytes)
| EvLoadChunk (chunk : Chunk)
| EvBackendLoadChunk (chunk : Chunk) (part : Z)
| EvReconstruct (pars : list bytes)
| EvJoin (pars : list bytes) (size : Z)
| EvMkdirAll (path : string) (mode : Z)
| EvSymlink (target path : string)
| EvOpenFile (path : string) (mode : Z)
| EvWrite (path : string) (b : bytes)
| EvSync (path : string)
| EvClose (path : string)
| EvChtimes (path : string) (mtime : Z)
| EvLchown (path : string) (uid gid : Z)
| EvPrintln (line : string)
| EvSend (p : Progress)
| EvCloseChan
| EvGo (neededPart : Z).

(** [cache] and [mutex] are the package-level variables of decode.go;
    [files] holds the content of the regular files on disk; [log] records
    every call that leaves the package, oldest first.  [EvLoadChunk] marks
    an entry into [loadChunk], [EvGo] the start of the prefetch goroutine
    of [ReadArchive]. *)
Record World := mkWorld {
  cache : gmap string bytes;
  mutex : bool;
  files : gmap string bytes;
  log : list Event
}.

(** The state after [init()]. *)
Definition init_world : World := mkWorld ∅ false ∅ [].

Definition set_cache (f : gmap string bytes -> gmap string bytes) (w : World) : World :=
  mkWorld (f (cache w)) (mutex w) (files w) (log w).
Definition set_mutex (m : bool) (w : World) : World :=
  mkWorld (cache w) m (files w) (log w).
Definition set_files (f : gmap string bytes -> gmap string bytes) (w : World) : World :=
  mkWorld (cache w) (mutex w) (f (files w)) (log w).
Definition add_log (evs : list Event) (w : World) : World :=
  mkWorld (cache w) (mutex w) (files w) (log w ++ evs).

(** What a panic carries: [PanicError err] is [panic(err)] for an [error]
    value [err], [None] being the nil error; [PanicRuntime] is a run-time
    error raised by Go itself. *)
Inductive PanicValue :=
| PanicError (err : option error)
| PanicRuntime (msg : string).

(** How a computation ends: it returns, it panics, it blocks for ever on
    the mutex, or (in the loop of [ReadArchive] only, and never with the
    fuel it is given) its fuel runs out. *)
Inductive outcome (A : Type) :=
| Ret (a : A)
| Panic (v : PanicValue)
| Block
| OutOfFuel.
Arguments Ret {A} a.
Arguments Panic {A} v.
Arguments Block {A}.
Arguments OutOfFuel {A}.

Definition M (A : Type) : Type := World -> outcome A * World.

Definition ret {A} (a : A) : M A := fun w => (Ret a, w).

Definition bind {A B} (m : M A) (k : A -> M B) : M B :=
  fun w =>
    match m w with
    | (Ret a, w') => k a w'
    | (Panic v, w') => (Panic v, w')
    | (Block, w') => (Block, w')
    | (OutOfFuel, w') => (OutOfFuel, w')
    end.

Notation "'let*' x ':=' m 'in' k" := (bind m (fun x => k))
  (at level 10, x pattern, m at level 100, k at level 200).
Notation "m ';;' k" := (bind m (fun _ => k))
  (at level 100, k at level 200, right associativity).

Definition panic {A} (v : PanicValue) : M A := fun w => (Panic v, w).

Definition emit (ev : Event) : M unit := fun w => (Ret tt, add_log [ev] w).

(** [mutex.Lock()]: blocks while the mutex is held. *)
Definition Lock : M unit :=
  fun w => if mutex w then (Block, w) else (Ret tt, set_mutex true w).

(** [mutex.Unlock()]: a run-time error when the mutex is not held. *)
Definition Unlock : M unit :=
  fun w =>
    if mutex w then (Ret tt, set_mutex false w)
    else (Panic (PanicRuntime "sync: unlock of unlocked mutex"), w).

Definition cache_lookup (key : string) : M (option bytes) :=
  fun w => (Ret (cache w !! key), w).

Definition cache_store (key : string) (cd : bytes) : M unit :=
  fun w => (Ret tt, set_cache (insert key cd) w).

(** [progress <- p]: the consumer is taken to drain the channel. *)
Definition send (p : Progress) : M unit := emit (EvSend p).

(** ** External collaborators

    The cipher and the decompressor of the repository, the
    klauspost/reedsolomon codec (created for given numbers of data and
    parity shards), the operating system, path/filepath and
    [Archive.ChunkForOffset] are not part of decode.go; they are taken as
    an interface.  [Reconstruct] returns the shard array as it leaves it;
    [Join] returns what it wrote to the buffer.  [file_Write] answers
    [None] when the whole slice was written and [Some (n, err)] when the
    write stopped with [err] after [n] bytes. *)
Class Externals := {
  Decrypt : bytes -> string -> bytes * option error;
  Uncompress : bytes -> bytes * option error;
  reedsolomon_New : Z -> Z -> option error;
  Reconstruct : Z -> Z -> list bytes -> list bytes * option error;
  Join : Z -> Z -> list bytes -> Z -> bytes * option error;
  os_MkdirAll : string -> Z -> option error;
  os_Symlink : string -> string -> option error;
  os_OpenFile : string -> Z -> option error;
  file_Write : string -> Z -> bytes -> option (Z * error);
  os_Chtimes : string -> Z -> option error;
  os_Lchown : string -> Z -> Z -> option error;
  filepath_Join : string -> string -> string;
  filepath_Dir : string -> string;
  ChunkForOffset : Archive -> Z -> Z * Z * option error
}.

(** ** decode.go *)

(** The octal literal [0755]. *)
Definition mode_0755 : Z := 493.

(** Conversion [int(x)] of a [uint]. *)
Definition int_of_uint (x : Z) : Z := if max_int <? x then x - 2 ^ 64 else x.

Definition update_TotalStatistics (f : Stats -> Stats) (p : Progress) : Progress :=
  Progress.mk (Progress.Path p) (Progress.CurrentItemStats p)
    (f (Progress.TotalStatistics p)) (Progress.Error p).

Definition update_CurrentItemStats (f : Stats -> Stats) (p : Progress) : Progress :=
  Progress.mk (Progress.Path p) (f (Progress.CurrentItemStats p))
    (Progress.TotalStatistics p) (Progress.Error p).

Definition add_Transferred (n : Z) (s : Stats) : Stats :=
  Stats.mk (Stats.Files s) (Stats.Dirs s) (Stats.SymLinks s) (Stats.Size s)
    (Stats.StorageSize s) (wrap64 (Stats.Transferred s + n)).

(** The file [f] of [DecodeArchive] is opened with [O_CREATE|O_WRONLY]:
    created empty when missing, kept as it is otherwise. *)
Definition open_file (path : string) (fs : gmap string bytes) : gmap string bytes :=
  match fs !! path with
  | Some _ => fs
  | None => <[path := []]> fs
  end.

(** Writing [b] at offset [off] of a file of content [old]; a gap past
    the end of the file reads as zeroes. *)
Definition write_at (off : nat) (b old : bytes) : bytes :=
  take off old ++ replicate (off - length old) Byte.x00 ++ b
    ++ drop (off + length b) old.

Definition write_file (path : string) (off : Z) (b : bytes)
    (fs : gmap string bytes) : gmap string bytes :=
  <[path := write_at (Z.to_nat off) b (default [] (fs !! path))]> fs.

(** The element [arc.Chunks[idx]], when [idx] is in range. *)
Definition chunk_lookup (arc : Archive) (idx : Z) : option Chunk :=
  if idx <? 0 then None else Archive.Chunks arc !! Z.to_nat idx.

Section Decode.

Context `{ext : Externals}.

Definition call_Decrypt (b : bytes) (password : string) : M (bytes * option error) :=
  emit (EvDecrypt b password);; ret (Decrypt b password).

Definition call_Uncompress (b : bytes) : M (bytes * option error) :=
  emit (EvUncompress b);; ret (Uncompress b).

Definition call_Sum256 (b : bytes) : M bytes :=
  emit (EvSum256 b);; ret (SHA256.Sum256 b).

Definition call_LoadChunk (repository : Repository) (chunk : Chunk) (part : Z)
    : M (bytes * option error) :=
  emit (EvBackendLoadChunk chunk part);;
  ret (Backend.LoadChunk (Repository.Backend repository) chunk part).

Definition call_Reconstruct (d p : Z) (pars : list bytes)
    : M (list bytes * option error) :=
  emit (EvReconstruct pars);; ret (Reconstruct d p pars).

Definition call_Join (d p : Z) (pars : list bytes) (size : Z)
    : M (bytes * option error) :=
  emit (EvJoin pars size);; ret (Join d p pars size).

Definition call_MkdirAll (path : string) (mode : Z) : M (option error) :=
  emit (EvMkdirAll path mode);; ret (os_MkdirAll path mode).

Definition call_Symlink (target path : string) : M (option error) :=
  emit (EvSymlink target path);; ret (os_Symlink target path).

Definition call_OpenFile (path : string) (mode : Z) : M (option error) :=
  emit (EvOpenFile path mode);;
  match os_OpenFile path mode with
  | Some err => ret (Some err)
  | None => fun w => (Ret None, set_files (open_file path) w)
  end.

(** [f.Write(b)] at the current offset [off] of the file. *)
Definition call_Write (path : string) (off : Z) (b : bytes) : M (option error) :=
  emit (EvWrite path b);;
  match file_Write path off b with
  | Some (n, err) =>
      fun w => (Ret (Some err), set_files (write_file path off (take (Z.to_nat n) b)) w)
  | None => fun w => (Ret None, set_files (write_file path off b) w)
  end.

Definition call_Chtimes (path : string) (mtime : Z) : M (option error) :=
  emit (EvChtimes path mtime);; ret (os_Chtimes path mtime).

Definition call_Lchown (path : string) (uid gid : Z) : M (option error) :=
  emit (EvLchown path uid gid);; ret (os_Lchown path uid gid).

Definition decodeChunk (repository : Repository) (chunk : Chunk) (b : bytes)
    : M (bytes * option error) :=
  let* r1 :=
    (if decide (Chunk.Encrypted chunk = EncryptionAES)
     then call_Decrypt b (Repository.Password repository)
     else ret (b, None)) in
  match r1 with
  | (_, Some err) => ret ([], Some err)
  | (b, None) =>
      let* r2 :=
        (if decide (Chunk.Compressed chunk = CompressionGZip)
         then call_Uncompress b
         else ret (b, None)) in
      match r2 with
      | (_, Some err) => ret ([], Some err)
      | (b, None) =>
          let* shadata := call_Sum256 b in
          let shasum := hex_EncodeToString shadata in
          if decide (Chunk.DecryptedShaSum chunk = shasum)
          then ret (b, None)
          else ret ([], Some (CheckSumError "sha256"
                                (Chunk.DecryptedShaSum chunk) shasum))
      end
  end.

(** The loop of [loadChunk] over the shard indices [parts] still to
    try.  [inl r]: the function returned [r] from inside the loop;
    [inr parsFound]: the loop ran to its end. *)
Fixpoint loadChunk_loop (repository : Repository) (chunk : Chunk)
    (parts : list Z) (pars : list bytes) (parsFound parsMissing : Z)
    : M ((bytes * option error) + Z) :=
  match parts with
  | [] => ret (inr parsFound)
  | i :: rest =>
      let* r := call_LoadChunk repository chunk (wrap64 i) in
      match r with
      | (_, Some _) =>
          loadChunk_loop repository chunk rest
            (<[Z.to_nat i := []]> pars) parsFound (parsMissing + 1)
      | (part, None) =>
          let pars := <[Z.to_nat i := part]> pars in
          let parsFound := wrap64 (parsFound + 1) in
          if Chunk.DataParts chunk <=? parsFound then
            let d := int_of_uint (Chunk.DataParts chunk) in
            let p := int_of_uint (Chunk.ParityParts chunk) in
            let* rc :=
              (if 0 <? parsMissing
               then call_Reconstruct d p pars
               else ret (pars, None)) in
            match rc with
            | (pars, Some _) =>
                loadChunk_loop repository chunk rest pars parsFound parsMissing
            | (pars, None) =>
                let* j := call_Join d p pars (Chunk.Size chunk) in
                match j with
                | (_, Some _) =>
                    loadChunk_loop repository chunk rest pars parsFound parsMissing
                | (b, None) =>
                    let* res := decodeChunk repository chunk b in
                    ret (inl res)
                end
            end
          else
            loadChunk_loop repository chunk rest pars parsFound parsMissing
      end
  end.

Definition loadChunk (repository : Repository) (chunk : Chunk)
    : M (bytes * option error) :=
  emit (EvLoadChunk chunk);;
  if 0 <? Chunk.ParityParts chunk then
    match reedsolomon_New (int_of_uint (Chunk.DataParts chunk))
                          (int_of_uint (Chunk.ParityParts chunk)) with
    | Some err => ret ([], Some err)
    | None =>
        let total := wrap64 (Chunk.DataParts chunk + Chunk.ParityParts chunk) in
        if max_int <? total
        then panic (PanicRuntime "makeslice: len out of range")
        else
          let pars := replicate (Z.to_nat total) [] in
          let* r := loadChunk_loop repository chunk (seqZ 0 total) pars 0 0 in
          match r with
          | inl res => ret res
          | inr parsFound =>
              ret ([], Some (DataReconstructionError chunk parsFound
                               (wrap64 (Chunk.DataParts chunk - parsFound))))
          end
    end
  else
    let* r := call_LoadChunk repository chunk 0 in
    match r with
    | (_, Some err) => ret ([], Some err)
    | (b, None) => decodeChunk repository chunk b
    end.

(** [arc.Chunks[idx]] *)
Definition chunk_at (arc : Archive) (idx : Z) : M Chunk :=
  match chunk_lookup arc idx with
  | Some chunk => ret chunk
  | None => panic (PanicRuntime "index out of range")
  end.

(** The chunk loop of [DecodeArchive] over the logical indices [parts];
    [off] is the write offset of the open file.  [Some err]: the
    function returned [err] from inside the loop. *)
Fixpoint DecodeArchive_loop (repository : Repository) (arc : Archive)
    (path : string) (parts : list Z) (p : Progress) (off : Z)
    : M (option error) :=
  match parts with
  | [] => ret None
  | i :: rest =>
      match IndexOfChunk arc i with
      | (_, Some erri) => ret (Some erri)
      | (idx, None) =>
          let* chunk := chunk_at arc idx in
          let* r := loadChunk repository chunk in
          match r with
          | (_, Some errc) => ret (Some errc)
          | (b, None) =>
              let* err := call_Write path off b in
              match err with
              | Some err => ret (Some err)
              | None =>
                  let p := update_TotalStatistics (add_Transferred (len b)) p in
                  let p := update_CurrentItemStats (add_Transferred (len b)) p in
                  send p;;
                  DecodeArchive_loop repository arc path rest p (off + len b)
              end
          end
      end
  end.

Definition DecodeArchive (repository : Repository) (arc : Archive)
    (path : string) : M (option error) :=
  let p := newProgress arc in
  let* returned :=
    match Archive.Typ arc with
    | Directory =>
        call_MkdirAll path (Archive.Mode arc);;
        let p := update_TotalStatistics (fun s =>
          Stats.mk (Stats.Files s) (wrap64 (Stats.Dirs s + 1)) (Stats.SymLinks s)
            (Stats.Size s) (Stats.StorageSize s) (Stats.Transferred s)) p in
        send p;; ret None
    | SymLink =>
        call_Symlink (Archive.PointsTo arc) path;;
        let p := update_TotalStatistics (fun s =>
          Stats.mk (Stats.Files s) (Stats.Dirs s) (wrap64 (Stats.SymLinks s + 1))
            (Stats.Size s) (Stats.StorageSize s) (Stats.Transferred s)) p in
        send p;; ret None
    | File =>
        let parts := len (Archive.Chunks arc) in
        let p := update_TotalStatistics (fun s =>
          Stats.mk (wrap64 (Stats.Files s + 1)) (Stats.Dirs s) (Stats.SymLinks s)
            (Archive.Size arc) (Archive.StorageSize arc) (Stats.Transferred s)) p in
        send p;;
        let* err := call_MkdirAll (filepath_Dir path) mode_0755 in
        match err with
        | Some err => ret (Some err)
        | None =>
            let* err := call_OpenFile path (Archive.Mode arc) in
            match err with
            | Some err => ret (Some err)
            | None =>
                let* r := DecodeArchive_loop repository arc path (seqZ 0 parts) p 0 in
                match r with
                | Some err => ret (Some err)
                | None =>
                    emit (EvSync path);;
                    emit (EvClose path);;
                    call_Chtimes path (Archive.ModTime arc)
                end
            end
        end
    | OtherType => ret None
    end in
  match returned with
  | Some err => ret (Some err)
  | None => call_Lchown path (Archive.UID arc) (Archive.GID arc)
  end.

(** The loop of the goroutine of [DecodeSnapshot]. *)
Fixpoint DecodeSnapshot_loop (repository : Repository)
    (archives : list Archive) (dst : string) : M unit :=
  match archives with
  | [] => ret tt
  | arc :: rest =>
      let path := filepath_Join dst (Archive.Path arc) in
      let* err := DecodeArchive repository arc path in
      match err with
      | Some err => send (newProgressError err)
      | None => DecodeSnapshot_loop repository rest dst
      end
  end.

(** [DecodeSnapshot] makes the channel [prog], starts a goroutine and
    returns [(prog, nil)] at once.  This is the goroutine; the events
    [EvSend] and [EvCloseChan] it logs are the stream the caller reads
    from [prog]. *)
Definition DecodeSnapshot (repository : Repository) (snapshot : Snapshot)
    (dst : string) : M unit :=
  DecodeSnapshot_loop repository (Snapshot.Archives snapshot) dst;;
  emit EvCloseChan.

(** The loop of [DecodeArchiveData] over the logical indices [parts].
    [inl r]: the function returned [r] from inside the loop; [inr b]:
    the loop ran to its end with [b] accumulated. *)
Fixpoint DecodeArchiveData_loop (repository : Repository) (arc : Archive)
    (parts : list Z) (b : bytes)
    : M ((bytes * Stats * option error) + bytes) :=
  match parts with
  | [] => ret (inr b)
  | i :: rest =>
      match IndexOfChunk arc i with
      | (_, Some err) => ret (inl (b, Stats.zero, Some err))
      | (idx, None) =>
          let* chunk := chunk_at arc idx in
          Lock;;
          let* hit := cache_lookup (Chunk.ShaSum chunk) in
          let* r :=
            match hit with
            | Some cd =>
                emit (EvPrintln ("Using cached chunk " +:+ Chunk.ShaSum chunk));;
                ret (inr cd)
            | None =>
                let* l := loadChunk repository chunk in
                match l with
                | (_, Some err) => ret (inl (b, Stats.zero, Some err))
                | (cd, None) =>
                    cache_store (Chunk.ShaSum chunk) cd;; ret (inr cd)
                end
            end in
          match r with
          | inl returned => ret (inl returned)
          | inr cd =>
              Unlock;;
              DecodeArchiveData_loop repository arc rest (b ++ cd)
          end
      end
  end.

Definition DecodeArchiveData (repository : Repository) (arc : Archive)
    : M (bytes * Stats * option error) :=
  match Archive.Typ arc with
  | File =>
      let parts := len (Archive.Chunks arc) in
      let* r := DecodeArchiveData_loop repository arc (seqZ 0 parts) [] in
      match r with
      | inl returned => ret returned
      | inr b =>
          let stats :=
            Stats.mk (wrap64 (0 + 1)) 0 0
              (wrap64 (0 + Archive.Size arc))
              (wrap64 (0 + Archive.StorageSize arc))
              (wrap64 (0 + Archive.Size arc)) in
          ret (b, stats, None)
      end
  | _ => ret ([], Stats.zero, None)
  end.

Definition readArchiveChunk (repository : Repository) (arc : Archive)
    (chunkNum : Z) : M (bytes * option error) :=
  match IndexOfChunk arc chunkNum with
  | (_, Some err) => ret ([], Some err)
  | (idx, None) =>
      let* chunk := chunk_at arc idx in
      Lock;;
      let* hit := cache_lookup (Chunk.ShaSum chunk) in
      let* r :=
        match hit with
        | Some cd => ret (inr cd)
        | None =>
            let* l := loadChunk repository chunk in
            match l with
            | (_, Some err) => ret (inl err)
            | (cd, None) =>
                cache_store (Chunk.ShaSum chunk) cd;; ret (inr cd)
            end
        end in
      match r with
      | inl err => ret ([], Some err)
      | inr cd => Unlock;; ret ([] ++ cd, None)
      end
  end.

Definition is_nil (err : option error) : bool :=
  match err with None => true | Some _ => false end.

(** One turn of the loop of [ReadArchive], entered with [len(b) < size].
    [neededPart++] cannot overflow: it is reached with [neededPart]
    below the length of a slice. *)
Inductive ReadStep :=
| Continue (b : bytes) (neededPart internalOffset : Z)
| Return (r : bytes * option error).

Definition ReadArchive_body (repository : Repository) (arc : Archive)
    (size : Z) (b : bytes) (neededPart internalOffset : Z) : M ReadStep :=
  if len (Archive.Chunks arc) <=? neededPart then ret (Return (b, None))
  else
    let* r := readArchiveChunk repository arc neededPart in
    let '(cd, err) := r in
    if negb (is_nil err) || (len cd =? 0) then panic (PanicError err)
    else if (internalOffset <? 0) || (len cd <? internalOffset)
    then panic (PanicRuntime "slice bounds out of range")
    else
      let d := drop (Z.to_nat internalOffset) cd in
      if negb (is_nil err) || (len d =? 0) then panic (PanicError err)
      else
        let b :=
          if size <? len d + len b
          then b ++ take (Z.to_nat (size - len b)) d
          else b ++ d in
        ret (Continue b (neededPart + 1) 0).

(** [for len(b) < size { ... }].  [inl r]: the function returned [r]
    from inside the loop; [inr (b, neededPart)]: the loop condition
    became false. *)
Fixpoint ReadArchive_loop (fuel : nat) (repository : Repository)
    (arc : Archive) (size : Z) (b : bytes) (neededPart internalOffset : Z)
    : M ((bytes * option error) + (bytes * Z)) :=
  if len b <? size then
    match fuel with
    | O => fun w => (OutOfFuel, w)
    | S fuel =>
        let* s := ReadArchive_body repository arc size b neededPart internalOffset in
        match s with
        | Return r => ret (inl r)
        | Continue b neededPart internalOffset =>
            ReadArchive_loop fuel repository arc size b neededPart internalOffset
        end
    end
  else ret (inr (b, neededPart)).

(** The prefetch goroutine started at the end is logged as [EvGo]; it
    runs [readArchiveChunk] on its own later.  The loop takes a turn
    for each chunk from [neededPart] on, and one more to see the end of
    the archive. *)
Definition ReadArchive (repository : Repository) (arc : Archive)
    (offset size : Z) : M (bytes * option error) :=
  match Archive.Typ arc with
  | File =>
      match ChunkForOffset arc offset with
      | (_, _, Some err) => ret ([], Some err)
      | (neededPart, internalOffset, None) =>
          let fuel := S (Z.to_nat (len (Archive.Chunks arc) - neededPart)) in
          let* r := ReadArchive_loop fuel repository arc size []
                      neededPart internalOffset in
          match r with
          | inl returned => ret returned
          | inr (b, neededPart) => emit (EvGo neededPart);; ret (b, None)
          end
      end
  | _ => ret ([], None)
  end.

End Decode.

(** ** Concrete collaborators and inputs

    A stand-in for the collaborators, used to run the functions above on
    concrete inputs: a cipher that rejects every input (the wrong
    password), a decompressor that rejects every input, an operating
    system on which every call succeeds, and an erasure codec with the
    parameter checks and the [Join] of klauspost/reedsolomon.  Its
    [Reconstruct] rebuilds missing shards only for one data shard, where
    every parity shard of the code is a copy of the data shard. *)
Module Fixture.

Definition ErrAuth : error := ExternalError "cipher: message authentication failed".
Definition ErrHeader : error := ExternalError "gzip: invalid header".
Definition ErrInvShardNum : error :=
  ExternalError "cannot create Encoder with less than one data shard or less than zero parity shards".
Definition ErrMaxShardNum : error :=
  ExternalError "cannot create Encoder with more than 256 data+parity shards".
Definition ErrTooFewShards : error := ExternalError "too few shards given".
Definition ErrReconstructRequired : error :=
  ExternalError "reconstruction required as one or more required data shards are nil".
Definition ErrShortData : error := ExternalError "not enough data to fill the number of requested shards".
Definition ErrNotExist : error := ExternalError "file does not exist".

Definition rs_New (d p : Z) : option error :=
  if (d <=? 0) || (p <? 0) then Some ErrInvShardNum
  else if 256 <? d + p then Some ErrMaxShardNum
  else None.

Definition present (pars : list bytes) : list bytes :=
  filter (fun s => length s ≠ 0%nat) pars.

Definition all_present (pars : list bytes) : bool :=
  forallb (fun s => negb (len s =? 0)) pars.

Definition rs_Reconstruct (d p : Z) (pars : list bytes) : list bytes * option error :=
  if all_present pars then (pars, None)
  else if len (present pars) <? d then (pars, Some ErrTooFewShards)
  else
    match present pars with
    | s :: _ =>
        if d =? 1 then (replicate (length pars) s, None)
        else (pars, Some ErrReconstructRequired)
    | [] => (pars, Some ErrTooFewShards)
    end.

Definition rs_Join (d p : Z) (pars : list bytes) (size : Z) : bytes * option error :=
  if len pars <? d then ([], Some ErrTooFewShards)
  else
    let shards := take (Z.to_nat d) pars in
    if all_present shards then
      if len (concat shards) <? size then ([], Some ErrShortData)
      else (take (Z.to_nat size) (concat shards), None)
    else ([], Some ErrReconstructRequired).

Fixpoint dir_of (rev_path : list ascii) : list ascii :=
  match rev_path with
  | [] => []
  | c :: rest => if decide (c = "/"%char) then rest else dir_of rest
  end.

Definition Dir (path : string) : string :=
  string_of_list_ascii (rev (dir_of (rev (list_ascii_of_string path)))).

(** The chunk holding [offset], walking the logical indices and adding
    up the chunk sizes. *)
Fixpoint chunk_for (arc : Archive) (parts : list Z) (size offset : Z)
    : Z * Z * option error :=
  match parts with
  | [] => (0, 0, Some (SeekError offset))
  | i :: rest =>
      match IndexOfChunk arc i with
      | (_, Some _) => (0, 0, Some (ChunkError i))
      | (idx, None) =>
          match Archive.Chunks arc !! Z.to_nat idx with
          | Some chunk =>
              if offset <? size + Chunk.Size chunk then (i, offset - size, None)
              else chunk_for arc rest (size + Chunk.Size chunk) offset
          | None => (0, 0, Some (ChunkError i))
          end
      end
  end.

#[export] Instance ext : Externals := {|
  Decrypt := fun _ _ => ([], Some ErrAuth);
  Uncompress := fun _ => ([], Some ErrHeader);
  reedsolomon_New := rs_New;
  Reconstruct := rs_Reconstruct;
  Join := rs_Join;
  os_MkdirAll := fun _ _ => None;
  os_Symlink := fun _ _ => None;
  os_OpenFile := fun _ _ => None;
  file_Write := fun _ _ _ => None;
  os_Chtimes := fun _ _ => None;
  os_Lchown := fun _ _ _ => None;
  filepath_Join := fun dst p => dst +:+ "/" +:+ p;
  filepath_Dir := Dir;
  ChunkForOffset := fun arc offset =>
    chunk_for arc (seqZ 0 (len (Archive.Chunks arc))) 0 offset
|}.

(** A backend holding the listed shards, keyed by the chunk's [ShaSum]
    and the shard index. *)
Definition backend (store : list (string * Z * bytes)) : Backend.t :=
  Backend.mk (fun chunk part =>
    match list_find (fun e => e.1 = (Chunk.ShaSum chunk, part)) store with
    | Some (_, (_, b)) => (b, None)
    | None => ([], Some ErrNotExist)
    end).

Definition hello : bytes := bytes_of_string "hello" ++ [Byte.x0a].
Definition hello_sha : string :=
  "5891b5b522d5df086d0ff0b110fbd9d21bb4fc7163af34d08286a2e846f6be03".
Definition world : bytes := bytes_of_string "world" ++ [Byte.x0a].
Definition world_sha : string :=
  "e258d248fda94c63753607f7c4494ee0fcbe92f1a76bfdac795c9d84101eb317".

(** Scenario S1: one plain chunk holding "hello\n". *)
Definition chunk_hello : Chunk :=
  Chunk.mk 1 0 6 hello_sha hello_sha 0 EncryptionNone CompressionNone.
Definition chunk_world : Chunk :=
  Chunk.mk 1 0 6 world_sha world_sha 1 EncryptionNone CompressionNone.

(** The same chunk marked as encrypted. *)
Definition chunk_aes : Chunk :=
  Chunk.mk 1 0 6 hello_sha "aes" 0 EncryptionAES CompressionGZip.

(** Erasure-coded chunks: three data and two parity shards (scenario
    S4), and one data shard with one parity shard. *)
Definition chunk_3_2 : Chunk :=
  Chunk.mk 3 2 6 hello_sha "rs32" 0 EncryptionNone CompressionNone.
Definition chunk_1_1 : Chunk :=
  Chunk.mk 1 1 6 hello_sha "rs11" 0 EncryptionNone CompressionNone.

Definition store : list (string * Z * bytes) :=
  [ (hello_sha, 0, hello); (world_sha, 0, world);
    ("aes", 0, hello);
    ("rs32", 0, bytes_of_string "he"); ("rs32", 1, bytes_of_string "ll");
    ("rs11", 0, hello); ("rs11", 1, hello); ("empty", 0, []) ].

(** A chunk whose plaintext is empty. *)
Definition empty_sha : string :=
  "e3b0c44298fc1c149afbf4c8996fb92427ae41e4649b934ca495991b7852b855".
Definition chunk_empty : Chunk :=
  Chunk.mk 1 0 0 empty_sha "empty" 1 EncryptionNone CompressionNone.

Definition chunk_oversized : Chunk :=
  Chunk.mk 1 0 10 hello_sha hello_sha 0 EncryptionNone CompressionNone.

Definition repo : Repository := Repository.mk "test" (backend store).
(** A repository whose backend has only the first chunk of [file_arc]. *)
Definition repo_half : Repository :=
  Repository.mk "test" (backend [(hello_sha, 0, hello)]).
(** A repository whose backend has only the parity shard of [chunk_1_1]. *)
Definition repo_parity : Repository :=
  Repository.mk "test" (backend [("rs11", 1, hello)]).
(** A repository whose backend has lost everything. *)
Definition repo_empty : Repository := Repository.mk "test" (backend []).

(** A file of two chunks stored out of order. *)
Definition file_arc : Archive :=
  Archive.mk "file" "" 420 0 12 12 1000 1000 [chunk_world; chunk_hello] File.
(** A file whose second chunk is empty. *)
Definition hollow_arc : Archive :=
  Archive.mk "hollow" "" 420 0 6 6 1000 1000 [chunk_hello; chunk_empty] File.
Definition oversized_arc : Archive :=
  Archive.mk "oversized" "" 420 0 10 10 1000 1000 [chunk_oversized] File.
Definition dir_arc : Archive :=
  Archive.mk "dir" "" 493 0 0 0 1000 1000 [] Directory.
Definition link_arc : Archive :=
  Archive.mk "link" "/etc/passwd" 511 0 0 0 1000 1000 [] SymLink.
Definition aes_arc : Archive :=
  Archive.mk "secret" "" 420 0 6 6 1000 1000 [chunk_aes] File.

(** Collaborators on which nothing can be created or written, while
    changing the owner succeeds. *)
Definition ErrReadOnly : error := ExternalError "read-only file system".

Definition ext_readonly : Externals := {|
  Decrypt := fun _ _ => ([], Some ErrAuth);
  Uncompress := fun _ => ([], Some ErrHeader);
  reedsolomon_New := rs_New;
  Reconstruct := rs_Reconstruct;
  Join := rs_Join;
  os_MkdirAll := fun _ _ => Some ErrReadOnly;
  os_Symlink := fun _ _ => Some ErrReadOnly;
  os_OpenFile := fun _ _ => Some ErrReadOnly;
  file_Write := fun _ _ _ => Some (0, ErrReadOnly);
  os_Chtimes := fun _ _ => Some ErrReadOnly;
  os_Lchown := fun _ _ _ => None;
  filepath_Join := fun dst p => dst +:+ "/" +:+ p;
  filepath_Dir := Dir;
  ChunkForOffset := fun arc offset =>
    chunk_for arc (seqZ 0 (len (Archive.Chunks arc))) 0 offset
|}.

End Fixture.

(** ** Vocabulary of the properties *)

(** The codec as its contract words it: decrypt when the chunk is
    encrypted, then decompress when it is compressed, then compare the
    hash; the result is the plaintext or an error. *)
Section Contract.

Context `{ext : Externals}.

Definition codec_decrypt (repository : Repository) (chunk : Chunk) (b : bytes)
    : bytes + error :=
  if decide (Chunk.Encrypted chunk = EncryptionAES) then
    match Decrypt b (Repository.Password repository) with
    | (_, Some err) => inr err
    | (plain, None) => inl plain
    end
  else inl b.

Definition codec_gunzip (chunk : Chunk) (b : bytes) : bytes + error :=
  if decide (Chunk.Compressed chunk = CompressionGZip) then
    match Uncompress b with
    | (_, Some err) => inr err
    | (plain, None) => inl plain
    end
  else inl b.

Definition codec_verify (chunk : Chunk) (b : bytes) : bytes + error :=
  let got := hex_EncodeToString (SHA256.Sum256 b) in
  if decide (got = Chunk.DecryptedShaSum chunk) then inl b
  else inr (CheckSumError "sha256" (Chunk.DecryptedShaSum chunk) got).

Definition codec_decode (repository : Repository) (chunk : Chunk) (b : bytes)
    : bytes + error :=
  match codec_decrypt repository chunk b with
  | inr err => inr err
  | inl b1 =>
      match codec_gunzip chunk b1 with
      | inr err => inr err
      | inl b2 => codec_verify chunk b2
      end
  end.

(** The calls the contract allows, in its order. *)
Definition codec_calls (repository : Repository) (chunk : Chunk) (b : bytes)
    : list Event :=
  (if decide (Chunk.Encrypted chunk = EncryptionAES)
   then [EvDecrypt b (Repository.Password repository)] else [])
  ++ match codec_decrypt repository chunk b with
     | inr _ => []
     | inl b1 =>
         (if decide (Chunk.Compressed chunk = CompressionGZip)
          then [EvUncompress b1] else [])
         ++ match codec_gunzip chunk b1 with
            | inr _ => []
            | inl b2 => [EvSum256 b2]
            end
     end.

End Contract.

(** What Go returns for a result of the contract: the plaintext and
    [nil], or an empty slice and the error. *)
Definition go_result (r : bytes + error) : bytes * option error :=
  match r with
  | inl plain => (plain, None)
  | inr err => ([], Some err)
  end.

(** A computation that only calls collaborators: its outcome does not
    depend on the world, and all it does to the world is to log events,
    each satisfying [P]. *)
Definition pure_call {A} (P : Event -> Prop) (m : M A) : Prop :=
  exists o evs, Forall P evs /\ forall w, m w = (o, add_log evs w).

(** The events of the codec, the backend and the erasure codec. *)
Definition loader_event (ev : Event) : Prop :=
  match ev with
  | EvDecrypt _ _ | EvUncompress _ | EvSum256 _
  | EvBackendLoadChunk _ _ | EvReconstruct _ | EvJoin _ _ => True
  | _ => False
  end.

(** Shard [part] of [chunk] can be fetched from the backend. *)
Definition fetched (repository : Repository) (chunk : Chunk) (part : Z) : bool :=
  is_nil (Backend.LoadChunk (Repository.Backend repository) chunk part).2.




(** The outcome of [loadChunk] and the calls it makes; neither depends on
    the world it runs in ([loadChunk_run]). *)
Definition loadChunk_result `{ext : Externals} (repository : Repository)
    (chunk : Chunk) : outcome (bytes * option error) :=
  (loadChunk repository chunk init_world).1.

Definition loadChunk_calls `{ext : Externals} (repository : Repository)
    (chunk : Chunk) : list Event :=
  log (loadChunk repository chunk init_world).2.

(** The chunk of logical index [i], resolved through [IndexOfChunk]. *)
Definition logical_chunk (arc : Archive) (i : Z) : option Chunk :=
  match IndexOfChunk arc i with
  | (idx, None) => chunk_lookup arc idx
  | (_, Some _) => None
  end.

(** The decoded plaintext of the chunk of logical index [i]. *)
Definition plaintext `{ext : Externals} (repository : Repository)
    (arc : Archive) (i : Z) : option bytes :=
  match logical_chunk arc i with
  | Some chunk =>
      match loadChunk_result repository chunk with
      | Ret (b, None) => Some b
      | _ => None
      end
  | None => None
  end.

(** The slices handed to [Write] on the file [path], in the order of the
    calls. *)
Definition writes_of (path : string) (evs : list Event) : list bytes :=
  omap (fun ev =>
          match ev with
          | EvWrite p b => if decide (p = path) then Some b else None
          | _ => None
          end) evs.

(** The content of the file [path]. *)
Definition content (path : string) (w : World) : bytes :=
  default [] (files w !! path).

(** An event an archive may log while it is being restored: any call,
    and any progress record without an error; never the closing of the
    progress stream. *)
Definition archive_event (ev : Event) : Prop :=
  match ev with
  | EvSend p => Progress.Error p = None
  | EvCloseChan => False
  | _ => True
  end.

(** The archives of the list were restored one after the other, each
    returning [nil], taking the world from [w] to [w']. *)
Inductive decoded_all `{ext : Externals} (repository : Repository) (dst : string)
    : list Archive -> World -> World -> Prop :=
| decoded_nil w : decoded_all repository dst [] w w
| decoded_cons arc rest w w1 w2 :
    DecodeArchive repository arc (filepath_Join dst (Archive.Path arc)) w
      = (Ret None, w1) ->
    decoded_all repository dst rest w1 w2 ->
    decoded_all repository dst (arc :: rest) w w2.

(** The number of times [loadChunk] was entered for a chunk of the given
    [ShaSum]. *)
Definition is_load (key : string) (ev : Event) : bool :=
  match ev with
  | EvLoadChunk chunk => bool_decide (Chunk.ShaSum chunk = key)
  | _ => false
  end.

Definition count_loads (key : string) (evs : list Event) : nat :=
  length (filter (fun ev => is_load key ev = true) evs).

(** The reads that go through the chunk cache.  The mutex makes their
    cache accesses follow one another, so a run of the process, prefetch
    goroutines included, is a sequence of them. *)
Inductive CacheRead :=
| OpDecodeArchiveData (arc : Archive)
| OpReadArchiveChunk (arc : Archive) (chunkNum : Z)
| OpReadArchive (arc : Archive) (offset size : Z).

Definition run_read `{ext : Externals} (repository : Repository)
    (op : CacheRead) (w : World) : World :=
  match op with
  | OpDecodeArchiveData arc => (DecodeArchiveData repository arc w).2
  | OpReadArchiveChunk arc chunkNum => (readArchiveChunk repository arc chunkNum w).2
  | OpReadArchive arc offset size => (ReadArchive repository arc offset size w).2
  end.

Definition run_reads `{ext : Externals} (repository : Repository)
    (ops : list CacheRead) (w : World) : World :=
  fold_left (fun w op => run_read repository op w) ops w.

(** Every key was loaded at most once, and with the mutex free what was
    loaded is in the cache. *)
Definition cache_inv (w : World) : Prop :=
  forall key,
    (count_loads key (log w) <= 1)%nat /\
    (mutex w = false -> count_loads key (log w) = 1%nat ->
     is_Some (cache w !! key)).

(** The loop of [ReadArchive] gets from one state to another in [n]
    turns. *)
Inductive reaches `{ext : Externals} (repository : Repository) (arc : Archive)
    (size : Z) : nat -> bytes * Z * Z -> World -> bytes * Z * Z -> World -> Prop :=
| reaches_here st w : reaches repository arc size 0 st w st w
| reaches_turn n b neededPart internalOffset w b1 neededPart1 internalOffset1 w1 st2 w2 :
    len b < size ->
    ReadArchive_body repository arc size b neededPart internalOffset w
      = (Ret (Continue b1 neededPart1 internalOffset1), w1) ->
    reaches repository arc size n (b1, neededPart1, internalOffset1) w1 st2 w2 ->
    reaches repository arc size (S n) (b, neededPart, internalOffset) w st2 w2.

(** A computation that only adds events satisfying [P] to the log. *)
Definition logs {A} (P : Event -> Prop) (m : M A) : Prop :=
  forall w, exists evs, log (m w).2 = log w ++ evs /\ Forall P evs.

(** What a read through the cache may do to the world: it keeps
    [cache_inv], and it keeps every entry of the cache. *)
Definition cache_step (w w' : World) : Prop :=
  (cache_inv w -> cache_inv w') /\
  (forall key cd, cache w !! key = Some cd -> cache w' !! key = Some cd).

Definition preserves {A} (m : M A) : Prop := forall w, cache_step w (m w).2.

(** A computation that never stops for want of fuel. *)
Definition fuelled {A} (m : M A) : Prop := forall w, (m w).1 <> OutOfFuel.

(** The shards asked of the backend, in the order of the calls. *)
Definition backend_calls (evs : list Event) : list (Chunk * Z) :=
  omap (fun ev =>
          match ev with
          | EvBackendLoadChunk chunk part => Some (chunk, part)
          | _ => None
          end) evs.

(** What the backend holds for shard [i] of a chunk, and the shard array
    of [loadChunk] once the shards below [k] have been fetched, the rest
    being still empty. *)
Definition shard (repository : Repository) (chunk : Chunk) (i : Z) : bytes :=
  (Backend.LoadChunk (Repository.Backend repository) chunk i).1.

Definition shards_after (repository : Repository) (chunk : Chunk)
    (k total : Z) : list bytes :=
  map (shard repository chunk) (seqZ 0 k) ++ replicate (Z.to_nat (total - k)) [].

(** What a read through the cache may add to it: only plaintexts that
    [loadChunk] returned without an error for a chunk of that [ShaSum]. *)
Definition loaded_entry `{ext : Externals} (repository : Repository)
    (key : string) (cd : bytes) : Prop :=
  exists chunk,
    Chunk.ShaSum chunk = key /\
    loadChunk_result repository chunk = Ret (cd, None).

Definition valid_growth `{ext : Externals} (repository : Repository)
    (w w' : World) : Prop :=
  forall key cd,
    cache w' !! key = Some cd ->
    cache w !! key = Some cd \/ loaded_entry repository key cd.

Definition grows `{ext : Externals} (repository : Repository) {A} (m : M A) : Prop :=
  forall w, valid_growth repository w (m w).2.

(** What the cache holds for the chunk of logical index [i]. *)
Definition cached_chunk (w : World) (arc : Archive) (i : Z) : option bytes :=
  match logical_chunk arc i with
  | Some chunk => cache w !! Chunk.ShaSum chunk
  | None => None
  end.

(** The progress records sent, in the order of the sends. *)
Definition sends_of (evs : list Event) : list Progress :=
  omap (fun ev => match ev with EvSend p => Some p | _ => None end) evs.

(** The transferred bytes a progress record carries, in its total and in
    its current-item statistics. *)
Definition transferred (p : Progress) : Z * Z :=
  (Stats.Transferred (Progress.TotalStatistics p),
   Stats.Transferred (Progress.CurrentItemStats p)).

(** The running totals of the lengths of the slices, starting from [acc]. *)
Fixpoint running_totals (acc : Z) (ps : list bytes) : list Z :=
  match ps with
  | [] => []
  | b :: rest => (acc + len b) :: running_totals (acc + len b) rest
  end.

(** The calls that end the restore of a file: sync, close, modification
    time, owner. *)
Definition finishing_event (ev : Event) : Prop :=
  match ev with
  | EvSync _ | EvClose _ | EvChtimes _ _ | EvLchown _ _ _ => True
  | _ => False
  end.

(** * Properties *)

Lemma add_log_nil w : add_log [] w = w.
Proof. destruct w; unfold add_log; simpl. by rewrite app_nil_r. Qed.

Lemma add_log_app l1 l2 w : add_log l2 (add_log l1 w) = add_log (l1 ++ l2) w.
Proof. unfold add_log; simpl. by rewrite app_assoc. Qed.

Lemma pure_call_ret {A} P (a : A) : pure_call P (ret a).
Proof. exists (Ret a), []. split; [constructor|]. intros w. by rewrite add_log_nil. Qed.

Lemma pure_call_panic {A} P v : pure_call P (@panic A v).
Proof. exists (Panic v), []. split; [constructor|]. intros w. by rewrite add_log_nil. Qed.

Lemma pure_call_emit (P : Event -> Prop) ev : P ev -> pure_call P (emit ev).
Proof. intros H. exists (Ret tt), [ev]. split; [by repeat constructor|done]. Qed.

Lemma pure_call_bind {A B} P (m : M A) (k : A -> M B) :
  pure_call P m -> (forall a, pure_call P (k a)) -> pure_call P (bind m k).
Proof.
  intros (o & evs & HP & Hm) Hk. destruct o as [a| v | |].
  - destruct (Hk a) as (o' & evs' & HP' & Hk'). exists o', (evs ++ evs').
    split; [by apply Forall_app|]. intros w. unfold bind.
    by rewrite Hm, Hk', add_log_app.
  - exists (Panic v), evs. split; [done|]. intros w. unfold bind. by rewrite Hm.
  - exists Block, evs. split; [done|]. intros w. unfold bind. by rewrite Hm.
  - exists OutOfFuel, evs. split; [done|]. intros w. unfold bind. by rewrite Hm.
Qed.

Ltac pure_step :=
  first
    [ apply pure_call_ret
    | apply pure_call_panic
    | apply pure_call_emit; exact I
    | apply pure_call_bind; [|intros ?] ].

Section Codec.

Context `{ext : Externals}.

Lemma decodeChunk_run repository chunk b w :
  decodeChunk repository chunk b w =
  (Ret (go_result (codec_decode repository chunk b)),
   add_log (codec_calls repository chunk b) w).
Proof.
  unfold decodeChunk, codec_decode, codec_calls, codec_decrypt, codec_gunzip,
    codec_verify, call_Decrypt, call_Uncompress, call_Sum256, bind, ret, emit.
  destruct (decide (Chunk.Encrypted chunk = EncryptionAES)) as [Ha|Ha]; simpl.
  - destruct (Decrypt b (Repository.Password repository)) as [b1 [e1|]]; simpl;
      [done|].
    destruct (decide (Chunk.Compressed chunk = CompressionGZip)) as [Hg|Hg]; simpl.
    + destruct (Uncompress b1) as [b2 [e2|]]; simpl; [by rewrite add_log_app|].
      rewrite !add_log_app; simpl.
      repeat case_decide; simpl; congruence.
    + rewrite !add_log_app; simpl. repeat case_decide; simpl; congruence.
  - destruct (decide (Chunk.Compressed chunk = CompressionGZip)) as [Hg|Hg]; simpl.
    + destruct (Uncompress b) as [b2 [e2|]]; simpl; [done|].
      rewrite !add_log_app; simpl. repeat case_decide; simpl; congruence.
    + repeat case_decide; simpl; congruence.
Qed.

Lemma codec_calls_loader repository chunk b :
  Forall loader_event (codec_calls repository chunk b).
Proof.
  unfold codec_calls.
  repeat (apply Forall_app; split); repeat case_decide;
    repeat case_match; repeat constructor;
    try (apply Forall_app; split); repeat case_decide; repeat case_match;
    repeat constructor.
Qed.

Lemma decodeChunk_pure repository chunk b :
  pure_call loader_event (decodeChunk repository chunk b).
Proof.
  eexists _, _. split; [apply codec_calls_loader|]. intros w.
  apply decodeChunk_run.
Qed.

(** C1: the codec decrypts (when the chunk is AES-encrypted), then
    decompresses (when it is GZip-compressed), then compares the
    lowercase hex SHA-256 of the result with [DecryptedShaSum]; it
    returns the plaintext, or the error of the first step that fails,
    the last being a [CheckSumError] with method "sha256", the expected
    and the computed digest.  The calls it makes are those steps, in
    that order. *)
Theorem decodeChunk_fixed_order repository chunk b w :
  let password := Repository.Password repository in
  let aes := bool_decide (Chunk.Encrypted chunk = EncryptionAES) in
  let gzip := bool_decide (Chunk.Compressed chunk = CompressionGZip) in
  let expected := Chunk.DecryptedShaSum chunk in
  let decrypted := if aes then Decrypt b password else (b, None) in
  let inflated := if gzip then Uncompress decrypted.1 else (decrypted.1, None) in
  let got := hex_EncodeToString (SHA256.Sum256 inflated.1) in
  let run := decodeChunk repository chunk b w in
  let calls1 := if aes then [EvDecrypt b password] else [] in
  let calls2 := if gzip then [EvUncompress decrypted.1] else [] in
  match decrypted.2, inflated.2 with
  | Some err, _ => run = (Ret ([], Some err), add_log calls1 w)
  | None, Some err => run = (Ret ([], Some err), add_log (calls1 ++ calls2) w)
  | None, None =>
      run = (Ret (if bool_decide (expected = got) then (inflated.1, None)
                  else ([], Some (CheckSumError "sha256" expected got))),
             add_log (calls1 ++ calls2 ++ [EvSum256 inflated.1]) w)
  end.
Proof.
  simpl. rewrite decodeChunk_run.
  unfold codec_decode, codec_calls, codec_decrypt, codec_gunzip, codec_verify.
  destruct (decide (Chunk.Encrypted chunk = EncryptionAES)) as [Ha|Ha].
  - rewrite (bool_decide_eq_true_2 _ Ha).
    destruct (Decrypt b (Repository.Password repository)) as [b1 [e1|]]; simpl;
      [done|].
    destruct (decide (Chunk.Compressed chunk = CompressionGZip)) as [Hg|Hg].
    + rewrite (bool_decide_eq_true_2 _ Hg).
      destruct (Uncompress b1) as [b2 [e2|]]; simpl; [done|].
      repeat case_decide; repeat case_bool_decide; simpl; congruence.
    + rewrite (bool_decide_eq_false_2 _ Hg); simpl.
      repeat case_decide; repeat case_bool_decide; simpl; congruence.
  - rewrite (bool_decide_eq_false_2 _ Ha); simpl.
    destruct (decide (Chunk.Compressed chunk = CompressionGZip)) as [Hg|Hg].
    + rewrite (bool_decide_eq_true_2 _ Hg).
      destruct (Uncompress b) as [b2 [e2|]]; simpl; [done|].
      repeat case_decide; repeat case_bool_decide; simpl; congruence.
    + rewrite (bool_decide_eq_false_2 _ Hg); simpl.
      repeat case_decide; repeat case_bool_decide; simpl; congruence.
Qed.

(** C3: when the chunk is AES-encrypted and authenticated decryption
    fails, the codec returns that very error (hence its exact message),
    and the only call it has made is the decryption: nothing was
    decompressed, nothing was hashed. *)
Theorem decodeChunk_auth_failure repository chunk b w junk err :
  Chunk.Encrypted chunk = EncryptionAES ->
  Decrypt b (Repository.Password repository) = (junk, Some err) ->
  exists w',
    decodeChunk repository chunk b w = (Ret ([], Some err), w') /\
    log w' = log w ++ [EvDecrypt b (Repository.Password repository)] /\
    (forall ev, ev ∈ drop (length (log w)) (log w') ->
       match ev with EvUncompress _ | EvSum256 _ => False | _ => True end) /\
    cache w' = cache w /\ mutex w' = mutex w /\ files w' = files w.
Proof.
  intros Ha Hd. rewrite decodeChunk_run.
  unfold codec_decode, codec_calls, codec_decrypt.
  destruct (decide (Chunk.Encrypted chunk = EncryptionAES)); [|done].
  rewrite Hd. simpl. eexists. split; [reflexivity|]. simpl.
  split; [done|]. split; [|done].
  intros ev. rewrite drop_app_length. intros ->%list_elem_of_singleton. done.
Qed.

End Codec.

Section ShardLoader.

Context `{ext : Externals}.

Lemma wrap64_small x : 0 <= x < 2 ^ 64 -> wrap64 x = x.
Proof. intros H. unfold wrap64. by apply Z.mod_small. Qed.



Lemma call_LoadChunk_run repository chunk part w :
  call_LoadChunk repository chunk part w =
  (Ret (Backend.LoadChunk (Repository.Backend repository) chunk part),
   add_log [EvBackendLoadChunk chunk part] w).
Proof. reflexivity. Qed.



Lemma seqZ_range m n : Forall (fun i => m <= i < m + n) (seqZ m n).
Proof.
  apply Forall_forall. intros i Hi%elem_of_seqZ. lia.
Qed.


End ShardLoader.

Section LoaderIsPure.

Context `{ext : Externals}.

Lemma loadChunk_loop_pure repository chunk parts :
  forall pars parsFound parsMissing,
    pure_call loader_event
      (loadChunk_loop repository chunk parts pars parsFound parsMissing).
Proof.
  induction parts as [|i rest IH]; intros pars pf pm; cbn [loadChunk_loop].
  - pure_step.
  - apply pure_call_bind; [unfold call_LoadChunk; repeat pure_step|].
    intros [part [e|]]; [apply IH|].
    case_match; [|apply IH].
    apply pure_call_bind.
    { case_match; unfold call_Reconstruct; repeat pure_step. }
    intros [pars' [e|]]; [apply IH|].
    apply pure_call_bind; [unfold call_Join; repeat pure_step|].
    intros [b [e|]]; [apply IH|].
    apply pure_call_bind; [apply decodeChunk_pure|intros; pure_step].
Qed.

Lemma loadChunk_shape repository chunk :
  exists o evs,
    Forall loader_event evs /\
    forall w, loadChunk repository chunk w =
              (o, add_log (EvLoadChunk chunk :: evs) w).
Proof.
  assert (exists m : M (bytes * option error),
    pure_call loader_event m /\
    loadChunk repository chunk = bind (emit (EvLoadChunk chunk)) (fun _ => m))
    as (m & (o & evs & HP & Hm) & ->).
  { eexists. split; [|unfold loadChunk; reflexivity].
    case_match.
    - case_match; [pure_step|]. case_match; [pure_step|].
      apply pure_call_bind; [apply loadChunk_loop_pure|].
      intros [r|pf]; pure_step.
    - apply pure_call_bind; [unfold call_LoadChunk; repeat pure_step|].
      intros [b [e|]]; [pure_step|apply decodeChunk_pure]. }
  exists o, evs. split; [done|]. intros w. unfold bind, emit.
  by rewrite Hm, add_log_app.
Qed.

(** [loadChunk] does not read the world and only adds to its log. *)
Lemma loadChunk_run repository chunk w :
  loadChunk repository chunk w =
  (loadChunk_result repository chunk,
   add_log (loadChunk_calls repository chunk) w).
Proof.
  destruct (loadChunk_shape repository chunk) as (o & evs & _ & H).
  unfold loadChunk_result, loadChunk_calls. by rewrite !H.
Qed.

Lemma loadChunk_calls_shape repository chunk :
  exists evs,
    loadChunk_calls repository chunk = EvLoadChunk chunk :: evs /\
    Forall loader_event evs.
Proof.
  destruct (loadChunk_shape repository chunk) as (o & evs & HP & H).
  exists evs. split; [|done]. unfold loadChunk_calls. by rewrite H.
Qed.

End LoaderIsPure.

Section FileContent.

Lemma write_at_length off b old :
  (off + length b <= length (write_at off b old))%nat.
Proof.
  unfold write_at. rewrite !length_app, length_take, length_replicate. lia.
Qed.

Lemma write_at_nil off old : (off <= length old)%nat -> write_at off [] old = old.
Proof.
  intros H. unfold write_at. replace (off - length old)%nat with 0%nat by lia.
  simpl. rewrite Nat.add_0_r. apply take_drop.
Qed.

Lemma write_at_app off b1 b2 old :
  write_at (off + length b1) b2 (write_at off b1 old) = write_at off (b1 ++ b2) old.
Proof.
  unfold write_at at 1.
  pose proof (write_at_length off b1 old) as Hlen.
  replace (off + length b1 - length (write_at off b1 old))%nat with 0%nat by lia.
  unfold write_at. simpl.
  set (pre := take off old ++ replicate (off - length old) Byte.x00).
  assert (length pre = off) as Hpre.
  { unfold pre. rewrite length_app, length_take, length_replicate. lia. }
  rewrite !(app_assoc (take off old)). fold pre.
  rewrite (app_assoc pre b1).
  rewrite take_app_length' by (rewrite length_app; lia).
  rewrite drop_app_ge by (rewrite length_app; lia).
  rewrite drop_drop, !length_app, Hpre, <- !app_assoc. do 3 f_equal.
  f_equal. lia.
Qed.

Lemma write_at_0_lookup b old k x :
  b !! k = Some x -> write_at 0 b old !! k = Some x.
Proof.
  intros H. unfold write_at. simpl. by apply lookup_app_l_Some.
Qed.

Lemma writes_of_app path l1 l2 :
  writes_of path (l1 ++ l2) = writes_of path l1 ++ writes_of path l2.
Proof. unfold writes_of. apply omap_app. Qed.

Lemma writes_of_loader path evs :
  Forall loader_event evs -> writes_of path evs = [].
Proof.
  induction 1 as [|ev evs Hev _ IH]; [done|].
  destruct ev; simpl in Hev; try done; exact IH.
Qed.

Lemma writes_of_loadChunk `{ext : Externals} path repository chunk :
  writes_of path (loadChunk_calls repository chunk) = [].
Proof.
  destruct (loadChunk_calls_shape repository chunk) as (evs & -> & H).
  change (EvLoadChunk chunk :: evs) with ([EvLoadChunk chunk] ++ evs).
  rewrite writes_of_app, (writes_of_loader _ _ H). done.
Qed.

End FileContent.

Section ArchiveWriter.

Context `{ext : Externals}.

Lemma plaintext_inv repository arc i b :
  plaintext repository arc i = Some b ->
  exists idx chunk,
    IndexOfChunk arc i = (idx, None) /\
    chunk_lookup arc idx = Some chunk /\
    loadChunk_result repository chunk = Ret (b, None).
Proof.
  unfold plaintext, logical_chunk.
  destruct (IndexOfChunk arc i) as [idx [e|]]; [done|].
  destruct (chunk_lookup arc idx) as [chunk|] eqn:Hch; [|done].
  destruct (loadChunk_result repository chunk) as [[b' [e|]]| | |] eqn:Hres;
    try done.
  intros [= ->]. by exists idx, chunk.
Qed.

(** When every chunk decodes and every write succeeds, the loop writes
    the plaintexts one after the other. *)
Lemma DecodeArchive_loop_complete repository arc path parts :
  forall ps p off w,
    Forall2 (fun i b => plaintext repository arc i = Some b) parts ps ->
    (forall o b, file_Write path o b = None) ->
    0 <= off ->
    (Z.to_nat off <= length (content path w))%nat ->
    exists w' evs,
      DecodeArchive_loop repository arc path parts p off w = (Ret None, w') /\
      log w' = log w ++ evs /\
      writes_of path evs = ps /\
      content path w' = write_at (Z.to_nat off) (concat ps) (content path w).
Proof.
  induction parts as [|i rest IH]; intros ps p off w Hps Hwr Hoff Hlen.
  - apply Forall2_nil_inv_l in Hps as ->. exists w, []. simpl.
    rewrite app_nil_r, write_at_nil by done. done.
  - apply Forall2_cons_inv_l in Hps as (b & ps' & Hb & Hps & ->).
    apply plaintext_inv in Hb as (idx & chunk & Hidx & Hch & Hres).
    cbn [DecodeArchive_loop]. rewrite Hidx. unfold chunk_at. rewrite Hch.
    unfold bind at 1. unfold ret at 1. unfold bind at 1.
    rewrite loadChunk_run, Hres.
    unfold bind at 1. unfold call_Write. unfold bind at 1. unfold emit at 1.
    rewrite Hwr. unfold bind at 1. unfold send, emit at 1.
    set (w1 := add_log _ (set_files _ _)).
    set (p1 := update_CurrentItemStats _ _).
    assert (content path w1 = write_at (Z.to_nat off) b (content path w)) as Hc1.
    { unfold w1, content, write_file. simpl. by rewrite lookup_insert_eq. }
    destruct (IH ps' p1 (off + len b) w1 Hps Hwr) as (w' & evs & Hrun & Hlog & Hw & Hc).
    { unfold len. lia. }
    { rewrite Hc1.
      pose proof (write_at_length (Z.to_nat off) b (content path w)).
      unfold len. lia. }
    exists w', (loadChunk_calls repository chunk ++ [EvWrite path b]
                ++ [EvSend p1] ++ evs).
    split; [exact Hrun|]. split.
    { rewrite Hlog. unfold w1. simpl. by rewrite <- !app_assoc. }
    split.
    { rewrite !writes_of_app, writes_of_loadChunk, Hw. simpl.
      by rewrite decide_True. }
    rewrite Hc, Hc1. simpl. rewrite <- write_at_app. f_equal.
    unfold len. lia.
Qed.

Lemma plaintext_intro repository arc i idx chunk b :
  IndexOfChunk arc i = (idx, None) ->
  chunk_lookup arc idx = Some chunk ->
  loadChunk_result repository chunk = Ret (b, None) ->
  plaintext repository arc i = Some b.
Proof.
  intros Hidx Hch Hres. unfold plaintext, logical_chunk.
  by rewrite Hidx, Hch, Hres.
Qed.

(** However the loop ends, what it has handed to [Write] are the
    plaintexts of a prefix of the logical indices, in their order. *)
Lemma DecodeArchive_loop_in_order repository arc path parts :
  forall p off w,
    exists evs j,
      log (DecodeArchive_loop repository arc path parts p off w).2 = log w ++ evs /\
      Forall2 (fun i b => plaintext repository arc i = Some b)
        (take j parts) (writes_of path evs).
Proof.
  induction parts as [|i rest IH]; intros p off w.
  - exists [], 0%nat. simpl. by rewrite app_nil_r.
  - cbn [DecodeArchive_loop].
    destruct (IndexOfChunk arc i) as [idx [e|]] eqn:Hidx.
    { exists [], 0%nat. simpl. by rewrite app_nil_r. }
    unfold chunk_at. destruct (chunk_lookup arc idx) as [chunk|] eqn:Hch.
    2:{ exists [], 0%nat. simpl. by rewrite app_nil_r. }
    unfold bind at 1. unfold ret at 1. unfold bind at 1.
    rewrite loadChunk_run.
    pose proof (writes_of_loadChunk path repository chunk) as Hnw.
    destruct (loadChunk_result repository chunk) as [[b [e|]]|v| |] eqn:Hres;
      try (exists (loadChunk_calls repository chunk), 0%nat; simpl;
           rewrite Hnw; by split).
    unfold bind at 1. unfold call_Write. unfold bind at 1. unfold emit at 1.
    destruct (file_Write path off b) as [[n err]|].
    + exists (loadChunk_calls repository chunk ++ [EvWrite path b]), 1%nat.
      simpl. rewrite app_assoc. split; [done|].
      rewrite writes_of_app, Hnw. simpl. rewrite decide_True by done.
      repeat constructor. eapply plaintext_intro; eauto.
    + unfold bind at 1. unfold send, emit at 1.
      set (w1 := add_log _ (set_files _ _)).
      set (p1 := update_CurrentItemStats _ _).
      destruct (IH p1 (off + len b) w1) as (evs & j & Hlog & Hw).
      exists (loadChunk_calls repository chunk ++ [EvWrite path b]
              ++ [EvSend p1] ++ evs), (S j).
      split.
      { rewrite Hlog. unfold w1. simpl. by rewrite <- !app_assoc. }
      rewrite !writes_of_app, Hnw. simpl. rewrite decide_True by done.
      constructor; [|done]. eapply plaintext_intro; eauto.
Qed.

Lemma DecodeArchive_File_in_order repository arc path w :
  Archive.Typ arc = File ->
  exists evs j,
    log (DecodeArchive repository arc path w).2 = log w ++ evs /\
    Forall2 (fun i b => plaintext repository arc i = Some b)
      (take j (seqZ 0 (len (Archive.Chunks arc)))) (writes_of path evs).
Proof.
  intros Hty. unfold DecodeArchive. rewrite Hty.
  unfold bind at 1. unfold bind at 1. unfold send at 1. unfold emit at 1.
  unfold bind at 1. unfold call_MkdirAll. unfold bind at 1. unfold emit at 1.
  unfold ret at 1.
  destruct (os_MkdirAll (filepath_Dir path) mode_0755) as [e|].
  { eexists _, 0%nat. simpl. rewrite <- app_assoc. split; [reflexivity|].
    constructor. }
  unfold bind at 1. unfold call_OpenFile. unfold bind at 1. unfold emit at 1.
  destruct (os_OpenFile path (Archive.Mode arc)) as [e|].
  { eexists _, 0%nat. simpl. rewrite <- !app_assoc. split; [reflexivity|].
    constructor. }
  unfold bind at 1.
  match goal with
  | |- context [DecodeArchive_loop ?r ?a ?pa ?parts ?p ?off ?w0] =>
      destruct (DecodeArchive_loop_in_order r a pa parts p off w0)
        as (evs & j & Hlog & Hw);
      destruct (DecodeArchive_loop r a pa parts p off w0) as [[[e|]|v| |] w2]
  end; simpl in Hlog;
    try (eexists _, j; simpl; rewrite Hlog, <- !app_assoc;
         split; [reflexivity|];
         rewrite !writes_of_app; simpl; by rewrite ?app_nil_r).
  unfold bind at 1. unfold emit at 1. unfold bind at 1. unfold emit at 1.
  unfold call_Chtimes. unfold bind at 1. unfold emit at 1. unfold ret at 1.
  destruct (os_Chtimes path (Archive.ModTime arc)) as [e|];
    eexists _, j; simpl; rewrite Hlog, <- !app_assoc;
      (split; [reflexivity|]);
      rewrite !writes_of_app; simpl; by rewrite ?app_nil_r.
Qed.

Lemma DecodeArchive_File_complete repository arc path w ps :
  Archive.Typ arc = File ->
  os_MkdirAll (filepath_Dir path) mode_0755 = None ->
  os_OpenFile path (Archive.Mode arc) = None ->
  (forall off b, file_Write path off b = None) ->
  Forall2 (fun i b => plaintext repository arc i = Some b)
    (seqZ 0 (len (Archive.Chunks arc))) ps ->
  exists w' evs,
    DecodeArchive repository arc path w =
      (Ret (match os_Chtimes path (Archive.ModTime arc) with
            | Some err => Some err
            | None => os_Lchown path (Archive.UID arc) (Archive.GID arc)
            end), w') /\
    log w' = log w ++ evs /\
    writes_of path evs = ps /\
    content path w' = write_at 0 (concat ps) (content path w).
Proof.
  intros Hty Hmk Hop Hwr Hps. unfold DecodeArchive. rewrite Hty.
  unfold bind at 1. unfold bind at 1. unfold send at 1. unfold emit at 1.
  unfold bind at 1. unfold call_MkdirAll. unfold bind at 1. unfold emit at 1.
  unfold ret at 1. rewrite Hmk.
  unfold bind at 1. unfold call_OpenFile. unfold bind at 1. unfold emit at 1.
  rewrite Hop. unfold bind at 1.
  match goal with
  | |- context [DecodeArchive_loop ?r ?a ?pa ?parts ?p ?off ?w0] =>
      destruct (DecodeArchive_loop_complete r a pa parts ps p off w0 Hps Hwr)
        as (w2 & evs & Hrun & Hlog & Hw & Hc); [lia|simpl; lia|];
      rewrite Hrun;
      assert (content path w0 = content path w) as Hc0
        by (unfold content; simpl; unfold open_file;
            destruct (files w !! path) eqn:E;
            [by rewrite E|by rewrite lookup_insert_eq])
  end.
  simpl in Hlog. rewrite Hc0 in Hc. simpl in Hc.
  unfold bind at 1. unfold emit at 1. unfold bind at 1. unfold emit at 1.
  unfold call_Chtimes. unfold bind at 1. unfold emit at 1. unfold ret at 1.
  destruct (os_Chtimes path (Archive.ModTime arc)) as [e|].
  - eexists _, _. split; [reflexivity|]. simpl. rewrite Hlog, <- !app_assoc.
    split; [reflexivity|]. rewrite !writes_of_app. simpl.
    rewrite app_nil_r. split; [done|]. exact Hc.
  - eexists _, _. split; [reflexivity|]. simpl. rewrite Hlog, <- !app_assoc.
    split; [reflexivity|]. rewrite !writes_of_app. simpl.
    rewrite app_nil_r. split; [done|]. exact Hc.
Qed.

(** C4: for a File archive, what [DecodeArchive] hands to [Write] on the
    target file are the decoded plaintexts of the chunks of logical
    indices 0, 1, 2, ... (each resolved through [IndexOfChunk]), in that
    order and without a gap, however the decoding ends; when every
    chunk decodes and the file can be created and written, all of them
    are written, and the byte at every offset of their concatenation is
    the byte on disk at that offset. *)
Theorem DecodeArchive_writes_in_order repository arc path w :
  Archive.Typ arc = File ->
  let run := DecodeArchive repository arc path w in
  let parts := seqZ 0 (len (Archive.Chunks arc)) in
  exists evs,
    log run.2 = log w ++ evs /\
    (exists j, Forall2 (fun i b => plaintext repository arc i = Some b)
                 (take j parts) (writes_of path evs)) /\
    (forall ps,
       os_MkdirAll (filepath_Dir path) mode_0755 = None ->
       os_OpenFile path (Archive.Mode arc) = None ->
       (forall off b, file_Write path off b = None) ->
       Forall2 (fun i b => plaintext repository arc i = Some b) parts ps ->
       (exists r, run.1 = Ret r) /\
       writes_of path evs = ps /\
       content path run.2 = write_at 0 (concat ps) (content path w) /\
       forall k x, concat ps !! k = Some x -> content path run.2 !! k = Some x).
Proof.
  intros Hty run parts.
  destruct (DecodeArchive_File_in_order repository arc path w Hty)
    as (evs & j & Hlog & Hord).
  exists evs. split; [exact Hlog|]. split; [by exists j|].
  intros ps Hmk Hop Hwr Hps.
  destruct (DecodeArchive_File_complete repository arc path w ps Hty Hmk Hop Hwr Hps)
    as (w' & evs' & Hrun & Hlog' & Hw & Hc).
  fold run in Hrun, Hlog. rewrite Hrun in Hlog |- *. simpl in *.
  rewrite Hlog' in Hlog. apply app_inv_head in Hlog as ->.
  split; [eauto|]. split; [done|]. split; [done|].
  intros k x Hk. rewrite Hc. by apply write_at_0_lookup.
Qed.

(** C9: for a Directory and for a SymLink archive, [DecodeArchive]
    returns the result of [Lchown(UID, GID)] on the target path, which
    is its last call; whatever [MkdirAll] or [Symlink] answered is
    dropped. *)
Theorem DecodeArchive_returns_Lchown repository arc path w :
  Archive.Typ arc = Directory \/ Archive.Typ arc = SymLink ->
  exists w' p,
    DecodeArchive repository arc path w =
      (Ret (os_Lchown path (Archive.UID arc) (Archive.GID arc)), w') /\
    log w' = log w ++
      [ match Archive.Typ arc with
        | Directory => EvMkdirAll path (Archive.Mode arc)
        | _ => EvSymlink (Archive.PointsTo arc) path
        end;
        EvSend p;
        EvLchown path (Archive.UID arc) (Archive.GID arc) ].
Proof.
  intros [Hty|Hty]; unfold DecodeArchive; rewrite Hty;
    eexists _, _; (split; [reflexivity|]); simpl;
    rewrite <- !app_assoc; simpl; reflexivity.
Qed.

Lemma logs_ret {A} P (a : A) : logs P (ret a).
Proof. intros w. exists []. simpl. by rewrite app_nil_r. Qed.

Lemma logs_panic {A} P v : logs P (@panic A v).
Proof. intros w. exists []. simpl. by rewrite app_nil_r. Qed.

Lemma logs_emit (P : Event -> Prop) ev : P ev -> logs P (emit ev).
Proof. intros H w. exists [ev]. simpl. split; [done|by repeat constructor]. Qed.

Lemma logs_bind {A B} P (m : M A) (k : A -> M B) :
  logs P m -> (forall a, logs P (k a)) -> logs P (bind m k).
Proof.
  intros Hm Hk w. unfold bind. destruct (Hm w) as (evs & Hlog & HP).
  destruct (m w) as [[a|v| |] w1]; simpl in Hlog; try by exists evs.
  destruct (Hk a w1) as (evs' & Hlog' & HP').
  exists (evs ++ evs'). rewrite Hlog', Hlog, app_assoc. split; [done|].
  by apply Forall_app.
Qed.

Lemma logs_set_files {A} P (a : A) f : logs P (fun w => (Ret a, set_files f w)).
Proof. intros w. exists []. simpl. by rewrite app_nil_r. Qed.

Lemma loadChunk_logs repository chunk :
  logs archive_event (loadChunk repository chunk).
Proof.
  intros w. rewrite loadChunk_run. simpl.
  exists (loadChunk_calls repository chunk). split; [done|].
  destruct (loadChunk_calls_shape repository chunk) as (evs & -> & H).
  constructor; [done|]. eapply Forall_impl; [exact H|].
  intros []; simpl; done.
Qed.

Ltac logs_step :=
  first
    [ apply logs_ret
    | apply logs_panic
    | apply logs_set_files
    | apply loadChunk_logs
    | apply logs_emit; simpl; done
    | apply logs_bind; [|intros ?] ].

Lemma DecodeArchive_loop_logs repository arc path parts :
  forall p off, p.(Progress.Error) = None ->
    logs archive_event (DecodeArchive_loop repository arc path parts p off).
Proof.
  induction parts as [|i rest IH]; intros p off Hp; cbn [DecodeArchive_loop].
  - logs_step.
  - destruct (IndexOfChunk arc i) as [idx [e|]]; [logs_step|].
    apply logs_bind; [unfold chunk_at; case_match; logs_step|]. intros chunk.
    apply logs_bind; [logs_step|]. intros [b [e|]]; [logs_step|].
    apply logs_bind.
    { unfold call_Write. logs_step; [logs_step|].
      destruct (file_Write path off b) as [[n e]|]; logs_step. }
    intros [e|]; [logs_step|].
    apply logs_bind; [unfold send; apply logs_emit; exact Hp|].
    intros _. by apply IH.
Qed.

(** An archive sends progress records without an error, and does not
    close the stream. *)
Lemma DecodeArchive_logs repository arc path :
  logs archive_event (DecodeArchive repository arc path).
Proof.
  unfold DecodeArchive, call_MkdirAll, call_Symlink, call_OpenFile,
    call_Chtimes, call_Lchown, send.
  apply logs_bind.
  - destruct (Archive.Typ arc); try (repeat logs_step; fail).
    apply logs_bind; [logs_step|]. intros _.
    apply logs_bind; [repeat logs_step|]. intros [e|]; [logs_step|].
    apply logs_bind.
    { logs_step; [logs_step|]. case_match; logs_step. }
    intros [e|]; [logs_step|].
    apply logs_bind; [by apply DecodeArchive_loop_logs|].
    intros [e|]; repeat logs_step.
  - intros [e|]; repeat logs_step.
Qed.

End ArchiveWriter.

Section SnapshotDecoder.

Context `{ext : Externals}.

Lemma decoded_all_logs repository dst done w w1 :
  decoded_all repository dst done w w1 ->
  exists evs, log w1 = log w ++ evs /\ Forall archive_event evs.
Proof.
  induction 1 as [w|arc rest w w1 w2 Hrun _ (evs2 & Hlog2 & HP2)].
  - exists []. by rewrite app_nil_r.
  - destruct (DecodeArchive_logs repository arc
                (filepath_Join dst (Archive.Path arc)) w) as (evs1 & Hlog1 & HP1).
    rewrite Hrun in Hlog1. simpl in Hlog1.
    exists (evs1 ++ evs2). rewrite Hlog2, Hlog1, app_assoc. split; [done|].
    by apply Forall_app.
Qed.

Lemma DecodeSnapshot_loop_all repository dst done w w1 :
  decoded_all repository dst done w w1 ->
  forall rest,
    DecodeSnapshot_loop repository (done ++ rest) dst w =
    DecodeSnapshot_loop repository rest dst w1.
Proof.
  induction 1 as [w|arc rest' w w1 w2 Hrun _ IH]; intros rest; [done|].
  simpl. unfold bind at 1. rewrite Hrun. apply IH.
Qed.

(** C5: [DecodeSnapshot] restores the archives in the stored order.
    When all of them return [nil], the stream is closed after the last
    one.  When one returns an error after the ones before it returned
    [nil], the stream gets one record carrying that error and is closed
    right after it; the archives that follow are not restored; and
    every record sent before the error record carries no error. *)
Theorem DecodeSnapshot_stream repository dst done w w1 :
  decoded_all repository dst done w w1 ->
  DecodeSnapshot repository (Snapshot.mk done) dst w
    = (Ret tt, add_log [EvCloseChan] w1) /\
  (exists evs, log w1 = log w ++ evs /\ Forall archive_event evs) /\
  (forall arc rest err w2,
     DecodeArchive repository arc (filepath_Join dst (Archive.Path arc)) w1
       = (Ret (Some err), w2) ->
     DecodeSnapshot repository (Snapshot.mk (done ++ arc :: rest)) dst w
       = (Ret tt, add_log [EvSend (newProgressError err); EvCloseChan] w2) /\
     exists evs,
       log w2 = log w ++ evs /\ Forall archive_event evs).
Proof.
  intros Hall. split; [|split].
  - unfold DecodeSnapshot. simpl. unfold bind.
    rewrite <- (app_nil_r done), (DecodeSnapshot_loop_all _ _ _ _ _ Hall).
    reflexivity.
  - by eapply decoded_all_logs.
  - intros arc rest err w2 Hrun. split.
    + unfold DecodeSnapshot. simpl. unfold bind at 1.
      rewrite (DecodeSnapshot_loop_all _ _ _ _ _ Hall). simpl.
      unfold bind at 1. rewrite Hrun. unfold send, emit.
      by rewrite add_log_app.
    + destruct (decoded_all_logs _ _ _ _ _ Hall) as (evs1 & Hlog1 & HP1).
      destruct (DecodeArchive_logs repository arc
                  (filepath_Join dst (Archive.Path arc)) w1) as (evs2 & Hlog2 & HP2).
      rewrite Hrun in Hlog2. simpl in Hlog2.
      exists (evs1 ++ evs2). rewrite Hlog2, Hlog1, app_assoc. split; [done|].
      by apply Forall_app.
Qed.

End SnapshotDecoder.

Section ChunkCache.

Context `{ext : Externals}.

Lemma count_loads_app key l1 l2 :
  count_loads key (l1 ++ l2) = (count_loads key l1 + count_loads key l2)%nat.
Proof. unfold count_loads. by rewrite filter_app, length_app. Qed.

Lemma count_loads_loader key evs :
  Forall loader_event evs -> count_loads key evs = 0%nat.
Proof.
  induction 1 as [|ev evs Hev _ IH]; [done|].
  destruct ev; simpl in Hev; try done; exact IH.
Qed.

Lemma count_loads_loadChunk key repository chunk :
  count_loads key (loadChunk_calls repository chunk) =
  if decide (Chunk.ShaSum chunk = key) then 1%nat else 0%nat.
Proof.
  destruct (loadChunk_calls_shape repository chunk) as (evs & -> & H).
  change (EvLoadChunk chunk :: evs) with ([EvLoadChunk chunk] ++ evs).
  rewrite count_loads_app, (count_loads_loader _ _ H), Nat.add_0_r.
  unfold count_loads. simpl. rewrite filter_cons, filter_nil. simpl.
  destruct (decide (Chunk.ShaSum chunk = key)) as [Heq|Hne].
  - rewrite bool_decide_eq_true_2 by done. by rewrite decide_True.
  - rewrite bool_decide_eq_false_2 by done. by rewrite decide_False.
Qed.

Lemma cache_step_refl w : cache_step w w.
Proof. by split. Qed.

Lemma cache_step_trans w1 w2 w3 :
  cache_step w1 w2 -> cache_step w2 w3 -> cache_step w1 w3.
Proof. intros [H1 H1'] [H2 H2']. split; auto. Qed.

(** Events other than an entry into [loadChunk] do not matter. *)
Lemma cache_step_add_log evs w :
  (forall key, count_loads key evs = 0%nat) -> cache_step w (add_log evs w).
Proof.
  intros Hev. split; [|done]. intros Hinv key. simpl.
  rewrite count_loads_app, Hev, Nat.add_0_r. apply Hinv.
Qed.

(** A miss whose load succeeds: the plaintext is stored and the mutex
    released. *)
Lemma cache_step_load_ok repository chunk cd w :
  mutex w = false ->
  cache w !! Chunk.ShaSum chunk = None ->
  cache_step w
    (set_mutex false
       (set_cache (insert (Chunk.ShaSum chunk) cd)
          (add_log (loadChunk_calls repository chunk) (set_mutex true w)))).
Proof.
  intros Hm Hmiss. split.
  - intros Hinv key. simpl. rewrite count_loads_app, count_loads_loadChunk.
    destruct (Hinv key) as [H1 H2].
    destruct (decide (Chunk.ShaSum chunk = key)) as [<-|Hne].
    + assert (count_loads (Chunk.ShaSum chunk) (log w) = 0%nat) as ->.
      { destruct (count_loads (Chunk.ShaSum chunk) (log w)) as [|[|n]] eqn:E;
          [done| |lia].
        destruct (H2 Hm eq_refl) as [x Hx]. congruence. }
      split; [done|]. intros _ _. rewrite lookup_insert_eq. eauto.
    + rewrite Nat.add_0_r. split; [done|]. intros _ Hc.
      rewrite lookup_insert_ne by done. by apply H2.
  - intros key cd' Hk. simpl.
    destruct (decide (Chunk.ShaSum chunk = key)) as [<-|Hne]; [congruence|].
    by rewrite lookup_insert_ne.
Qed.

(** A miss whose load does not come back with a plaintext: the mutex
    stays taken. *)
Lemma cache_step_load_fail repository chunk w :
  mutex w = false ->
  cache w !! Chunk.ShaSum chunk = None ->
  cache_step w (add_log (loadChunk_calls repository chunk) (set_mutex true w)).
Proof.
  intros Hm Hmiss. split; [|done].
  intros Hinv key. simpl. rewrite count_loads_app, count_loads_loadChunk.
  destruct (Hinv key) as [H1 H2]. split; [|done].
  destruct (decide (Chunk.ShaSum chunk = key)) as [<-|Hne]; [|lia].
  destruct (count_loads (Chunk.ShaSum chunk) (log w)) as [|[|n]] eqn:E;
    [done| |lia].
  destruct (H2 Hm eq_refl) as [x Hx]. congruence.
Qed.

Lemma preserves_ret {A} (a : A) : preserves (ret a).
Proof. intros w. apply cache_step_refl. Qed.

Lemma preserves_panic {A} v : preserves (@panic A v).
Proof. intros w. apply cache_step_refl. Qed.

Lemma preserves_bind {A B} (m : M A) (k : A -> M B) :
  preserves m -> (forall a, preserves (k a)) -> preserves (bind m k).
Proof.
  intros Hm Hk w. unfold bind. specialize (Hm w).
  destruct (m w) as [[a|v| |] w1]; simpl in *; try done.
  eapply cache_step_trans; [exact Hm|apply Hk].
Qed.

Lemma cache_step_hit_println line w :
  mutex w = false ->
  cache_step w (set_mutex false (add_log [EvPrintln line] (set_mutex true w))).
Proof.
  intros Hm. split; [|done]. intros Hinv key. simpl.
  rewrite count_loads_app. simpl. rewrite Nat.add_0_r.
  destruct (Hinv key) as [H1 H2]. split; [done|]. intros _. by apply H2.
Qed.

Lemma set_mutex_release w :
  mutex w = false -> set_mutex false (set_mutex true w) = w.
Proof. destruct w. simpl. by intros ->. Qed.

(** The three ways through [readArchiveChunk] once the chunk is found:
    blocked, hit, miss. *)
Lemma readArchiveChunk_blocked repository arc chunkNum idx chunk w :
  IndexOfChunk arc chunkNum = (idx, None) ->
  chunk_lookup arc idx = Some chunk ->
  mutex w = true ->
  readArchiveChunk repository arc chunkNum w = (Block, w).
Proof.
  intros Hidx Hch Hm. unfold readArchiveChunk, chunk_at. rewrite Hidx, Hch.
  unfold bind, ret, Lock. by rewrite Hm.
Qed.

Lemma readArchiveChunk_hit repository arc chunkNum idx chunk cd w :
  IndexOfChunk arc chunkNum = (idx, None) ->
  chunk_lookup arc idx = Some chunk ->
  mutex w = false ->
  cache w !! Chunk.ShaSum chunk = Some cd ->
  readArchiveChunk repository arc chunkNum w = (Ret (cd, None), w).
Proof.
  intros Hidx Hch Hm Hhit. unfold readArchiveChunk, chunk_at. rewrite Hidx, Hch.
  unfold bind, ret, Lock, Unlock, cache_lookup. rewrite Hm. simpl.
  rewrite Hhit. simpl. by rewrite set_mutex_release.
Qed.

Lemma readArchiveChunk_miss repository arc chunkNum idx chunk w :
  IndexOfChunk arc chunkNum = (idx, None) ->
  chunk_lookup arc idx = Some chunk ->
  mutex w = false ->
  cache w !! Chunk.ShaSum chunk = None ->
  let locked := add_log (loadChunk_calls repository chunk) (set_mutex true w) in
  readArchiveChunk repository arc chunkNum w =
  match loadChunk_result repository chunk with
  | Ret (cd, None) =>
      (Ret (cd, None),
       set_mutex false (set_cache (insert (Chunk.ShaSum chunk) cd) locked))
  | Ret (_, Some err) => (Ret ([], Some err), locked)
  | Panic v => (Panic v, locked)
  | Block => (Block, locked)
  | OutOfFuel => (OutOfFuel, locked)
  end.
Proof.
  intros Hidx Hch Hm Hmiss. unfold readArchiveChunk, chunk_at. rewrite Hidx, Hch.
  unfold bind at 1. unfold ret at 1. unfold bind at 1. unfold Lock. rewrite Hm.
  unfold bind at 1. unfold cache_lookup. simpl cache. rewrite Hmiss.
  unfold bind at 1. unfold bind at 1. rewrite loadChunk_run.
  destruct (loadChunk_result repository chunk) as [[cd [e|]]|v| |]; try done.
Qed.

Lemma preserves_readArchiveChunk repository arc chunkNum :
  preserves (readArchiveChunk repository arc chunkNum).
Proof.
  intros w.
  destruct (IndexOfChunk arc chunkNum) as [idx [e|]] eqn:Hidx.
  { unfold readArchiveChunk. rewrite Hidx. apply cache_step_refl. }
  destruct (chunk_lookup arc idx) as [chunk|] eqn:Hch.
  2:{ unfold readArchiveChunk, chunk_at. rewrite Hidx, Hch. apply cache_step_refl. }
  destruct (mutex w) eqn:Hm.
  { erewrite readArchiveChunk_blocked by eauto. apply cache_step_refl. }
  destruct (cache w !! Chunk.ShaSum chunk) as [cd|] eqn:Hc.
  { erewrite readArchiveChunk_hit by eauto. apply cache_step_refl. }
  erewrite readArchiveChunk_miss by eauto.
  destruct (loadChunk_result repository chunk) as [[cd [e|]]|v| |]; simpl;
    first [by apply cache_step_load_ok | by apply cache_step_load_fail].
Qed.

(** One turn of the loop of [DecodeArchiveData] once the chunk is found. *)
Lemma DecodeArchiveData_loop_turn repository arc i rest b idx chunk w :
  IndexOfChunk arc i = (idx, None) ->
  chunk_lookup arc idx = Some chunk ->
  let key := Chunk.ShaSum chunk in
  let locked := add_log (loadChunk_calls repository chunk) (set_mutex true w) in
  DecodeArchiveData_loop repository arc (i :: rest) b w =
  if mutex w then (Block, w)
  else
    match cache w !! key with
    | Some cd =>
        DecodeArchiveData_loop repository arc rest (b ++ cd)
          (set_mutex false
             (add_log [EvPrintln ("Using cached chunk " +:+ key)]
                (set_mutex true w)))
    | None =>
        match loadChunk_result repository chunk with
        | Ret (cd, None) =>
            DecodeArchiveData_loop repository arc rest (b ++ cd)
              (set_mutex false (set_cache (insert key cd) locked))
        | Ret (_, Some err) => (Ret (inl (b, Stats.zero, Some err)), locked)
        | Panic v => (Panic v, locked)
        | Block => (Block, locked)
        | OutOfFuel => (OutOfFuel, locked)
        end
    end.
Proof.
  intros Hidx Hch key locked. subst key locked.
  cbn [DecodeArchiveData_loop]. unfold chunk_at. rewrite Hidx, Hch.
  unfold bind at 1. unfold ret at 1. unfold bind at 1. unfold Lock.
  destruct (mutex w) eqn:Hm; [done|].
  unfold bind at 1. unfold cache_lookup. simpl cache.
  destruct (cache w !! Chunk.ShaSum chunk) as [cd|] eqn:Hc.
  - reflexivity.
  - unfold bind at 1. unfold bind at 1. rewrite loadChunk_run.
    destruct (loadChunk_result repository chunk) as [[cd [e|]]|v| |]; try done.
Qed.

Lemma preserves_DecodeArchiveData_loop repository arc parts :
  forall b, preserves (DecodeArchiveData_loop repository arc parts b).
Proof.
  induction parts as [|i rest IH]; intros b w; [apply cache_step_refl|].
  destruct (IndexOfChunk arc i) as [idx [e|]] eqn:Hidx.
  { cbn [DecodeArchiveData_loop]. rewrite Hidx. apply cache_step_refl. }
  destruct (chunk_lookup arc idx) as [chunk|] eqn:Hch.
  2:{ cbn [DecodeArchiveData_loop]. unfold chunk_at. rewrite Hidx, Hch.
      apply cache_step_refl. }
  rewrite (DecodeArchiveData_loop_turn _ _ _ _ _ _ _ _ Hidx Hch).
  destruct (mutex w) eqn:Hm; [apply cache_step_refl|].
  destruct (cache w !! Chunk.ShaSum chunk) as [cd|] eqn:Hc.
  { eapply cache_step_trans; [by apply cache_step_hit_println|apply IH]. }
  destruct (loadChunk_result repository chunk) as [[cd [e|]]|v| |]; simpl;
    try by apply cache_step_load_fail.
  eapply cache_step_trans; [by apply cache_step_load_ok|apply IH].
Qed.

Lemma preserves_DecodeArchiveData repository arc :
  preserves (DecodeArchiveData repository arc).
Proof.
  unfold DecodeArchiveData.
  destruct (Archive.Typ arc); try apply preserves_ret.
  apply preserves_bind; [apply preserves_DecodeArchiveData_loop|].
  intros [r|b]; apply preserves_ret.
Qed.

Lemma preserves_ReadArchive_body repository arc size b neededPart internalOffset :
  preserves (ReadArchive_body repository arc size b neededPart internalOffset).
Proof.
  unfold ReadArchive_body. case_match; [apply preserves_ret|].
  apply preserves_bind; [apply preserves_readArchiveChunk|].
  intros [cd err]. repeat case_match;
    first [apply preserves_ret | apply preserves_panic].
Qed.

Lemma preserves_ReadArchive_loop repository arc size fuel :
  forall b neededPart internalOffset,
    preserves (ReadArchive_loop fuel repository arc size b neededPart internalOffset).
Proof.
  induction fuel as [|fuel IH]; intros b np io; cbn [ReadArchive_loop];
    (case_match; [|apply preserves_ret]).
  - intros w. apply cache_step_refl.
  - apply preserves_bind; [apply preserves_ReadArchive_body|].
    intros [b1 np1 io1|r]; [apply IH|apply preserves_ret].
Qed.

Lemma preserves_ReadArchive repository arc offset size :
  preserves (ReadArchive repository arc offset size).
Proof.
  unfold ReadArchive. destruct (Archive.Typ arc); try apply preserves_ret.
  destruct (ChunkForOffset arc offset) as [[np io] [e|]]; [apply preserves_ret|].
  apply preserves_bind; [apply preserves_ReadArchive_loop|].
  intros [r|[b np']]; [apply preserves_ret|].
  apply preserves_bind; [|intros; apply preserves_ret].
  intros w. by apply cache_step_add_log.
Qed.

Lemma cache_step_run_read repository op w :
  cache_step w (run_read repository op w).
Proof.
  destruct op; simpl;
    [apply preserves_DecodeArchiveData | apply preserves_readArchiveChunk
    | apply preserves_ReadArchive].
Qed.

Lemma cache_step_run_reads repository ops :
  forall w, cache_step w (run_reads repository ops w).
Proof.
  induction ops as [|op ops IH]; intros w; [apply cache_step_refl|].
  simpl. eapply cache_step_trans; [apply cache_step_run_read|apply IH].
Qed.

Lemma cache_inv_init : cache_inv init_world.
Proof. intros key. simpl. split; [unfold count_loads; simpl; lia|done]. Qed.

Lemma chunk_lookup_seqZ arc idx chunk :
  chunk_lookup arc idx = Some chunk ->
  seqZ 0 (len (Archive.Chunks arc)) = 0 :: seqZ 1 (len (Archive.Chunks arc) - 1).
Proof.
  unfold chunk_lookup. case_match; [done|]. intros Hlt%lookup_lt_Some.
  rewrite seqZ_cons by (unfold len; lia). f_equal.
Qed.

(** With the mutex free, a read that returns a plaintext has released
    the mutex. *)
Lemma readArchiveChunk_releases repository arc chunkNum w cd w' :
  mutex w = false ->
  readArchiveChunk repository arc chunkNum w = (Ret (cd, None), w') ->
  mutex w' = false.
Proof.
  intros Hm Hrun.
  destruct (IndexOfChunk arc chunkNum) as [idx [e|]] eqn:Hidx.
  { unfold readArchiveChunk in Hrun. rewrite Hidx in Hrun. discriminate. }
  destruct (chunk_lookup arc idx) as [chunk|] eqn:Hch.
  2:{ unfold readArchiveChunk, chunk_at in Hrun. rewrite Hidx, Hch in Hrun.
      discriminate. }
  destruct (cache w !! Chunk.ShaSum chunk) as [cd'|] eqn:Hc.
  { erewrite readArchiveChunk_hit in Hrun by eauto. congruence. }
  erewrite readArchiveChunk_miss in Hrun by eauto.
  destruct (loadChunk_result repository chunk) as [[cd' [e|]]|v| |];
    try discriminate.
  by injection Hrun as _ <-.
Qed.

(** C6, where the code departs from it: when the chunk is not cached
    and the loader fails, [readArchiveChunk] and [DecodeArchiveData]
    return the loader's error with the cache mutex still held. *)
Theorem cache_mutex_held_after_loader_failure repository arc idx chunk w junk err :
  IndexOfChunk arc 0 = (idx, None) ->
  chunk_lookup arc idx = Some chunk ->
  mutex w = false ->
  cache w !! Chunk.ShaSum chunk = None ->
  loadChunk_result repository chunk = Ret (junk, Some err) ->
  (exists w',
     readArchiveChunk repository arc 0 w = (Ret ([], Some err), w') /\
     mutex w' = true) /\
  (Archive.Typ arc = File ->
   exists w',
     DecodeArchiveData repository arc w = (Ret ([], Stats.zero, Some err), w') /\
     mutex w' = true).
Proof.
  intros Hidx Hch Hm Hmiss Hres. split.
  - eexists. erewrite readArchiveChunk_miss by eauto. rewrite Hres. done.
  - intros Hty. unfold DecodeArchiveData. rewrite Hty. unfold bind.
    rewrite (chunk_lookup_seqZ _ _ _ Hch).
    rewrite (DecodeArchiveData_loop_turn _ _ _ _ _ _ _ _ Hidx Hch).
    rewrite Hm, Hmiss, Hres. eexists. done.
Qed.

(** C7: in any sequence of reads through the cache, started after
    [init()], [loadChunk] is entered at most once for each [ShaSum];
    a read of a chunk whose [ShaSum] is in the cache returns the cached
    plaintext, unless it finds the mutex held and blocks, and calls
    neither [loadChunk] nor anything else (in [DecodeArchiveData] it
    prints a line); and no read removes or replaces an entry of the
    cache. *)
Theorem cache_loads_each_key_once repository :
  (forall ops key,
     (count_loads key (log (run_reads repository ops init_world)) <= 1)%nat) /\
  (forall arc chunkNum idx chunk cd w,
     IndexOfChunk arc chunkNum = (idx, None) ->
     chunk_lookup arc idx = Some chunk ->
     cache w !! Chunk.ShaSum chunk = Some cd ->
     readArchiveChunk repository arc chunkNum w =
       (if mutex w then Block else Ret (cd, None), w) /\
     forall rest b,
       DecodeArchiveData_loop repository arc (chunkNum :: rest) b w =
       if mutex w then (Block, w)
       else
         DecodeArchiveData_loop repository arc rest (b ++ cd)
           (add_log [EvPrintln ("Using cached chunk " +:+ Chunk.ShaSum chunk)] w)) /\
  (forall ops w key cd,
     cache w !! key = Some cd ->
     cache (run_reads repository ops w) !! key = Some cd).
Proof.
  split; [|split].
  - intros ops key.
    destruct (cache_step_run_reads repository ops init_world) as [Hinv _].
    apply (Hinv cache_inv_init key).
  - intros arc chunkNum idx chunk cd w Hidx Hch Hhit.
    destruct (mutex w) eqn:Hm.
    + split; [by eapply readArchiveChunk_blocked|]. intros rest b.
      rewrite (DecodeArchiveData_loop_turn _ _ _ _ _ _ _ _ Hidx Hch).
      by rewrite Hm.
    + split; [eapply readArchiveChunk_hit; eauto|]. intros rest b.
      rewrite (DecodeArchiveData_loop_turn _ _ _ _ _ _ _ _ Hidx Hch).
      rewrite Hm, Hhit. f_equal. destruct w; simpl in *. by subst.
  - intros ops w key cd Hk.
    by apply (cache_step_run_reads repository ops w).
Qed.

End ChunkCache.

Section ArchiveReader.

Context `{ext : Externals}.

(** A turn that goes on has read chunk [neededPart], which exists, and
    moves to the next one. *)
Lemma ReadArchive_body_Continue repository arc size b neededPart internalOffset
    w b1 neededPart1 internalOffset1 w1 :
  ReadArchive_body repository arc size b neededPart internalOffset w
    = (Ret (Continue b1 neededPart1 internalOffset1), w1) ->
  neededPart < len (Archive.Chunks arc) /\ neededPart1 = neededPart + 1.
Proof.
  unfold ReadArchive_body.
  destruct (Z.leb_spec (len (Archive.Chunks arc)) neededPart) as [Hle|Hlt];
    [discriminate|].
  unfold bind.
  destruct (readArchiveChunk repository arc neededPart w) as [[[cd err]|v| |] w'];
    try discriminate.
  repeat case_match; try discriminate;
    unfold ret; intros Heq; injection Heq as _ <- _ _; done.
Qed.

Lemma reaches_neededPart repository arc size n st w st' w' :
  reaches repository arc size n st w st' w' ->
  st'.1.2 = st.1.2 + Z.of_nat n /\
  (n = 0%nat \/ st'.1.2 <= len (Archive.Chunks arc)).
Proof.
  induction 1 as [st w|n b np io w b1 np1 io1 w1 st2 w2 Hlt Hbody _ [IH1 IH2]].
  - simpl. split; [lia|by left].
  - apply ReadArchive_body_Continue in Hbody as [Hnp ->]. simpl in *.
    split; [lia|]. right. destruct IH2 as [->|IH2]; lia.
Qed.

(** The loop, given the turns it takes to reach a state, goes on from
    that state. *)
Lemma ReadArchive_loop_reaches repository arc size n st w st' w' :
  reaches repository arc size n st w st' w' ->
  forall fuel,
    ReadArchive_loop (n + fuel) repository arc size st.1.1 st.1.2 st.2 w =
    ReadArchive_loop fuel repository arc size st'.1.1 st'.1.2 st'.2 w'.
Proof.
  induction 1 as [st w|n b np io w b1 np1 io1 w1 st2 w2 Hlt Hbody _ IH];
    intros fuel; [done|].
  simpl. destruct (Z.ltb_spec (len b) size); [|lia].
  unfold bind at 1. rewrite Hbody. apply IH.
Qed.

(** What [ReadArchive] does once its loop has reached a state with
    bytes still to read and a chunk to read them from. *)
Lemma ReadArchive_from repository arc offset size w neededPart0 internalOffset0
    n b neededPart internalOffset w1 :
  Archive.Typ arc = File ->
  ChunkForOffset arc offset = (neededPart0, internalOffset0, None) ->
  reaches repository arc size n ([], neededPart0, internalOffset0) w
    (b, neededPart, internalOffset) w1 ->
  neededPart < len (Archive.Chunks arc) ->
  exists fuel,
    ReadArchive repository arc offset size w =
    bind (ReadArchive_loop (S fuel) repository arc size b neededPart internalOffset)
      (fun r => match r with
                | inl returned => ret returned
                | inr (b, neededPart) => emit (EvGo neededPart);; ret (b, None)
                end) w1.
Proof.
  intros Hty Hoff Hreach Hnp.
  destruct (reaches_neededPart _ _ _ _ _ _ _ _ Hreach) as [Heq _]. simpl in Heq.
  exists (Z.to_nat (len (Archive.Chunks arc) - neededPart0) - n)%nat.
  unfold ReadArchive. rewrite Hty, Hoff. cbv zeta.
  replace (S (Z.to_nat (len (Archive.Chunks arc) - neededPart0)))
    with (n + S (Z.to_nat (len (Archive.Chunks arc) - neededPart0) - n))%nat by lia.
  unfold bind at 1.
  rewrite (ReadArchive_loop_reaches _ _ _ _ _ _ _ _ Hreach). reflexivity.
Qed.

(** C8: when the loop of [ReadArchive] comes to a chunk with bytes
    still to read and reading that chunk fails, [ReadArchive] panics
    with the error; it does not return, so no partial result reaches
    the caller. *)
Theorem ReadArchive_load_failure_panics repository arc offset size w
    neededPart0 internalOffset0 n b neededPart internalOffset w1 cd err w2 :
  Archive.Typ arc = File ->
  ChunkForOffset arc offset = (neededPart0, internalOffset0, None) ->
  reaches repository arc size n ([], neededPart0, internalOffset0) w
    (b, neededPart, internalOffset) w1 ->
  len b < size ->
  neededPart < len (Archive.Chunks arc) ->
  readArchiveChunk repository arc neededPart w1 = (Ret (cd, Some err), w2) ->
  ReadArchive repository arc offset size w = (Panic (PanicError (Some err)), w2).
Proof.
  intros Hty Hoff Hreach Hlt Hnp Hread.
  destruct (ReadArchive_from _ _ _ _ _ _ _ _ _ _ _ _ Hty Hoff Hreach Hnp)
    as [fuel ->].
  unfold bind at 1. cbn [ReadArchive_loop].
  destruct (Z.ltb_spec (len b) size); [|lia].
  unfold bind at 1. unfold ReadArchive_body.
  destruct (Z.leb_spec (len (Archive.Chunks arc)) neededPart); [lia|].
  unfold bind at 1. rewrite Hread. reflexivity.
Qed.

(** C10: when the loop of [ReadArchive] comes to a chunk with bytes
    still to read and that chunk is read without an error but is empty,
    [ReadArchive] panics, and the value it panics with is the nil
    error. *)
Theorem ReadArchive_empty_chunk_panics_nil repository arc offset size w
    neededPart0 internalOffset0 n b neededPart internalOffset w1 cd w2 :
  Archive.Typ arc = File ->
  ChunkForOffset arc offset = (neededPart0, internalOffset0, None) ->
  reaches repository arc size n ([], neededPart0, internalOffset0) w
    (b, neededPart, internalOffset) w1 ->
  len b < size ->
  neededPart < len (Archive.Chunks arc) ->
  readArchiveChunk repository arc neededPart w1 = (Ret (cd, None), w2) ->
  len cd = 0 ->
  ReadArchive repository arc offset size w = (Panic (PanicError None), w2).
Proof.
  intros Hty Hoff Hreach Hlt Hnp Hread Hcd.
  destruct (ReadArchive_from _ _ _ _ _ _ _ _ _ _ _ _ Hty Hoff Hreach Hnp)
    as [fuel ->].
  unfold bind at 1. cbn [ReadArchive_loop].
  destruct (Z.ltb_spec (len b) size); [|lia].
  unfold bind at 1. unfold ReadArchive_body.
  destruct (Z.leb_spec (len (Archive.Chunks arc)) neededPart); [lia|].
  unfold bind at 1. rewrite Hread. rewrite Hcd. reflexivity.
Qed.

Lemma fuelled_ret {A} (a : A) : fuelled (ret a).
Proof. intros w. done. Qed.

Lemma fuelled_panic {A} v : fuelled (@panic A v).
Proof. intros w. done. Qed.

Lemma fuelled_emit ev : fuelled (emit ev).
Proof. intros w. done. Qed.

Lemma fuelled_bind {A B} (m : M A) (k : A -> M B) :
  fuelled m -> (forall a, fuelled (k a)) -> fuelled (bind m k).
Proof.
  intros Hm Hk w. unfold bind. specialize (Hm w).
  destruct (m w) as [[a|v| |] w1]; simpl in *; try done. apply Hk.
Qed.

Ltac fuelled_step :=
  first
    [ apply fuelled_ret
    | apply fuelled_panic
    | apply fuelled_emit
    | apply fuelled_bind; [|intros ?] ].

Lemma fuelled_decodeChunk repository chunk b :
  fuelled (decodeChunk repository chunk b).
Proof. intros w. by rewrite decodeChunk_run. Qed.

Lemma fuelled_loadChunk_loop repository chunk parts :
  forall pars parsFound parsMissing,
    fuelled (loadChunk_loop repository chunk parts pars parsFound parsMissing).
Proof.
  induction parts as [|i rest IH]; intros pars pf pm; cbn [loadChunk_loop].
  - fuelled_step.
  - apply fuelled_bind; [unfold call_LoadChunk; repeat fuelled_step|].
    intros [part [e|]]; [apply IH|].
    case_match; [|apply IH].
    apply fuelled_bind.
    { case_match; unfold call_Reconstruct; repeat fuelled_step. }
    intros [pars' [e|]]; [apply IH|].
    apply fuelled_bind; [unfold call_Join; repeat fuelled_step|].
    intros [b [e|]]; [apply IH|].
    apply fuelled_bind; [apply fuelled_decodeChunk|intros; fuelled_step].
Qed.

Lemma fuelled_loadChunk repository chunk : fuelled (loadChunk repository chunk).
Proof.
  unfold loadChunk. apply fuelled_bind; [fuelled_step|]. intros _.
  case_match.
  - case_match; [fuelled_step|]. case_match; [fuelled_step|].
    apply fuelled_bind; [apply fuelled_loadChunk_loop|].
    intros [r|pf]; fuelled_step.
  - apply fuelled_bind; [unfold call_LoadChunk; repeat fuelled_step|].
    intros [b [e|]]; [fuelled_step|apply fuelled_decodeChunk].
Qed.

Lemma fuelled_readArchiveChunk repository arc chunkNum :
  fuelled (readArchiveChunk repository arc chunkNum).
Proof.
  unfold readArchiveChunk.
  destruct (IndexOfChunk arc chunkNum) as [idx [e|]]; [fuelled_step|].
  apply fuelled_bind; [unfold chunk_at; case_match; fuelled_step|]. intros chunk.
  apply fuelled_bind; [intros w; unfold Lock; by case_match|]. intros _.
  apply fuelled_bind; [by intros w|]. intros hit.
  apply fuelled_bind.
  - destruct hit as [cd|]; [fuelled_step|].
    apply fuelled_bind; [apply fuelled_loadChunk|].
    intros [cd [e|]]; [fuelled_step|].
    apply fuelled_bind; [by intros w|intros; fuelled_step].
  - intros [e|cd]; [fuelled_step|].
    apply fuelled_bind; [intros w; unfold Unlock; by case_match|].
    intros; fuelled_step.
Qed.

Lemma fuelled_ReadArchive_loop repository arc size fuel :
  forall b neededPart internalOffset,
    (Z.to_nat (len (Archive.Chunks arc) - neededPart) < fuel)%nat ->
    fuelled (ReadArchive_loop fuel repository arc size b neededPart internalOffset).
Proof.
  induction fuel as [|fuel IH]; intros b np io Hfuel; [lia|].
  cbn [ReadArchive_loop]. case_match; [|fuelled_step].
  intros w. unfold bind.
  destruct (ReadArchive_body repository arc size b np io w) as [[s|v| |] w1] eqn:Hb;
    simpl; try done.
  - destruct s as [b1 np1 io1|r]; [|done].
    apply ReadArchive_body_Continue in Hb as [Hnp ->]. apply IH. lia.
  - revert Hb. unfold ReadArchive_body. case_match; [done|].
    unfold bind.
    pose proof (fuelled_readArchiveChunk repository arc np w) as Hf.
    destruct (readArchiveChunk repository arc np w) as [[[cd err]|v| |] w'];
      simpl in Hf; try done.
    repeat case_match; done.
Qed.

(** The fuel [ReadArchive] gives its loop is enough: the model of
    [ReadArchive] always returns, panics or blocks. *)
Lemma fuelled_ReadArchive repository arc offset size :
  fuelled (ReadArchive repository arc offset size).
Proof.
  unfold ReadArchive. destruct (Archive.Typ arc); try fuelled_step.
  destruct (ChunkForOffset arc offset) as [[np io] [e|]]; [fuelled_step|].
  apply fuelled_bind; [apply fuelled_ReadArchive_loop; lia|].
  intros [r|[b np']]; repeat fuelled_step.
Qed.

End ArchiveReader.

(** ** More on the shard loader *)

Section LoaderResults.

Context `{ext : Externals}.

Lemma go_result_nil r b :
  go_result r = (b, None) -> r = inl b.
Proof. destruct r; simpl; congruence. Qed.

Lemma go_result_error r b err :
  go_result r = (b, Some err) -> b = [].
Proof. destruct r; simpl; congruence. Qed.

Lemma codec_decode_verified repository chunk raw b :
  codec_decode repository chunk raw = inl b ->
  hex_EncodeToString (SHA256.Sum256 b) = Chunk.DecryptedShaSum chunk.
Proof.
  unfold codec_decode, codec_verify.
  destruct (codec_decrypt repository chunk raw) as [b1|e]; [|done].
  destruct (codec_gunzip chunk b1) as [b2|e]; [|done].
  case_decide; [|done]. by intros [= <-].
Qed.

(** What the loop returns from inside is what [decodeChunk] made of some
    joined data. *)
Lemma loadChunk_loop_result repository chunk parts :
  forall pars parsFound parsMissing w r w',
    loadChunk_loop repository chunk parts pars parsFound parsMissing w
      = (Ret (inl r), w') ->
    exists raw, r = go_result (codec_decode repository chunk raw).
Proof.
  induction parts as [|i rest IH]; intros pars pf pm w r w'; [done|].
  cbn [loadChunk_loop]. unfold bind at 1. rewrite call_LoadChunk_run.
  destruct (Backend.LoadChunk (Repository.Backend repository) chunk (wrap64 i))
    as [part [e|]]; [apply IH|].
  case_match; [|apply IH].
  unfold bind at 1.
  destruct (0 <? pm).
  - unfold call_Reconstruct, bind at 1, emit at 1, ret at 1.
    destruct (Reconstruct _ _ _) as [pars' [e|]]; [apply IH|].
    unfold bind at 1, call_Join, bind at 1, emit at 1, ret at 1.
    destruct (Join _ _ _ _) as [b [e|]]; [apply IH|].
    unfold bind. rewrite decodeChunk_run. intros [= <- _]. eauto.
  - unfold ret at 1.
    unfold bind at 1, call_Join, bind at 1, emit at 1, ret at 1.
    destruct (Join _ _ _ _) as [b [e|]]; [apply IH|].
    unfold bind. rewrite decodeChunk_run. intros [= <- _]. eauto.
Qed.

(** Whatever [loadChunk] returns is either what [decodeChunk] made of
    some data, or an empty slice with an error. *)
Lemma loadChunk_result_cases repository chunk w r w' :
  loadChunk repository chunk w = (Ret r, w') ->
  (exists raw, r = go_result (codec_decode repository chunk raw)) \/
  (exists err, r = ([], Some err)).
Proof.
  unfold loadChunk. unfold bind at 1, emit at 1.
  destruct (0 <? Chunk.ParityParts chunk).
  - destruct (reedsolomon_New _ _) as [e|]; [intros [= <- _]; eauto|].
    case_match; [done|]. unfold bind.
    destruct (loadChunk_loop _ _ _ _ _ _ _) as [[[r'|pf]|v| |] w1] eqn:Hloop;
      try done.
    + intros [= <- _]. left. eapply loadChunk_loop_result; eauto.
    + intros [= <- _]. eauto.
  - unfold bind at 1. rewrite call_LoadChunk_run.
    destruct (Backend.LoadChunk _ _ _) as [b [e|]]; [intros [= <- _]; eauto|].
    rewrite decodeChunk_run. intros [= <- _]. eauto.
Qed.

(** X1: whenever [loadChunk] returns a plaintext without an error, with
    or without parity shards, the lowercase hex SHA-256 of that plaintext
    is the [DecryptedShaSum] of the chunk. *)
Theorem loadChunk_verified repository chunk w b w' :
  loadChunk repository chunk w = (Ret (b, None), w') ->
  hex_EncodeToString (SHA256.Sum256 b) = Chunk.DecryptedShaSum chunk.
Proof.
  intros Hrun.
  destruct (loadChunk_result_cases _ _ _ _ _ Hrun) as [[raw Hr]|[err Hr]];
    [|done].
  symmetry in Hr. apply go_result_nil in Hr.
  by eapply codec_decode_verified.
Qed.

(** X2: whenever [loadChunk] returns an error, whichever step it comes
    from (codec creation, backend, reconstruction, decryption,
    decompression, hash check), the slice returned with it is empty. *)
Theorem loadChunk_error_empty repository chunk w b err w' :
  loadChunk repository chunk w = (Ret (b, Some err), w') -> b = [].
Proof.
  intros Hrun.
  destruct (loadChunk_result_cases _ _ _ _ _ Hrun) as [[raw Hr]|[err' Hr]].
  - symmetry in Hr. by eapply go_result_error.
  - congruence.
Qed.

Lemma backend_calls_app l1 l2 :
  backend_calls (l1 ++ l2) = backend_calls l1 ++ backend_calls l2.
Proof. unfold backend_calls. apply omap_app. Qed.

Lemma backend_calls_codec repository chunk b :
  backend_calls (codec_calls repository chunk b) = [].
Proof.
  unfold codec_calls. rewrite backend_calls_app.
  case_decide; simpl; (case_match; [|done]);
    rewrite backend_calls_app; case_decide; simpl; by case_match.
Qed.

(** The loop asks the backend for a prefix of the indices it is given,
    in their order. *)
Lemma loadChunk_loop_backend_calls repository chunk parts :
  forall pars parsFound parsMissing w,
    Forall (fun i => 0 <= i < 2 ^ 64) parts ->
    exists evs j,
      log (loadChunk_loop repository chunk parts pars parsFound parsMissing w).2
        = log w ++ evs /\
      backend_calls evs = map (fun i => (chunk, i)) (take j parts).
Proof.
  induction parts as [|i rest IH]; intros pars pf pm w Hr.
  - exists [], 0%nat. simpl. by rewrite app_nil_r.
  - apply Forall_cons in Hr as [Hi Hr].
    assert (forall pars pf pm,
      exists evs j,
        log (loadChunk_loop repository chunk rest pars pf pm
               (add_log [EvBackendLoadChunk chunk i] w)).2 = log w ++ evs /\
        backend_calls evs = map (fun i => (chunk, i)) (take j (i :: rest)))
      as Hnext.
    { intros pars' pf' pm'.
      destruct (IH pars' pf' pm' (add_log [EvBackendLoadChunk chunk i] w) Hr)
        as (evs & j & Hlog & Hb).
      exists (EvBackendLoadChunk chunk i :: evs), (S j). simpl in *.
      rewrite Hlog, <- app_assoc. split; [done|]. by rewrite Hb. }
    assert (forall extra pars pf pm,
      backend_calls extra = [] ->
      exists evs j,
        log (loadChunk_loop repository chunk rest pars pf pm
               (add_log extra (add_log [EvBackendLoadChunk chunk i] w))).2
          = log w ++ evs /\
        backend_calls evs = map (fun i => (chunk, i)) (take j (i :: rest)))
      as Hnext'.
    { intros extra pars' pf' pm' Hx.
      destruct (IH pars' pf' pm'
                  (add_log extra (add_log [EvBackendLoadChunk chunk i] w)) Hr)
        as (evs & j & Hlog & Hb).
      exists ([EvBackendLoadChunk chunk i] ++ extra ++ evs), (S j). simpl in *.
      rewrite Hlog, <- !app_assoc. split; [done|].
      by rewrite backend_calls_app, Hx, Hb. }
    cbn [loadChunk_loop]. unfold bind at 1.
    rewrite (wrap64_small i Hi), call_LoadChunk_run.
    destruct (Backend.LoadChunk (Repository.Backend repository) chunk i)
      as [part [e|]]; [apply Hnext|].
    case_match; [|apply Hnext].
    unfold bind at 1.
    destruct (0 <? pm).
    + unfold call_Reconstruct, bind at 1, emit at 1, ret at 1.
      destruct (Reconstruct _ _ _) as [pars' [e|]]; [by apply Hnext'|].
      unfold bind at 1, call_Join, bind at 1, emit at 1, ret at 1.
      rewrite add_log_app.
      destruct (Join _ _ _ _) as [b [e|]]; [by apply Hnext'|].
      unfold bind. rewrite decodeChunk_run. simpl.
      eexists _, 1%nat. rewrite <- !app_assoc. split; [reflexivity|].
      simpl. by rewrite backend_calls_codec.
    + unfold ret at 1.
      unfold bind at 1, call_Join, bind at 1, emit at 1, ret at 1.
      destruct (Join _ _ _ _) as [b [e|]]; [by apply Hnext'|].
      unfold bind. rewrite decodeChunk_run. simpl.
      eexists _, 1%nat. rewrite <- !app_assoc. split; [reflexivity|].
      simpl. by rewrite backend_calls_codec.
Qed.

(** X3: the shards [loadChunk] asks of the backend are a prefix, in
    increasing order and each once, of the indices 0 .. N+M-1 of the
    chunk when it has parity shards, and index 0 at most once when it has
    none; it never asks for another chunk or another index. *)
Theorem loadChunk_backend_calls repository chunk w :
  let indices :=
    if 0 <? Chunk.ParityParts chunk
    then seqZ 0 (wrap64 (Chunk.DataParts chunk + Chunk.ParityParts chunk))
    else [0] in
  exists evs j,
    log (loadChunk repository chunk w).2 = log w ++ evs /\
    backend_calls evs = map (fun i => (chunk, i)) (take j indices).
Proof.
  unfold loadChunk. unfold bind at 1, emit at 1.
  destruct (0 <? Chunk.ParityParts chunk); cbv zeta.
  - destruct (reedsolomon_New _ _) as [e|]; [by exists [EvLoadChunk chunk], 0%nat|].
    destruct (Z.ltb_spec max_int
                (wrap64 (Chunk.DataParts chunk + Chunk.ParityParts chunk)))
      as [Hbig|Hfit]; [by exists [EvLoadChunk chunk], 0%nat|].
    unfold bind.
    match goal with
    | |- context [loadChunk_loop ?r ?c ?parts ?pars ?pf ?pm ?w0] =>
        destruct (loadChunk_loop_backend_calls r c parts pars pf pm w0)
          as (evs & j & Hlog & Hb);
        [|destruct (loadChunk_loop r c parts pars pf pm w0) as [[[res|n]|v| |] w1]]
    end.
    { eapply Forall_impl; [apply seqZ_range|]. simpl. unfold max_int in Hfit.
      intros; lia. }
    all: simpl in *; exists (EvLoadChunk chunk :: evs), j;
      rewrite Hlog, <- app_assoc; split; [done|exact Hb].
  - unfold bind at 1. rewrite call_LoadChunk_run.
    destruct (Backend.LoadChunk _ _ _) as [b [e|]].
    + eexists _, 1%nat. simpl. rewrite <- app_assoc. split; [reflexivity|done].
    + rewrite decodeChunk_run. simpl.
      eexists _, 1%nat. rewrite <- !app_assoc. split; [reflexivity|].
      simpl. by rewrite backend_calls_codec.
Qed.

End LoaderResults.

Section LoaderRuns.

Context `{ext : Externals}.

Lemma shards_after_insert repository chunk k total :
  0 <= k < total ->
  <[Z.to_nat k := shard repository chunk k]> (shards_after repository chunk k total)
  = shards_after repository chunk (k + 1) total.
Proof.
  intros Hk. unfold shards_after.
  rewrite insert_app_r_alt by (rewrite length_map, length_seqZ; lia).
  rewrite length_map, length_seqZ, Nat.sub_diag.
  replace (Z.to_nat (total - k)) with (S (Z.to_nat (total - (k + 1)))) by lia.
  rewrite (seqZ_app 0 k 1) by lia. simpl.
  rewrite map_app, <- app_assoc. done.
Qed.

(** While fewer than [DataParts] shards have been found and the shards
    can be fetched, the loop only fetches. *)
Lemma loadChunk_loop_fetching repository chunk total (m : nat) :
  forall k n w,
    0 <= k ->
    k + Z.of_nat m < Chunk.DataParts chunk ->
    k + Z.of_nat m <= total ->
    Z.of_nat m <= n ->
    Chunk.DataParts chunk < 2 ^ 64 ->
    (forall i, k <= i < k + Z.of_nat m -> fetched repository chunk i = true) ->
    loadChunk_loop repository chunk (seqZ k n)
      (shards_after repository chunk k total) k 0 w
    = loadChunk_loop repository chunk (seqZ (k + Z.of_nat m) (n - Z.of_nat m))
        (shards_after repository chunk (k + Z.of_nat m) total) (k + Z.of_nat m) 0
        (add_log (map (EvBackendLoadChunk chunk) (seqZ k (Z.of_nat m))) w).
Proof.
  induction m as [|m IH]; intros k n w Hk HN Htot Hn Hd Hf.
  - simpl. rewrite !Z.add_0_r, Z.sub_0_r, add_log_nil. done.
  - rewrite (seqZ_cons k n) by lia. cbn [loadChunk_loop]. unfold bind at 1.
    rewrite wrap64_small by lia. rewrite call_LoadChunk_run.
    assert (fetched repository chunk k = true) as Hfk by (apply Hf; lia).
    unfold fetched in Hfk.
    pose proof (shards_after_insert repository chunk k total ltac:(lia)) as Hins.
    unfold shard in Hins.
    destruct (Backend.LoadChunk (Repository.Backend repository) chunk k)
      as [part [e|]]; [done|]. simpl in Hins.
    rewrite wrap64_small by lia.
    destruct (Z.leb_spec (Chunk.DataParts chunk) (k + 1)); [lia|].
    rewrite Hins.
    rewrite (IH (k + 1) (Z.pred n)) by (try lia; intros; apply Hf; lia).
    rewrite add_log_app.
    rewrite (seqZ_cons k (Z.of_nat (S m))) by lia. simpl map.
    replace (Z.pred (Z.of_nat (S m))) with (Z.of_nat m) by lia.
    replace (Z.succ k) with (k + 1) by lia.
    replace (k + 1 + Z.of_nat m) with (k + Z.of_nat (S m)) by lia.
    replace (Z.pred n - Z.of_nat m) with (n - Z.of_nat (S m)) by lia.
    done.
Qed.

(** A turn of the loop that fetches shard [k] and, with it, has
    [DataParts] shards and none missing: it joins. *)
Lemma loadChunk_loop_join_turn repository chunk total k rest parsFound w :
  0 <= k < total ->
  total < 2 ^ 63 ->
  0 <= parsFound < 2 ^ 63 ->
  Chunk.DataParts chunk <= parsFound + 1 ->
  fetched repository chunk k = true ->
  let pars := shards_after repository chunk (k + 1) total in
  let w1 := add_log [EvBackendLoadChunk chunk k; EvJoin pars (Chunk.Size chunk)] w in
  loadChunk_loop repository chunk (k :: rest)
    (shards_after repository chunk k total) parsFound 0 w
  = match Join (int_of_uint (Chunk.DataParts chunk))
               (int_of_uint (Chunk.ParityParts chunk)) pars (Chunk.Size chunk) with
    | (_, Some _) => loadChunk_loop repository chunk rest pars (parsFound + 1) 0 w1
    | (b, None) =>
        (Ret (inl (go_result (codec_decode repository chunk b))),
         add_log (codec_calls repository chunk b) w1)
    end.
Proof.
  intros Hk Htot Hpf HN Hfk pars w1. cbn [loadChunk_loop]. unfold bind at 1.
  rewrite wrap64_small by lia. rewrite call_LoadChunk_run.
  unfold fetched in Hfk.
  pose proof (shards_after_insert repository chunk k total Hk) as Hins.
  unfold shard in Hins.
  destruct (Backend.LoadChunk (Repository.Backend repository) chunk k)
    as [part [e|]]; [done|]. simpl in Hins.
  rewrite wrap64_small by lia.
  destruct (Z.leb_spec (Chunk.DataParts chunk) (parsFound + 1)); [|lia].
  rewrite Hins. fold pars.
  change (0 <? 0) with false. cbv iota.
  unfold bind at 1, ret at 1. unfold bind at 1, call_Join.
  unfold bind at 1, emit at 1, ret at 1. rewrite add_log_app. simpl app.
  fold w1.
  destruct (Join _ _ pars _) as [b [e|]]; [done|].
  unfold bind. rewrite decodeChunk_run. done.
Qed.


Lemma loadChunk_with_parity repository chunk w :
  0 < Chunk.ParityParts chunk ->
  0 <= Chunk.DataParts chunk ->
  Chunk.DataParts chunk + Chunk.ParityParts chunk <= max_int ->
  reedsolomon_New (int_of_uint (Chunk.DataParts chunk))
                  (int_of_uint (Chunk.ParityParts chunk)) = None ->
  let total := Chunk.DataParts chunk + Chunk.ParityParts chunk in
  loadChunk repository chunk w =
  bind (loadChunk_loop repository chunk (seqZ 0 total)
          (shards_after repository chunk 0 total) 0 0)
    (fun r => match r with
              | inl res => ret res
              | inr parsFound =>
                  ret ([], Some (DataReconstructionError chunk parsFound
                         (wrap64 (Chunk.DataParts chunk - parsFound))))
              end) (add_log [EvLoadChunk chunk] w).
Proof.
  intros HM HN Hmax Hnew total. unfold max_int in Hmax.
  unfold loadChunk. unfold bind at 1. unfold emit.
  destruct (Z.ltb_spec 0 (Chunk.ParityParts chunk)); [|lia].
  rewrite Hnew, wrap64_small by (unfold total; lia).
  destruct (Z.ltb_spec max_int (Chunk.DataParts chunk + Chunk.ParityParts chunk));
    [unfold max_int in *; lia|].
  unfold shards_after. simpl. by rewrite Z.sub_0_r.
Qed.

(** X4: for a chunk with parity shards whose first [DataParts] shards can
    be fetched and joined, [loadChunk] asks the backend for exactly those
    shards, calls neither [Reconstruct] nor the backend for a parity
    shard, joins once, and returns what the codec makes of the joined
    data. *)
Theorem loadChunk_stops_at_first_join repository chunk w b :
  0 < Chunk.ParityParts chunk ->
  1 <= Chunk.DataParts chunk ->
  Chunk.DataParts chunk + Chunk.ParityParts chunk <= max_int ->
  reedsolomon_New (int_of_uint (Chunk.DataParts chunk))
                  (int_of_uint (Chunk.ParityParts chunk)) = None ->
  (forall i, 0 <= i < Chunk.DataParts chunk -> fetched repository chunk i = true) ->
  let total := Chunk.DataParts chunk + Chunk.ParityParts chunk in
  let pars := shards_after repository chunk (Chunk.DataParts chunk) total in
  Join (int_of_uint (Chunk.DataParts chunk)) (int_of_uint (Chunk.ParityParts chunk))
       pars (Chunk.Size chunk) = (b, None) ->
  loadChunk repository chunk w =
  (Ret (go_result (codec_decode repository chunk b)),
   add_log
     ([EvLoadChunk chunk]
      ++ map (EvBackendLoadChunk chunk) (seqZ 0 (Chunk.DataParts chunk))
      ++ [EvJoin pars (Chunk.Size chunk)]
      ++ codec_calls repository chunk b) w).
Proof.
  intros HM HN Hmax Hnew Hf total pars Hjoin.
  rewrite loadChunk_with_parity by (try done; lia). fold total.
  unfold max_int in Hmax. unfold bind at 1.
  set (N := Chunk.DataParts chunk) in *.
  rewrite (loadChunk_loop_fetching repository chunk total (Z.to_nat (N - 1)) 0 total)
    by (try lia; intros; apply Hf; lia).
  rewrite Z2Nat.id by lia. rewrite Z.add_0_l.
  rewrite (seqZ_cons (N - 1)) by (unfold total; lia).
  rewrite (loadChunk_loop_join_turn repository chunk total)
    by (try (unfold total; lia); apply Hf; lia).
  replace (N - 1 + 1) with N by lia. fold pars. fold N. rewrite Hjoin.
  unfold ret. rewrite !add_log_app. do 2 f_equal. f_equal.
  replace (seqZ 0 N) with (seqZ 0 (N - 1) ++ [N - 1]).
  - by rewrite map_app, <- app_assoc.
  - replace N with ((N - 1) + 1) at 3 by lia.
    by rewrite (seqZ_app 0 (N - 1) 1) by lia.
Qed.


End LoaderRuns.

(** ** More on the archive writer *)

Section WriterResults.

Context `{ext : Externals}.

Lemma loadChunk_result_hash repository chunk b :
  loadChunk_result repository chunk = Ret (b, None) ->
  hex_EncodeToString (SHA256.Sum256 b) = Chunk.DecryptedShaSum chunk.
Proof.
  unfold loadChunk_result. intros Hres.
  destruct (loadChunk repository chunk init_world) as [o w'] eqn:Hrun.
  simpl in Hres. subst o.
  destruct (loadChunk_result_cases _ _ _ _ _ Hrun) as [[raw Hr]|[err Hr]];
    [|done].
  symmetry in Hr. apply go_result_nil in Hr.
  by eapply codec_decode_verified.
Qed.

Lemma chunk_lookup_elem arc idx chunk :
  chunk_lookup arc idx = Some chunk -> chunk ∈ Archive.Chunks arc.
Proof.
  unfold chunk_lookup. case_match; [done|]. apply list_elem_of_lookup_2.
Qed.

(** A loop that runs to its end has decoded and written every chunk it
    was given. *)
Lemma DecodeArchive_loop_nil repository arc path parts :
  forall p off w w',
    DecodeArchive_loop repository arc path parts p off w = (Ret None, w') ->
    0 <= off ->
    (Z.to_nat off <= length (content path w))%nat ->
    exists ps evs,
      Forall2 (fun i b => plaintext repository arc i = Some b) parts ps /\
      log w' = log w ++ evs /\
      writes_of path evs = ps /\
      content path w' = write_at (Z.to_nat off) (concat ps) (content path w).
Proof.
  induction parts as [|i rest IH]; intros p off w w' Hrun Hoff Hlen.
  - injection Hrun as <-. exists [], []. simpl.
    rewrite app_nil_r, write_at_nil by done. by repeat split.
  - cbn [DecodeArchive_loop] in Hrun.
    destruct (IndexOfChunk arc i) as [idx [e|]] eqn:Hidx; [done|].
    unfold chunk_at in Hrun.
    destruct (chunk_lookup arc idx) as [chunk|] eqn:Hch; [|done].
    unfold bind at 1, ret at 1 in Hrun. unfold bind at 1 in Hrun.
    rewrite loadChunk_run in Hrun.
    destruct (loadChunk_result repository chunk) as [[b [e|]]|v| |] eqn:Hres;
      try done.
    unfold bind at 1, call_Write in Hrun.
    unfold bind at 1, emit at 1 in Hrun.
    destruct (file_Write path off b) as [[n err]|]; [done|].
    unfold bind at 1, send, emit at 1 in Hrun.
    match type of Hrun with
    | DecodeArchive_loop _ _ _ _ ?p1 _ ?w1 = _ =>
        assert (content path w1 = write_at (Z.to_nat off) b (content path w))
          as Hc1
          by (unfold content, write_file; simpl; by rewrite lookup_insert_eq);
        destruct (IH p1 (off + len b) w1 w' Hrun) as (ps & evs & Hps & Hlog & Hw & Hc);
        [unfold len; lia
        |rewrite Hc1;
         pose proof (write_at_length (Z.to_nat off) b (content path w));
         unfold len; lia
        |]
    end.
    exists (b :: ps). eexists. split; [|split; [|split]].
    + constructor; [|done]. eapply plaintext_intro; eauto.
    + rewrite Hlog. simpl. rewrite <- !app_assoc. reflexivity.
    + rewrite !writes_of_app, writes_of_loadChunk, Hw. simpl.
      by rewrite decide_True.
    + rewrite Hc, Hc1. simpl. rewrite <- write_at_app. f_equal.
      unfold len. lia.
Qed.

(** X6: when [DecodeArchive] returns nil for a File archive, every chunk
    of the archive was resolved, loaded and decoded, the plaintexts were
    written one after the other from offset 0 in the logical order, and
    the modification time and the owner were set without an error. *)
Theorem DecodeArchive_nil_complete repository arc path w w' :
  Archive.Typ arc = File ->
  DecodeArchive repository arc path w = (Ret None, w') ->
  exists ps,
    Forall2 (fun i b => plaintext repository arc i = Some b)
      (seqZ 0 (len (Archive.Chunks arc))) ps /\
    content path w' = write_at 0 (concat ps) (content path w) /\
    os_Chtimes path (Archive.ModTime arc) = None /\
    os_Lchown path (Archive.UID arc) (Archive.GID arc) = None.
Proof.
  intros Hty. unfold DecodeArchive. rewrite Hty.
  unfold bind at 1. unfold bind at 1. unfold send at 1. unfold emit at 1.
  unfold bind at 1. unfold call_MkdirAll. unfold bind at 1. unfold emit at 1.
  unfold ret at 1.
  destruct (os_MkdirAll (filepath_Dir path) mode_0755) as [e|]; [done|].
  unfold bind at 1. unfold call_OpenFile. unfold bind at 1. unfold emit at 1.
  destruct (os_OpenFile path (Archive.Mode arc)) as [e|]; [done|].
  unfold bind at 1.
  match goal with
  | |- context [DecodeArchive_loop ?r ?a ?pa ?parts ?p ?off ?w0] =>
      assert (content path w0 = content path w) as Hc0
        by (unfold content; simpl; unfold open_file;
            destruct (files w !! path) eqn:E;
            [by rewrite E|by rewrite lookup_insert_eq]);
      destruct (DecodeArchive_loop r a pa parts p off w0) as [[[e|]|v| |] w2]
        eqn:Hloop; try done
  end.
  apply DecodeArchive_loop_nil in Hloop as (ps & evs & Hps & Hlog & Hw & Hc);
    [|lia|simpl; lia].
  unfold bind at 1. unfold emit at 1. unfold bind at 1. unfold emit at 1.
  unfold call_Chtimes. unfold bind at 1. unfold emit at 1. unfold ret at 1.
  destruct (os_Chtimes path (Archive.ModTime arc)) as [e|]; [done|].
  unfold call_Lchown, bind, emit, ret.
  destruct (os_Lchown path (Archive.UID arc) (Archive.GID arc)) as [e|]; [done|].
  intros [= <-]. exists ps. split; [done|]. split; [|done].
  rewrite Hc0 in Hc. exact Hc.
Qed.

(** X7: every slice [DecodeArchive] hands to [Write] for a File archive,
    however the restore ends, has the SHA-256 recorded as
    [DecryptedShaSum] in one of the chunks of the archive: nothing
    unverified reaches the disk. *)
Theorem DecodeArchive_writes_verified repository arc path w :
  Archive.Typ arc = File ->
  exists evs,
    log (DecodeArchive repository arc path w).2 = log w ++ evs /\
    Forall (fun b => exists chunk,
              chunk ∈ Archive.Chunks arc /\
              hex_EncodeToString (SHA256.Sum256 b) = Chunk.DecryptedShaSum chunk)
      (writes_of path evs).
Proof.
  intros Hty.
  destruct (DecodeArchive_File_in_order repository arc path w Hty)
    as (evs & j & Hlog & Hord).
  exists evs. split; [done|].
  induction Hord as [|i b parts bs Hb _ IH]; constructor; [|done].
  simpl in Hb.
  apply (plaintext_inv repository arc i b) in Hb as (idx & chunk & _ & Hch & Hres).
  exists chunk. split; [by eapply chunk_lookup_elem|].
  by apply (loadChunk_result_hash repository).
Qed.

End WriterResults.

(** ** More on the snapshot decoder *)

Section SnapshotStream.

Context `{ext : Externals}.

Lemma DecodeSnapshot_loop_shape repository dst archives :
  forall w,
    let run := DecodeSnapshot_loop repository archives dst w in
    exists evs,
      log run.2 = log w ++ evs /\
      match run.1 with
      | Ret _ =>
          exists evs0,
            Forall archive_event evs0 /\
            (evs = evs0 \/ exists err, evs = evs0 ++ [EvSend (newProgressError err)])
      | _ => Forall archive_event evs
      end.
Proof.
  induction archives as [|arc rest IH]; intros w; cbv zeta.
  - exists []. simpl. rewrite app_nil_r. split; [done|]. exists []. split; auto.
  - cbn [DecodeSnapshot_loop]. unfold bind.
    destruct (DecodeArchive_logs repository arc
                (filepath_Join dst (Archive.Path arc)) w) as (evs1 & Hlog1 & HP1).
    destruct (DecodeArchive repository arc (filepath_Join dst (Archive.Path arc)) w)
      as [[[err|]|v| |] w1]; simpl in Hlog1; try by exists evs1.
    + exists (evs1 ++ [EvSend (newProgressError err)]). simpl.
      rewrite Hlog1, app_assoc. split; [done|]. exists evs1. eauto.
    + destruct (IH w1) as (evs2 & Hlog2 & Hsh).
      exists (evs1 ++ evs2). rewrite Hlog2, Hlog1, app_assoc. split; [done|].
      destruct (DecodeSnapshot_loop repository rest dst w1).1.
      * destruct Hsh as (evs0 & HP0 & [->| [err ->]]).
        -- exists (evs1 ++ evs0). split; [by apply Forall_app|by left].
        -- exists (evs1 ++ evs0). split; [by apply Forall_app|right].
           exists err. by rewrite app_assoc.
      * by apply Forall_app.
      * by apply Forall_app.
      * by apply Forall_app.
Qed.

(** X8: whatever the snapshot, when the goroutine of [DecodeSnapshot]
    finishes, the stream holds records without an error, then at most one
    record with an error, then the close, which comes once and last; when
    an archive panics, the stream holds only records without an error and
    is left unclosed ([close(prog)] is not deferred). *)
Theorem DecodeSnapshot_closes_once repository snapshot dst w :
  let run := DecodeSnapshot repository snapshot dst w in
  exists evs,
    log run.2 = log w ++ evs /\
    match run.1 with
    | Ret _ =>
        exists evs0,
          Forall archive_event evs0 /\
          (evs = evs0 ++ [EvCloseChan] \/
           exists err, evs = evs0 ++ [EvSend (newProgressError err); EvCloseChan])
    | _ => Forall archive_event evs
    end.
Proof.
  cbv zeta. unfold DecodeSnapshot, bind.
  destruct (DecodeSnapshot_loop_shape repository dst
              (Snapshot.Archives snapshot) w) as (evs & Hlog & Hsh).
  destruct (DecodeSnapshot_loop repository (Snapshot.Archives snapshot) dst w)
    as [[[]|v| |] w1]; simpl in *; try by exists evs.
  exists (evs ++ [EvCloseChan]). rewrite Hlog, app_assoc. split; [done|].
  destruct Hsh as (evs0 & HP0 & [->| [err ->]]).
  - exists evs0. split; [done|by left].
  - exists evs0. split; [done|right]. exists err. by rewrite <- app_assoc.
Qed.

End SnapshotStream.

(** ** More on the chunk cache *)

Section CacheResults.

Context `{ext : Externals}.

Lemma logical_chunk_intro arc i idx chunk :
  IndexOfChunk arc i = (idx, None) ->
  chunk_lookup arc idx = Some chunk ->
  logical_chunk arc i = Some chunk.
Proof. intros Hidx Hch. unfold logical_chunk. by rewrite Hidx. Qed.

(** X9: with the mutex free, when [readArchiveChunk] returns a plaintext
    without an error, the mutex is free again and the plaintext is in the
    cache under the [ShaSum] of the chunk that was read. *)
Theorem readArchiveChunk_success repository arc chunkNum w cd w' :
  mutex w = false ->
  readArchiveChunk repository arc chunkNum w = (Ret (cd, None), w') ->
  mutex w' = false /\
  exists chunk,
    logical_chunk arc chunkNum = Some chunk /\
    cache w' !! Chunk.ShaSum chunk = Some cd.
Proof.
  intros Hm Hrun.
  destruct (IndexOfChunk arc chunkNum) as [idx [e|]] eqn:Hidx.
  { unfold readArchiveChunk in Hrun. rewrite Hidx in Hrun. discriminate. }
  destruct (chunk_lookup arc idx) as [chunk|] eqn:Hch.
  2:{ unfold readArchiveChunk, chunk_at in Hrun. rewrite Hidx, Hch in Hrun.
      discriminate. }
  pose proof (logical_chunk_intro _ _ _ _ Hidx Hch) as Hlc.
  destruct (cache w !! Chunk.ShaSum chunk) as [cd'|] eqn:Hc.
  { erewrite readArchiveChunk_hit in Hrun by eauto.
    injection Hrun as <- <-. eauto. }
  erewrite readArchiveChunk_miss in Hrun by eauto.
  destruct (loadChunk_result repository chunk) as [[cd' [e|]]|v| |];
    try discriminate.
  injection Hrun as <- <-. split; [done|]. exists chunk. split; [done|].
  simpl. by rewrite lookup_insert_eq.
Qed.

(** X10: once a read has failed to load a chunk that was not cached,
    every later [readArchiveChunk] of a chunk its archive holds, cached
    or not, blocks on the mutex and changes nothing; so does
    [DecodeArchiveData] on a File archive whose first chunk is found. *)
Theorem cache_blocked_after_loader_failure repository arc chunkNum idx chunk w
    junk err :
  IndexOfChunk arc chunkNum = (idx, None) ->
  chunk_lookup arc idx = Some chunk ->
  mutex w = false ->
  cache w !! Chunk.ShaSum chunk = None ->
  loadChunk_result repository chunk = Ret (junk, Some err) ->
  let w' := (readArchiveChunk repository arc chunkNum w).2 in
  forall arc2 chunkNum2 idx2 chunk2,
    IndexOfChunk arc2 chunkNum2 = (idx2, None) ->
    chunk_lookup arc2 idx2 = Some chunk2 ->
    readArchiveChunk repository arc2 chunkNum2 w' = (Block, w') /\
    (chunkNum2 = 0 -> Archive.Typ arc2 = File ->
     DecodeArchiveData repository arc2 w' = (Block, w')).
Proof.
  intros Hidx Hch Hm Hmiss Hres w' arc2 n2 idx2 chunk2 Hidx2 Hch2.
  assert (mutex w' = true) as Hm'.
  { unfold w'. erewrite readArchiveChunk_miss by eauto. by rewrite Hres. }
  split.
  - by eapply readArchiveChunk_blocked.
  - intros -> Hty. unfold DecodeArchiveData. rewrite Hty. unfold bind.
    rewrite (chunk_lookup_seqZ _ _ _ Hch2).
    rewrite (DecodeArchiveData_loop_turn _ _ _ _ _ _ _ _ Hidx2 Hch2).
    by rewrite Hm'.
Qed.

(** The loop of [DecodeArchiveData] returns from inside only with an
    error. *)
Lemma DecodeArchiveData_loop_returned repository arc parts :
  forall b w b1 stats err w',
    DecodeArchiveData_loop repository arc parts b w
      = (Ret (inl (b1, stats, err)), w') ->
    err <> None.
Proof.
  induction parts as [|i rest IH]; intros b w b1 stats err w' Hrun; [done|].
  destruct (IndexOfChunk arc i) as [idx [e|]] eqn:Hidx.
  { cbn [DecodeArchiveData_loop] in Hrun. rewrite Hidx in Hrun.
    by injection Hrun as _ _ <- _. }
  destruct (chunk_lookup arc idx) as [chunk|] eqn:Hch.
  2:{ cbn [DecodeArchiveData_loop] in Hrun. unfold chunk_at in Hrun.
      rewrite Hidx, Hch in Hrun. discriminate. }
  rewrite (DecodeArchiveData_loop_turn _ _ _ _ _ _ _ _ Hidx Hch) in Hrun.
  destruct (mutex w); [done|].
  destruct (cache w !! Chunk.ShaSum chunk) as [cd|]; [by eapply IH|].
  destruct (loadChunk_result repository chunk) as [[cd [e|]]|v| |]; try done.
  - by injection Hrun as _ _ <- _.
  - by eapply IH.
Qed.

(** A loop that runs to its end has appended, in the order of the
    indices, what the cache now holds for each chunk. *)
Lemma DecodeArchiveData_loop_success repository arc parts :
  forall b w b' w',
    mutex w = false ->
    DecodeArchiveData_loop repository arc parts b w = (Ret (inr b'), w') ->
    mutex w' = false /\
    exists cds,
      Forall2 (fun i cd => exists chunk,
                 logical_chunk arc i = Some chunk /\
                 cache w' !! Chunk.ShaSum chunk = Some cd) parts cds /\
      b' = b ++ concat cds.
Proof.
  induction parts as [|i rest IH]; intros b w b' w' Hm Hrun.
  - injection Hrun as <- <-. split; [done|]. exists []. simpl.
    by rewrite app_nil_r.
  - destruct (IndexOfChunk arc i) as [idx [e|]] eqn:Hidx.
    { cbn [DecodeArchiveData_loop] in Hrun. rewrite Hidx in Hrun. discriminate. }
    destruct (chunk_lookup arc idx) as [chunk|] eqn:Hch.
    2:{ cbn [DecodeArchiveData_loop] in Hrun. unfold chunk_at in Hrun.
        rewrite Hidx, Hch in Hrun. discriminate. }
    pose proof (logical_chunk_intro _ _ _ _ Hidx Hch) as Hlc.
    rewrite (DecodeArchiveData_loop_turn _ _ _ _ _ _ _ _ Hidx Hch) in Hrun.
    rewrite Hm in Hrun.
    assert (forall cd w1,
      mutex w1 = false ->
      cache w1 !! Chunk.ShaSum chunk = Some cd ->
      DecodeArchiveData_loop repository arc rest (b ++ cd) w1 = (Ret (inr b'), w') ->
      mutex w' = false /\
      exists cds,
        Forall2 (fun i cd => exists chunk,
                   logical_chunk arc i = Some chunk /\
                   cache w' !! Chunk.ShaSum chunk = Some cd) (i :: rest) cds /\
        b' = b ++ concat cds) as Hnext.
    { intros cd w1 Hm1 Hc1 Hrun1.
      destruct (IH _ _ _ _ Hm1 Hrun1) as (Hm' & cds & Hcds & ->).
      split; [done|]. exists (cd :: cds). split; [|by rewrite <- app_assoc].
      constructor; [|done]. exists chunk. split; [done|].
      pose proof (preserves_DecodeArchiveData_loop repository arc rest (b ++ cd) w1)
        as [_ Hkeep].
      rewrite Hrun1 in Hkeep. by apply Hkeep. }
    destruct (cache w !! Chunk.ShaSum chunk) as [cd|] eqn:Hc.
    + eapply Hnext; [| |exact Hrun]; done.
    + destruct (loadChunk_result repository chunk) as [[cd [e|]]|v| |]; try done.
      eapply Hnext; [| |exact Hrun]; [done|]. simpl. by rewrite lookup_insert_eq.
Qed.

(** X11: with the mutex free, when [DecodeArchiveData] returns without an
    error for a File archive, the mutex is free again, every chunk of the
    archive has its plaintext in the cache under its [ShaSum], the bytes
    returned are those cache entries put together in the logical order,
    and the statistics count one file of the size of the archive. *)
Theorem DecodeArchiveData_success repository arc w b stats w' :
  Archive.Typ arc = File ->
  mutex w = false ->
  DecodeArchiveData repository arc w = (Ret (b, stats, None), w') ->
  mutex w' = false /\
  (exists cds,
     Forall2 (fun i cd => exists chunk,
                logical_chunk arc i = Some chunk /\
                cache w' !! Chunk.ShaSum chunk = Some cd)
       (seqZ 0 (len (Archive.Chunks arc))) cds /\
     b = concat cds) /\
  stats = Stats.mk 1 0 0 (wrap64 (Archive.Size arc))
            (wrap64 (Archive.StorageSize arc)) (wrap64 (Archive.Size arc)).
Proof.
  intros Hty Hm. unfold DecodeArchiveData. rewrite Hty. unfold bind.
  destruct (DecodeArchiveData_loop repository arc _ [] w)
    as [[[[[b1 s1] e1]|b1]|v| |] w1] eqn:Hloop; try done.
  - intros [= -> -> -> ->].
    by apply DecodeArchiveData_loop_returned in Hloop.
  - intros [= <- <- <-].
    destruct (DecodeArchiveData_loop_success _ _ _ _ _ _ _ Hm Hloop)
      as (Hm' & cds & Hcds & ->).
    split; [done|]. split; [by exists cds|]. done.
Qed.

Lemma valid_growth_refl repository w : valid_growth repository w w.
Proof. intros key cd H. by left. Qed.

Lemma valid_growth_trans repository w1 w2 w3 :
  valid_growth repository w1 w2 -> valid_growth repository w2 w3 ->
  valid_growth repository w1 w3.
Proof.
  intros H12 H23 key cd H3. destruct (H23 key cd H3) as [H2|Hl]; [|by right].
  by apply H12.
Qed.

Lemma valid_growth_same_cache repository w w' :
  cache w' = cache w -> valid_growth repository w w'.
Proof. intros Heq key cd H. left. by rewrite <- Heq. Qed.

Lemma valid_growth_store repository chunk cd w w' :
  loadChunk_result repository chunk = Ret (cd, None) ->
  cache w' = <[Chunk.ShaSum chunk := cd]> (cache w) ->
  valid_growth repository w w'.
Proof.
  intros Hres Heq key cd' H. rewrite Heq in H.
  destruct (decide (Chunk.ShaSum chunk = key)) as [<-|Hne].
  - rewrite lookup_insert_eq in H. injection H as <-. right. by exists chunk.
  - rewrite lookup_insert_ne in H by done. by left.
Qed.

Lemma grows_ret repository {A} (a : A) : grows repository (ret a).
Proof. intros w. apply valid_growth_refl. Qed.

Lemma grows_panic repository {A} v : grows repository (@panic A v).
Proof. intros w. apply valid_growth_refl. Qed.

Lemma grows_bind repository {A B} (m : M A) (k : A -> M B) :
  grows repository m -> (forall a, grows repository (k a)) ->
  grows repository (bind m k).
Proof.
  intros Hm Hk w. unfold bind. specialize (Hm w).
  destruct (m w) as [[a|v| |] w1]; simpl in *; try done.
  eapply valid_growth_trans; [exact Hm|apply Hk].
Qed.

Lemma grows_readArchiveChunk repository arc chunkNum :
  grows repository (readArchiveChunk repository arc chunkNum).
Proof.
  intros w.
  destruct (IndexOfChunk arc chunkNum) as [idx [e|]] eqn:Hidx.
  { unfold readArchiveChunk. rewrite Hidx. apply valid_growth_refl. }
  destruct (chunk_lookup arc idx) as [chunk|] eqn:Hch.
  2:{ unfold readArchiveChunk, chunk_at. rewrite Hidx, Hch.
      apply valid_growth_refl. }
  destruct (mutex w) eqn:Hm.
  { erewrite readArchiveChunk_blocked by eauto. apply valid_growth_refl. }
  destruct (cache w !! Chunk.ShaSum chunk) as [cd|] eqn:Hc.
  { erewrite readArchiveChunk_hit by eauto. apply valid_growth_refl. }
  erewrite readArchiveChunk_miss by eauto.
  destruct (loadChunk_result repository chunk) as [[cd [e|]]|v| |] eqn:Hres;
    simpl; try by apply valid_growth_same_cache.
  by eapply valid_growth_store.
Qed.

Lemma grows_DecodeArchiveData_loop repository arc parts :
  forall b, grows repository (DecodeArchiveData_loop repository arc parts b).
Proof.
  induction parts as [|i rest IH]; intros b w; [apply valid_growth_refl|].
  destruct (IndexOfChunk arc i) as [idx [e|]] eqn:Hidx.
  { cbn [DecodeArchiveData_loop]. rewrite Hidx. apply valid_growth_refl. }
  destruct (chunk_lookup arc idx) as [chunk|] eqn:Hch.
  2:{ cbn [DecodeArchiveData_loop]. unfold chunk_at. rewrite Hidx, Hch.
      apply valid_growth_refl. }
  rewrite (DecodeArchiveData_loop_turn _ _ _ _ _ _ _ _ Hidx Hch).
  destruct (mutex w) eqn:Hm; [apply valid_growth_refl|].
  destruct (cache w !! Chunk.ShaSum chunk) as [cd|] eqn:Hc.
  { eapply valid_growth_trans; [|apply IH]. by apply valid_growth_same_cache. }
  destruct (loadChunk_result repository chunk) as [[cd [e|]]|v| |] eqn:Hres;
    simpl; try by apply valid_growth_same_cache.
  eapply valid_growth_trans; [|apply IH]. by eapply valid_growth_store.
Qed.

Lemma grows_ReadArchive_loop repository arc size fuel :
  forall b neededPart internalOffset,
    grows repository
      (ReadArchive_loop fuel repository arc size b neededPart internalOffset).
Proof.
  induction fuel as [|fuel IH]; intros b np io; cbn [ReadArchive_loop];
    (case_match; [|apply grows_ret]).
  - intros w. apply valid_growth_refl.
  - apply grows_bind.
    + unfold ReadArchive_body. case_match; [apply grows_ret|].
      apply grows_bind; [apply grows_readArchiveChunk|].
      intros [cd err]. repeat case_match;
        first [apply grows_ret | apply grows_panic].
    + intros [b1 np1 io1|r]; [apply IH|apply grows_ret].
Qed.

Lemma grows_run_read repository op w :
  valid_growth repository w (run_read repository op w).
Proof.
  destruct op; simpl.
  - unfold DecodeArchiveData. destruct (Archive.Typ arc);
      try apply grows_ret.
    apply grows_bind; [apply grows_DecodeArchiveData_loop|].
    intros [r|b]; apply grows_ret.
  - apply grows_readArchiveChunk.
  - unfold ReadArchive. destruct (Archive.Typ arc); try apply grows_ret.
    destruct (ChunkForOffset arc offset) as [[np io] [e|]]; [apply grows_ret|].
    apply grows_bind; [apply grows_ReadArchive_loop|].
    intros [r|[b np']]; [apply grows_ret|].
    apply grows_bind; [|intros; apply grows_ret].
    intros w0. by apply valid_growth_same_cache.
Qed.

(** X12: after any sequence of reads through the cache, started after
    [init()], every entry of the cache is a plaintext that [loadChunk]
    returned without an error for a chunk of that [ShaSum]; its SHA-256
    is the [DecryptedShaSum] of that chunk. *)
Theorem cache_holds_verified_plaintexts repository ops key cd :
  cache (run_reads repository ops init_world) !! key = Some cd ->
  exists chunk,
    Chunk.ShaSum chunk = key /\
    loadChunk_result repository chunk = Ret (cd, None) /\
    hex_EncodeToString (SHA256.Sum256 cd) = Chunk.DecryptedShaSum chunk.
Proof.
  assert (forall w, valid_growth repository w (run_reads repository ops w)) as H.
  { induction ops as [|op ops IH]; intros w; [apply valid_growth_refl|].
    simpl. eapply valid_growth_trans; [apply grows_run_read|apply IH]. }
  intros Hk. destruct (H init_world key cd Hk) as [Hinit|(chunk & Hkey & Hres)].
  - simpl in Hinit. by rewrite lookup_empty in Hinit.
  - exists chunk. split; [done|]. split; [done|].
    by apply (loadChunk_result_hash repository).
Qed.

End CacheResults.

(** ** More on the archive reader *)

Section ReaderResults.

Context `{ext : Externals}.

(** A turn that goes on has added bytes without going past [size]; a
    turn that returns hands back what was accumulated. *)
Lemma ReadArchive_body_length repository arc size b neededPart internalOffset w s w1 :
  len b < size ->
  ReadArchive_body repository arc size b neededPart internalOffset w = (Ret s, w1) ->
  match s with
  | Continue b1 _ _ => len b < len b1 <= size
  | Return (b1, err) => b1 = b /\ err = None
  end.
Proof.
  intros Hlt. unfold ReadArchive_body.
  case_match; [by intros [= <- _]|].
  unfold bind.
  destruct (readArchiveChunk repository arc neededPart w) as [[[cd err]|v| |] w'];
    try discriminate.
  case_match; [discriminate|]. case_match; [discriminate|].
  case_match eqn:Hd; [discriminate|].
  apply orb_false_iff in Hd as [_ Hd%Z.eqb_neq].
  unfold ret. intros [= <- _]. revert Hd. unfold len.
  case_match eqn:Hsz.
  - apply Z.ltb_lt in Hsz. rewrite !length_app, length_take. unfold len in *. lia.
  - apply Z.ltb_ge in Hsz. rewrite !length_app. unfold len in *. lia.
Qed.

Lemma ReadArchive_loop_length repository arc size fuel :
  forall b neededPart internalOffset w r w',
    len b <= Z.max 0 size ->
    ReadArchive_loop fuel repository arc size b neededPart internalOffset w
      = (Ret r, w') ->
    match r with
    | inl (b', err) => len b' <= Z.max 0 size /\ err = None
    | inr (b', _) => size <= len b' <= Z.max 0 size
    end.
Proof.
  induction fuel as [|fuel IH]; intros b np io w r w' Hb; cbn [ReadArchive_loop].
  - destruct (Z.ltb_spec (len b) size); [done|]. intros [= <- _]. lia.
  - destruct (Z.ltb_spec (len b) size) as [Hlt|Hge]; [|intros [= <- _]; lia].
    unfold bind.
    destruct (ReadArchive_body repository arc size b np io w) as [[s|v| |] w1]
      eqn:Hbody; try discriminate.
    apply ReadArchive_body_length in Hbody; [|done].
    destruct s as [b1 np1 io1|[b1 err]].
    + apply IH. lia.
    + destruct Hbody as [-> ->]. intros [= <- _]. split; [lia|done].
Qed.

(** X13: whenever [ReadArchive] returns, the slice it returns has at most
    [size] bytes (none when [size] is not positive), and the error it
    returns, if any, is the one [ChunkForOffset] gave. *)
Theorem ReadArchive_at_most_size repository arc offset size w b err w' :
  ReadArchive repository arc offset size w = (Ret (b, err), w') ->
  len b <= Z.max 0 size /\
  (err = None \/ err = (ChunkForOffset arc offset).2).
Proof.
  unfold ReadArchive.
  destruct (Archive.Typ arc);
    try (intros [= <- <- _]; split; [unfold len; simpl; lia|by left]).
  destruct (ChunkForOffset arc offset) as [[np io] [e|]].
  { intros [= <- <- _]. split; [unfold len; simpl; lia|by right]. }
  cbv zeta. unfold bind at 1.
  destruct (ReadArchive_loop _ repository arc size [] np io w) as [[r|v| |] w1]
    eqn:Hloop; try discriminate.
  apply ReadArchive_loop_length in Hloop; [|unfold len; simpl; lia].
  destruct r as [[b' e']|[b' np']].
  - intros [= <- <- _]. destruct Hloop as [Hlen ->]. split; [done|by left].
  - unfold bind, emit, ret. intros [= <- <- _]. split; [lia|by left].
Qed.

Lemma seqZ_cons_inv m n x l :
  seqZ m n = x :: l -> 0 < n /\ x = m /\ l = seqZ (m + 1) (n - 1).
Proof.
  destruct (Z.le_gt_cases n 0) as [Hle|Hgt].
  - by rewrite seqZ_nil.
  - rewrite seqZ_cons by lia. intros [= <- <-]. split; [lia|]. split; [done|].
    f_equal; lia.
Qed.

Lemma cached_chunk_inv w arc i cd :
  cached_chunk w arc i = Some cd ->
  exists idx chunk,
    IndexOfChunk arc i = (idx, None) /\
    chunk_lookup arc idx = Some chunk /\
    cache w !! Chunk.ShaSum chunk = Some cd.
Proof.
  unfold cached_chunk, logical_chunk.
  destruct (IndexOfChunk arc i) as [idx [e|]]; [done|].
  destruct (chunk_lookup arc idx) as [chunk|] eqn:Hch; [|done].
  intros Hc. by exists idx, chunk.
Qed.

(** With the chunks from [neededPart] on in the cache and not empty, the
    loop adds to [b] the bytes of their concatenation from
    [internalOffset] on, up to [size] bytes in all, and leaves the world
    as it is. *)
Lemma ReadArchive_loop_warm repository arc size cds :
  forall fuel b neededPart internalOffset w,
    mutex w = false ->
    Forall2 (fun i cd => cached_chunk w arc i = Some cd /\ cd <> [])
      (seqZ neededPart (len (Archive.Chunks arc) - neededPart)) cds ->
    (length cds < fuel)%nat ->
    0 <= internalOffset ->
    match cds with cd :: _ => internalOffset < len cd | [] => True end ->
    let out :=
      b ++ take (Z.to_nat (size - len b))
             (drop (Z.to_nat internalOffset) (concat cds)) in
    exists r,
      ReadArchive_loop fuel repository arc size b neededPart internalOffset w
        = (Ret r, w) /\
      match r with
      | inl res => res = (out, None)
      | inr (b', _) => b' = out
      end.
Proof.
  induction cds as [|cd rest IH]; intros fuel b np io w Hm Hcds Hfuel Hio Hhd out.
  - apply Forall2_nil_inv_r in Hcds.
    assert (len (Archive.Chunks arc) <= np) as Hend.
    { destruct (Z.le_gt_cases (len (Archive.Chunks arc)) np) as [|Hgt]; [done|].
      rewrite seqZ_cons in Hcds by lia. done. }
    assert (out = b) as ->.
    { unfold out. simpl. by rewrite drop_nil, take_nil, app_nil_r. }
    destruct fuel as [|fuel]; [lia|]. cbn [ReadArchive_loop].
    destruct (Z.ltb_spec (len b) size); [|by eexists (inr (b, np))].
    unfold bind, ReadArchive_body.
    destruct (Z.leb_spec (len (Archive.Chunks arc)) np); [|lia].
    by exists (inl (b, None)).
  - apply Forall2_cons_inv_r in Hcds as (i & is' & [Hc Hne] & Hrest & Hseq).
    apply seqZ_cons_inv in Hseq as (Hn & -> & ->).
    apply cached_chunk_inv in Hc as (idx & chunk & Hidx & Hch & Hhit).
    destruct fuel as [|fuel]; [simpl in Hfuel; lia|]. cbn [ReadArchive_loop].
    destruct (Z.ltb_spec (len b) size) as [Hlt|Hge].
    2:{ exists (inr (b, np)). split; [done|]. unfold out.
        replace (Z.to_nat (size - len b)) with 0%nat by lia.
        by rewrite take_0, app_nil_r. }
    unfold bind at 1, ReadArchive_body.
    destruct (Z.leb_spec (len (Archive.Chunks arc)) np); [lia|].
    unfold bind at 1.
    rewrite (readArchiveChunk_hit _ _ _ _ _ _ _ Hidx Hch Hm Hhit).
    assert (0 < len cd) as Hcd by (unfold len; destruct cd; [done|simpl; lia]).
    simpl is_nil. simpl negb.
    destruct (Z.eqb_spec (len cd) 0); [lia|]. simpl orb.
    destruct (Z.ltb_spec io 0); [lia|].
    destruct (Z.ltb_spec (len cd) io); [lia|]. simpl orb.
    assert (len (drop (Z.to_nat io) cd) = len cd - io) as Hd
      by (unfold len in *; rewrite length_drop; lia).
    destruct (Z.eqb_spec (len (drop (Z.to_nat io) cd)) 0); [lia|].
    unfold ret at 1.
    set (b1 := if size <? len (drop (Z.to_nat io) cd) + len b
               then b ++ take (Z.to_nat (size - len b)) (drop (Z.to_nat io) cd)
               else b ++ drop (Z.to_nat io) cd).
    destruct (IH fuel b1 (np + 1) 0 w Hm) as (r & Hrun & Hr).
    { replace (len (Archive.Chunks arc) - (np + 1))
        with (len (Archive.Chunks arc) - np - 1) by lia. done. }
    { simpl in Hfuel. lia. }
    { done. }
    { destruct rest as [|cd2 rest2]; [done|].
      apply Forall2_cons_inv_r in Hrest as (i2 & is2 & [_ Hne2] & _ & _).
      unfold len. destruct cd2; [done|simpl; lia]. }
    exists r. split; [exact Hrun|].
    assert (b1 ++ take (Z.to_nat (size - len b1)) (drop (Z.to_nat 0) (concat rest))
            = out) as Hout.
    { unfold out. simpl concat.
      rewrite drop_app_le by (unfold len in *; lia).
      simpl drop. unfold b1.
      destruct (Z.ltb_spec size (len (drop (Z.to_nat io) cd) + len b)) as [Hsz|Hsz].
      - rewrite take_app_le by (unfold len in *; lia).
        replace (Z.to_nat (size - len (b ++ take (Z.to_nat (size - len b))
                                           (drop (Z.to_nat io) cd)))) with 0%nat.
        + by rewrite take_0, app_nil_r.
        + unfold len in *. rewrite length_app, length_take. lia.
      - rewrite take_app_ge by (unfold len in *; lia).
        rewrite <- app_assoc. do 3 f_equal.
        unfold len in *. rewrite length_app. lia. }
    destruct r as [res|[b' np']]; by rewrite <- Hout.
Qed.

(** X14: for a File archive whose chunks from the one holding [offset] on
    are in the cache and not empty, with the mutex free, [ReadArchive]
    returns the bytes of their concatenation from the internal offset on,
    cut at [size] bytes, without an error; it loads nothing and leaves the
    world as it was, but for the start of the prefetch goroutine. *)
Theorem ReadArchive_warm_cache repository arc offset size w
    neededPart internalOffset cds :
  Archive.Typ arc = File ->
  ChunkForOffset arc offset = (neededPart, internalOffset, None) ->
  mutex w = false ->
  0 <= internalOffset ->
  Forall2 (fun i cd => cached_chunk w arc i = Some cd /\ cd <> [])
    (seqZ neededPart (len (Archive.Chunks arc) - neededPart)) cds ->
  match cds with cd :: _ => internalOffset < len cd | [] => True end ->
  exists w',
    ReadArchive repository arc offset size w =
      (Ret (take (Z.to_nat size) (drop (Z.to_nat internalOffset) (concat cds)),
            None), w') /\
    (w' = w \/ exists next, w' = add_log [EvGo next] w).
Proof.
  intros Hty Hoff Hm Hio Hcds Hhd. unfold ReadArchive. rewrite Hty, Hoff.
  cbv zeta. unfold bind at 1.
  destruct (ReadArchive_loop_warm repository arc size cds
              (S (Z.to_nat (len (Archive.Chunks arc) - neededPart)))
              [] neededPart internalOffset w Hm Hcds) as (r & Hrun & Hr);
    [|done|done|].
  { apply Forall2_length in Hcds. rewrite length_seqZ in Hcds. lia. }
  rewrite Hrun. simpl in Hr. rewrite Z.sub_0_r in Hr.
  destruct r as [res|[b' np']]; subst.
  - exists w. split; [done|by left].
  - eexists. split; [reflexivity|]. right. by exists np'.
Qed.

End ReaderResults.

(** ** Progress records and the end of a restore *)

Section WriterProgress.

Context `{ext : Externals}.

Lemma sends_of_app l1 l2 : sends_of (l1 ++ l2) = sends_of l1 ++ sends_of l2.
Proof. unfold sends_of. apply omap_app. Qed.

Lemma sends_of_loadChunk repository chunk :
  sends_of (loadChunk_calls repository chunk) = [].
Proof.
  destruct (loadChunk_calls_shape repository chunk) as (evs & -> & H).
  simpl. induction H as [|ev evs Hev _ IH]; [done|].
  destruct ev; simpl in Hev; try done; exact IH.
Qed.

Lemma wrap64_add_l a b : wrap64 (wrap64 a + b) = wrap64 (a + b).
Proof. unfold wrap64. by rewrite Zplus_mod_idemp_l. Qed.

(** A loop that runs to its end has sent one record per chunk, each
    carrying the bytes transferred so far. *)
Lemma DecodeArchive_loop_progress repository arc path parts :
  forall p off w w' t c,
    DecodeArchive_loop repository arc path parts p off w = (Ret None, w') ->
    transferred p = (wrap64 t, wrap64 c) ->
    exists ps evs,
      Forall2 (fun i b => plaintext repository arc i = Some b) parts ps /\
      log w' = log w ++ evs /\
      map transferred (sends_of evs) =
        zip (map wrap64 (running_totals t ps)) (map wrap64 (running_totals c ps)).
Proof.
  induction parts as [|i rest IH]; intros p off w w' t c Hrun Hp.
  - injection Hrun as <-. exists [], []. simpl. by rewrite app_nil_r.
  - cbn [DecodeArchive_loop] in Hrun.
    destruct (IndexOfChunk arc i) as [idx [e|]] eqn:Hidx; [done|].
    unfold chunk_at in Hrun.
    destruct (chunk_lookup arc idx) as [chunk|] eqn:Hch; [|done].
    unfold bind at 1, ret at 1 in Hrun. unfold bind at 1 in Hrun.
    rewrite loadChunk_run in Hrun.
    destruct (loadChunk_result repository chunk) as [[b [e|]]|v| |] eqn:Hres;
      try done.
    unfold bind at 1, call_Write in Hrun.
    unfold bind at 1, emit at 1 in Hrun.
    destruct (file_Write path off b) as [[n err]|]; [done|].
    unfold bind at 1, send, emit at 1 in Hrun.
    injection Hp as Ht Hc.
    match type of Hrun with
    | DecodeArchive_loop _ _ _ _ ?p1 _ ?w1 = _ =>
        destruct (IH p1 (off + len b) w1 w' (t + len b) (c + len b) Hrun)
          as (ps & evs & Hps & Hlog & Hs);
        [unfold transferred; simpl; by rewrite Ht, Hc, !wrap64_add_l|]
    end.
    exists (b :: ps). eexists. split; [|split].
    + constructor; [|done]. eapply plaintext_intro; eauto.
    + rewrite Hlog. simpl. rewrite <- !app_assoc. reflexivity.
    + rewrite !sends_of_app, sends_of_loadChunk. simpl. rewrite Hs.
      unfold transferred at 1. simpl. by rewrite Ht, Hc, !wrap64_add_l.
Qed.

(** X15: when [DecodeArchive] returns nil for a File archive, it has sent
    one progress record before the first chunk and one after each chunk
    written; the transferred bytes they carry, in the total and in the
    current-item statistics alike, are 0 and then the running total of
    the lengths of the plaintexts written, as [uint64]s. *)
Theorem DecodeArchive_progress repository arc path w w' :
  Archive.Typ arc = File ->
  DecodeArchive repository arc path w = (Ret None, w') ->
  exists ps evs,
    Forall2 (fun i b => plaintext repository arc i = Some b)
      (seqZ 0 (len (Archive.Chunks arc))) ps /\
    log w' = log w ++ evs /\
    map transferred (sends_of evs) =
      (0, 0) :: map (fun t => (wrap64 t, wrap64 t)) (running_totals 0 ps).
Proof.
  intros Hty. unfold DecodeArchive. rewrite Hty.
  unfold bind at 1. unfold bind at 1. unfold send at 1. unfold emit at 1.
  unfold bind at 1. unfold call_MkdirAll. unfold bind at 1. unfold emit at 1.
  unfold ret at 1.
  destruct (os_MkdirAll (filepath_Dir path) mode_0755) as [e|]; [done|].
  unfold bind at 1. unfold call_OpenFile. unfold bind at 1. unfold emit at 1.
  destruct (os_OpenFile path (Archive.Mode arc)) as [e|]; [done|].
  unfold bind at 1.
  match goal with
  | |- context [DecodeArchive_loop ?r ?a ?pa ?parts ?p ?off ?w0] =>
      destruct (DecodeArchive_loop r a pa parts p off w0) as [[[e|]|v| |] w2]
        eqn:Hloop; try done
  end.
  apply (DecodeArchive_loop_progress _ _ _ _ _ _ _ _ 0 0) in Hloop
    as (ps & evs & Hps & Hlog & Hs); [|done].
  unfold bind at 1. unfold emit at 1. unfold bind at 1. unfold emit at 1.
  unfold call_Chtimes. unfold bind at 1. unfold emit at 1. unfold ret at 1.
  destruct (os_Chtimes path (Archive.ModTime arc)) as [e|]; [done|].
  unfold call_Lchown, bind, emit, ret.
  destruct (os_Lchown path (Archive.UID arc) (Archive.GID arc)) as [e|]; [done|].
  intros [= <-]. exists ps. eexists. split; [done|]. split.
  - simpl. rewrite Hlog. simpl. rewrite <- !app_assoc. reflexivity.
  - rewrite !sends_of_app. set (sent := sends_of evs) in *. simpl.
    rewrite app_nil_r, Hs. f_equal.
    generalize (running_totals 0 ps). intros l.
    induction l as [|x l IHl]; [done|]. simpl. by rewrite IHl.
Qed.

Lemma not_finishing_loadChunk repository chunk :
  Forall (fun ev => ~ finishing_event ev) (loadChunk_calls repository chunk).
Proof.
  destruct (loadChunk_calls_shape repository chunk) as (evs & -> & H).
  constructor; [by intros []|].
  eapply Forall_impl; [exact H|]. intros []; simpl; tauto.
Qed.

(** Inside the chunk loop nothing is synced, closed or stamped, and a
    loop that runs to its end has decoded every chunk. *)
Lemma DecodeArchive_loop_not_finishing repository arc path parts :
  forall p off w o w',
    DecodeArchive_loop repository arc path parts p off w = (o, w') ->
    exists evs,
      log w' = log w ++ evs /\
      Forall (fun ev => ~ finishing_event ev) evs /\
      (o = Ret None ->
       Forall (fun i => is_Some (plaintext repository arc i)) parts).
Proof.
  induction parts as [|i rest IH]; intros p off w o w'.
  - intros [= <- <-]. exists []. rewrite app_nil_r. by repeat split.
  - cbn [DecodeArchive_loop].
    destruct (IndexOfChunk arc i) as [idx [e|]] eqn:Hidx.
    { intros [= <- <-]. exists []. rewrite app_nil_r. by repeat split. }
    unfold chunk_at. destruct (chunk_lookup arc idx) as [chunk|] eqn:Hch.
    2:{ intros [= <- <-]. exists []. rewrite app_nil_r. by repeat split. }
    unfold bind at 1. unfold ret at 1. unfold bind at 1.
    rewrite loadChunk_run.
    pose proof (not_finishing_loadChunk repository chunk) as Hnf.
    destruct (loadChunk_result repository chunk) as [[b [e|]]|v| |] eqn:Hres;
      try (intros [= <- <-]; exists (loadChunk_calls repository chunk); simpl;
           by repeat split).
    unfold bind at 1. unfold call_Write. unfold bind at 1. unfold emit at 1.
    destruct (file_Write path off b) as [[n err]|].
    + intros [= <- <-].
      exists (loadChunk_calls repository chunk ++ [EvWrite path b]).
      simpl. rewrite app_assoc. split; [done|]. split; [|done].
      apply Forall_app. split; [done|]. repeat constructor. by intros [].
    + unfold bind at 1. unfold send, emit at 1. intros Hrun.
      destruct (IH _ _ _ _ _ Hrun) as (evs & Hlog & Hev & Hall).
      eexists (loadChunk_calls repository chunk ++ [EvWrite path b]
               ++ [EvSend _] ++ evs).
      split; [rewrite Hlog; simpl; by rewrite <- !app_assoc|]. split.
      * apply Forall_app. split; [done|].
        constructor; [by intros []|]. constructor; [by intros []|done].
      * intros Hnil. constructor; [|by apply Hall].
        erewrite plaintext_intro by eauto. eauto.
Qed.

Lemma DecodeArchive_File_finish repository arc path w o w' :
  Archive.Typ arc = File ->
  DecodeArchive repository arc path w = (o, w') ->
  exists evs,
    log w' = log w ++ evs /\
    ((o <> Ret None /\ Forall (fun ev => ~ finishing_event ev) evs) \/
     Forall (fun i => is_Some (plaintext repository arc i))
       (seqZ 0 (len (Archive.Chunks arc)))).
Proof.
  intros Hty Hrun.
  destruct (DecodeArchive_logs repository arc path w) as (all & Hall_log & _).
  rewrite Hrun in Hall_log. simpl in Hall_log.
  revert Hrun. unfold DecodeArchive. rewrite Hty.
  unfold bind at 1. unfold bind at 1. unfold send at 1. unfold emit at 1.
  unfold bind at 1. unfold call_MkdirAll. unfold bind at 1. unfold emit at 1.
  unfold ret at 1.
  destruct (os_MkdirAll (filepath_Dir path) mode_0755) as [e|].
  { intros [= <- <-]. eexists. simpl. rewrite <- app_assoc.
    split; [reflexivity|]. left. split; [done|].
    repeat constructor; by intros []. }
  unfold bind at 1. unfold call_OpenFile. unfold bind at 1. unfold emit at 1.
  destruct (os_OpenFile path (Archive.Mode arc)) as [e|].
  { intros [= <- <-]. eexists. simpl. rewrite <- !app_assoc.
    split; [reflexivity|]. left. split; [done|].
    repeat constructor; by intros []. }
  unfold bind at 1.
  match goal with
  | |- context [DecodeArchive_loop ?r ?a ?pa ?parts ?p ?off ?w0] =>
      destruct (DecodeArchive_loop r a pa parts p off w0) as [o2 w2] eqn:Hloop;
      destruct (DecodeArchive_loop_not_finishing _ _ _ _ _ _ _ _ _ Hloop)
        as (evs & Hlog & Hev & Hall);
      destruct o2 as [[e|]|v| |]
  end; simpl in Hlog.
  2:{ intros _. exists all. split; [done|]. right. by apply Hall. }
  all: intros [= <- <-]; eexists; simpl; rewrite Hlog, <- !app_assoc;
    (split; [reflexivity|]); left; (split; [done|]);
    constructor; [by intros []|]; constructor; [by intros []|];
    constructor; [by intros []|]; done.
Qed.

(** X16: when a chunk of a File archive cannot be resolved, loaded or
    decoded, [DecodeArchive] does not return nil, and it returns without
    having synced or closed the file or set its modification time or its
    owner. *)
Theorem DecodeArchive_failure_skips_finish repository arc path w i :
  Archive.Typ arc = File ->
  0 <= i < len (Archive.Chunks arc) ->
  plaintext repository arc i = None ->
  let run := DecodeArchive repository arc path w in
  run.1 <> Ret None /\
  exists evs,
    log run.2 = log w ++ evs /\
    Forall (fun ev => ~ finishing_event ev) evs.
Proof.
  intros Hty Hi Hnone. cbv zeta.
  destruct (DecodeArchive repository arc path w) as [o w'] eqn:Hrun.
  destruct (DecodeArchive_File_finish _ _ _ _ _ _ Hty Hrun)
    as (evs & Hlog & [[Ho Hev]|Hall]).
  - split; [done|]. by exists evs.
  - rewrite Forall_forall in Hall.
    destruct (Hall i) as [b Hb]; [apply elem_of_seqZ; lia|]. congruence.
Qed.

End WriterProgress.

(** ** Failing reads *)

Section FailingReads.

Context `{ext : Externals}.

(** A loop of [DecodeArchiveData] that returns from inside hands back
    what it had accumulated, with zero statistics. *)
Lemma DecodeArchiveData_loop_failed repository arc parts :
  forall b w b1 stats err w',
    mutex w = false ->
    DecodeArchiveData_loop repository arc parts b w
      = (Ret (inl (b1, stats, err)), w') ->
    stats = Stats.zero /\
    exists j cds,
      (j < length parts)%nat /\
      Forall2 (fun i cd => exists chunk,
                 logical_chunk arc i = Some chunk /\
                 cache w' !! Chunk.ShaSum chunk = Some cd) (take j parts) cds /\
      b1 = b ++ concat cds.
Proof.
  induction parts as [|i rest IH]; intros b w b1 stats err w' Hm Hrun; [done|].
  destruct (IndexOfChunk arc i) as [idx [e|]] eqn:Hidx.
  { cbn [DecodeArchiveData_loop] in Hrun. rewrite Hidx in Hrun.
    injection Hrun as <- <- _ _. split; [done|]. exists 0%nat, []. simpl.
    rewrite app_nil_r. split; [lia|]. by split. }
  destruct (chunk_lookup arc idx) as [chunk|] eqn:Hch.
  2:{ cbn [DecodeArchiveData_loop] in Hrun. unfold chunk_at in Hrun.
      rewrite Hidx, Hch in Hrun. discriminate. }
  pose proof (logical_chunk_intro _ _ _ _ Hidx Hch) as Hlc.
  rewrite (DecodeArchiveData_loop_turn _ _ _ _ _ _ _ _ Hidx Hch) in Hrun.
  rewrite Hm in Hrun.
  assert (forall cd w1,
    mutex w1 = false ->
    cache w1 !! Chunk.ShaSum chunk = Some cd ->
    DecodeArchiveData_loop repository arc rest (b ++ cd) w1
      = (Ret (inl (b1, stats, err)), w') ->
    stats = Stats.zero /\
    exists j cds,
      (j < length (i :: rest))%nat /\
      Forall2 (fun i cd => exists chunk,
                 logical_chunk arc i = Some chunk /\
                 cache w' !! Chunk.ShaSum chunk = Some cd)
        (take j (i :: rest)) cds /\
      b1 = b ++ concat cds) as Hnext.
  { intros cd w1 Hm1 Hc1 Hrun1.
    destruct (IH _ _ _ _ _ _ Hm1 Hrun1) as (Hs & j & cds & Hj & Hcds & ->).
    split; [done|]. exists (S j), (cd :: cds). simpl.
    split; [lia|]. split; [|by rewrite <- app_assoc].
    constructor; [|done]. exists chunk. split; [done|].
    pose proof (preserves_DecodeArchiveData_loop repository arc rest (b ++ cd) w1)
      as [_ Hkeep].
    rewrite Hrun1 in Hkeep. by apply Hkeep. }
  destruct (cache w !! Chunk.ShaSum chunk) as [cd|] eqn:Hc.
  - eapply Hnext; [| |exact Hrun]; done.
  - destruct (loadChunk_result repository chunk) as [[cd [e|]]|v| |]; try done.
    + injection Hrun as <- <- _ _. split; [done|]. exists 0%nat, []. simpl.
      rewrite app_nil_r. split; [lia|]. by split.
    + eapply Hnext; [| |exact Hrun]; [done|]. simpl. by rewrite lookup_insert_eq.
Qed.

(** X17: with the mutex free, when [DecodeArchiveData] returns an error
    for a File archive, it returns with it the bytes of the chunks that
    precede the failing one, in the logical order, and statistics that
    are all zero. *)
Theorem DecodeArchiveData_partial repository arc w b stats err w' :
  Archive.Typ arc = File ->
  mutex w = false ->
  DecodeArchiveData repository arc w = (Ret (b, stats, Some err), w') ->
  stats = Stats.zero /\
  exists j cds,
    (j < length (Archive.Chunks arc))%nat /\
    Forall2 (fun i cd => exists chunk,
               logical_chunk arc i = Some chunk /\
               cache w' !! Chunk.ShaSum chunk = Some cd)
      (take j (seqZ 0 (len (Archive.Chunks arc)))) cds /\
    b = concat cds.
Proof.
  intros Hty Hm. unfold DecodeArchiveData. rewrite Hty. unfold bind.
  destruct (DecodeArchiveData_loop repository arc _ [] w)
    as [[[[[b1 s1] e1]|b1]|v| |] w1] eqn:Hloop; try done.
  intros [= -> -> -> ->].
  destruct (DecodeArchiveData_loop_failed _ _ _ _ _ _ _ _ _ Hm Hloop)
    as (Hs & j & cds & Hj & Hcds & Hb).
  split; [done|]. exists j, cds. rewrite length_seqZ in Hj. unfold len in Hj.
  split; [lia|]. by split.
Qed.

(** X18: when the internal offset that [ChunkForOffset] gives does not
    fall inside the plaintext of the first chunk read, [ReadArchive]
    panics: with a slice-bounds run-time error when the offset is
    negative or beyond the end of the plaintext, with the nil error when
    it is exactly its length. *)
Theorem ReadArchive_offset_outside_chunk repository arc offset size w
    neededPart internalOffset cd w1 :
  Archive.Typ arc = File ->
  ChunkForOffset arc offset = (neededPart, internalOffset, None) ->
  0 < size ->
  neededPart < len (Archive.Chunks arc) ->
  readArchiveChunk repository arc neededPart w = (Ret (cd, None), w1) ->
  cd <> [] ->
  internalOffset < 0 \/ len cd <= internalOffset ->
  ReadArchive repository arc offset size w =
  (Panic (if decide (internalOffset = len cd) then PanicError None
          else PanicRuntime "slice bounds out of range"), w1).
Proof.
  intros Hty Hoff Hsize Hnp Hread Hne Hout. unfold ReadArchive.
  rewrite Hty, Hoff. cbv zeta. unfold bind at 1. cbn [ReadArchive_loop].
  change (len []) with 0. destruct (Z.ltb_spec 0 size); [|lia].
  unfold bind at 1, ReadArchive_body.
  destruct (Z.leb_spec (len (Archive.Chunks arc)) neededPart); [lia|].
  unfold bind at 1. rewrite Hread.
  assert (0 < len cd) as Hcd by (unfold len; destruct cd; [done|simpl; lia]).
  simpl is_nil. simpl negb.
  destruct (Z.eqb_spec (len cd) 0); [lia|]. simpl orb.
  destruct (decide (internalOffset = len cd)) as [->|Hneq].
  - destruct (Z.ltb_spec (len cd) 0); [lia|].
    destruct (Z.ltb_spec (len cd) (len cd)); [lia|]. simpl orb.
    unfold len at 1. rewrite length_drop.
    replace (length cd - Z.to_nat (len cd))%nat with 0%nat by (unfold len; lia).
    done.
  - destruct (Z.ltb_spec internalOffset 0); [done|].
    destruct (Z.ltb_spec (len cd) internalOffset); [done|lia].
Qed.

End FailingReads.

(** ** The properties on concrete inputs *)

Import Fixture.

(** The digest on the empty input and on "abc", and the ends of its
    table of constants. *)
Example Sum256_empty :
  hex_EncodeToString (SHA256.Sum256 []) = Fixture.empty_sha.
Proof. vm_compute. reflexivity. Qed.

Example Sum256_abc :
  hex_EncodeToString (SHA256.Sum256 (bytes_of_string "abc")) =
  "ba7816bf8f01cfea414140de5dae2223b00361a396177a9cb410ff61f20015ad".
Proof. vm_compute. reflexivity. Qed.

Example Sum256_constants :
  (head SHA256.K, last SHA256.K, head SHA256.init, last SHA256.init) =
  (Some 0x428a2f98, Some 0xc67178f2, Some 0x6a09e667, Some 0x5be0cd19).
Proof. vm_compute. reflexivity. Qed.

(** Scenario S1: a plain chunk holding "hello\n" decodes to itself. *)
Example decodeChunk_hello :
  (decodeChunk Fixture.repo Fixture.chunk_hello Fixture.hello init_world).1
  = Ret (Fixture.hello, None).
Proof. vm_compute. reflexivity. Qed.

(** Scenario S5: with the wrong password the codec stops at the
    decryption and hands its error on. *)
Lemma decodeChunk_auth_failure_witness :
  exists w',
    decodeChunk Fixture.repo Fixture.chunk_aes Fixture.hello init_world
      = (Ret ([], Some Fixture.ErrAuth), w') /\
    log w' = [EvDecrypt Fixture.hello "test"].
Proof.
  destruct (decodeChunk_auth_failure (ext := Fixture.ext) Fixture.repo
              Fixture.chunk_aes Fixture.hello init_world [] Fixture.ErrAuth
              eq_refl eq_refl) as (w' & Hrun & Hlog & _).
  exists w'. split; [exact Hrun|exact Hlog].
Defined.


(** The message of the error of scenario S4. *)
Example DataReconstructionError_message :
  Error (DataReconstructionError Fixture.chunk_3_2 2 1) =
  "Could not reconstruct data, got 2 out of 3 chunks (1 backends missing data)".
Proof. vm_compute. reflexivity. Qed.

(** One data shard and one parity shard, the data shard lost: the chunk
    is rebuilt from the parity shard, joined and decoded. *)
Example loadChunk_reconstructs :
  (loadChunk Fixture.repo_parity Fixture.chunk_1_1 init_world).1
  = Ret (Fixture.hello, None).
Proof. vm_compute. reflexivity. Qed.


(** A file of two chunks stored out of order is written in the logical
    order. *)
Lemma DecodeArchive_writes_in_order_witness :
  content "/dst/file"
    (DecodeArchive Fixture.repo Fixture.file_arc "/dst/file" init_world).2
  = Fixture.hello ++ Fixture.world.
Proof.
  destruct (DecodeArchive_writes_in_order (ext := Fixture.ext) Fixture.repo
              Fixture.file_arc "/dst/file" init_world eq_refl)
    as (evs & _ & _ & H).
  destruct (H [Fixture.hello; Fixture.world]) as (_ & _ & Hc & _).
  - reflexivity.
  - reflexivity.
  - reflexivity.
  - repeat constructor; vm_compute; reflexivity.
  - rewrite Hc. reflexivity.
Defined.

(** The file is opened without truncation: what an older, longer file
    held past the end of the new content stays on disk. *)
Example DecodeArchive_keeps_old_tail :
  let old := replicate 14 Byte.x2a in
  let w := set_files (insert "/dst/file" old) init_world in
  content "/dst/file" (DecodeArchive Fixture.repo Fixture.file_arc "/dst/file" w).2
  = Fixture.hello ++ Fixture.world ++ [Byte.x2a; Byte.x2a].
Proof. vm_compute. reflexivity. Qed.

(** A snapshot whose second archive cannot be decrypted: the directory
    is restored, the error is reported, the stream is closed, and the
    symlink that follows is not restored. *)
Lemma DecodeSnapshot_stream_witness :
  let w1 := (DecodeArchive Fixture.repo Fixture.dir_arc "/dst/dir" init_world).2 in
  let w2 := (DecodeArchive Fixture.repo Fixture.aes_arc "/dst/secret" w1).2 in
  DecodeSnapshot Fixture.repo
    (Snapshot.mk [Fixture.dir_arc; Fixture.aes_arc; Fixture.link_arc]) "/dst"
    init_world
  = (Ret tt, add_log [EvSend (newProgressError Fixture.ErrAuth); EvCloseChan] w2).
Proof.
  intros w1 w2.
  assert (decoded_all Fixture.repo "/dst" [Fixture.dir_arc] init_world w1) as Hall.
  { eapply decoded_cons; [vm_compute; reflexivity|apply decoded_nil]. }
  destruct (DecodeSnapshot_stream (ext := Fixture.ext) Fixture.repo "/dst"
              [Fixture.dir_arc] init_world w1 Hall) as (_ & _ & H).
  destruct (H Fixture.aes_arc [Fixture.link_arc] Fixture.ErrAuth w2) as [Hrun _].
  - vm_compute. reflexivity.
  - exact Hrun.
Defined.

(** The backend has lost the chunk: both reads return its error and
    leave the mutex held. *)
Lemma cache_mutex_held_after_loader_failure_witness :
  mutex (readArchiveChunk Fixture.repo_empty Fixture.file_arc 0 init_world).2 = true /\
  mutex (DecodeArchiveData Fixture.repo_empty Fixture.file_arc init_world).2 = true.
Proof.
  destruct (cache_mutex_held_after_loader_failure (ext := Fixture.ext)
              Fixture.repo_empty Fixture.file_arc 1 Fixture.chunk_hello init_world
              [] Fixture.ErrNotExist eq_refl eq_refl eq_refl eq_refl eq_refl)
    as [(w1 & Hrun1 & Hm1) H2].
  destruct (H2 eq_refl) as (w2 & Hrun2 & Hm2).
  rewrite Hrun1, Hrun2. split; [exact Hm1|exact Hm2].
Defined.

(** A second read of the same chunk leaves the world as it is: nothing
    is loaded again. *)
Lemma cache_loads_each_key_once_witness :
  let w1 := (readArchiveChunk Fixture.repo Fixture.file_arc 0 init_world).2 in
  readArchiveChunk Fixture.repo Fixture.file_arc 0 w1 = (Ret (Fixture.hello, None), w1).
Proof.
  intros w1.
  assert (cache w1 !! Chunk.ShaSum Fixture.chunk_hello = Some Fixture.hello) as Hhit
    by (vm_compute; reflexivity).
  assert (mutex w1 = false) as Hm by (vm_compute; reflexivity).
  destruct (cache_loads_each_key_once (ext := Fixture.ext) Fixture.repo)
    as (_ & H & _).
  destruct (H Fixture.file_arc 0 1 Fixture.chunk_hello Fixture.hello w1
              eq_refl eq_refl Hhit) as [Hrun _].
  rewrite Hm in Hrun. exact Hrun.
Defined.

(** The second chunk of the file cannot be loaded: the read panics with
    the backend's error after the first chunk has been read. *)
Lemma ReadArchive_load_failure_panics_witness :
  (ReadArchive Fixture.repo_half Fixture.file_arc 2 7 init_world).1
  = Panic (PanicError (Some Fixture.ErrNotExist)).
Proof.
  pose (w1 := (ReadArchive_body Fixture.repo_half Fixture.file_arc 7 [] 0 2 init_world).2).
  pose (w2 := (readArchiveChunk Fixture.repo_half Fixture.file_arc 1 w1).2).
  assert (ReadArchive_body Fixture.repo_half Fixture.file_arc 7 [] 0 2 init_world
          = (Ret (Continue (drop 2 Fixture.hello) 1 0), w1)) as Hturn
    by (vm_compute; reflexivity).
  assert (readArchiveChunk Fixture.repo_half Fixture.file_arc 1 w1
          = (Ret ([], Some Fixture.ErrNotExist), w2)) as Hread
    by (vm_compute; reflexivity).
  assert (reaches Fixture.repo_half Fixture.file_arc 7 1 ([], 0, 2) init_world
            (drop 2 Fixture.hello, 1, 0) w1) as Hreach.
  { eapply reaches_turn; [|exact Hturn|apply reaches_here]. vm_compute. reflexivity. }
  assert (len (drop 2 Fixture.hello) < 7) as Hlen by (vm_compute; reflexivity).
  assert (1 < len (Archive.Chunks Fixture.file_arc)) as Hnp
    by (vm_compute; reflexivity).
  rewrite (ReadArchive_load_failure_panics (ext := Fixture.ext) Fixture.repo_half
             Fixture.file_arc 2 7 init_world 0 2 1 (drop 2 Fixture.hello) 1 0 w1
             [] Fixture.ErrNotExist w2 eq_refl eq_refl Hreach Hlen Hnp Hread).
  reflexivity.
Defined.

(** The second chunk of the file is empty: the read panics with nil. *)
Lemma ReadArchive_empty_chunk_panics_nil_witness :
  (ReadArchive Fixture.repo Fixture.hollow_arc 0 10 init_world).1
  = Panic (PanicError None).
Proof.
  pose (w1 := (ReadArchive_body Fixture.repo Fixture.hollow_arc 10 [] 0 0 init_world).2).
  pose (w2 := (readArchiveChunk Fixture.repo Fixture.hollow_arc 1 w1).2).
  assert (ReadArchive_body Fixture.repo Fixture.hollow_arc 10 [] 0 0 init_world
          = (Ret (Continue Fixture.hello 1 0), w1)) as Hturn
    by (vm_compute; reflexivity).
  assert (readArchiveChunk Fixture.repo Fixture.hollow_arc 1 w1
          = (Ret ([], None), w2)) as Hread
    by (vm_compute; reflexivity).
  assert (reaches Fixture.repo Fixture.hollow_arc 10 1 ([], 0, 0) init_world
            (Fixture.hello, 1, 0) w1) as Hreach.
  { eapply reaches_turn; [|exact Hturn|apply reaches_here]. vm_compute. reflexivity. }
  assert (len Fixture.hello < 10) as Hlen by (vm_compute; reflexivity).
  assert (1 < len (Archive.Chunks Fixture.hollow_arc)) as Hnp
    by (vm_compute; reflexivity).
  rewrite (ReadArchive_empty_chunk_panics_nil (ext := Fixture.ext) Fixture.repo
             Fixture.hollow_arc 0 10 init_world 0 0 1 Fixture.hello 1 0 w1 [] w2
             eq_refl eq_refl Hreach Hlen Hnp Hread eq_refl).
  reflexivity.
Defined.

(** Creating the directory fails and changing its owner succeeds:
    [DecodeArchive] returns nil. *)
Lemma DecodeArchive_returns_Lchown_witness :
  (@DecodeArchive Fixture.ext_readonly Fixture.repo Fixture.dir_arc "/dst/dir"
     init_world).1 = Ret None.
Proof.
  destruct (DecodeArchive_returns_Lchown (ext := Fixture.ext_readonly) Fixture.repo
              Fixture.dir_arc "/dst/dir" init_world (or_introl eq_refl))
    as (w' & p & Hrun & _).
  rewrite Hrun. reflexivity.
Defined.

(** ** The further properties on concrete inputs *)

Lemma loadChunk_verified_witness :
  hex_EncodeToString (SHA256.Sum256 Fixture.hello) = Fixture.hello_sha.
Proof.
  pose (w' := (loadChunk Fixture.repo Fixture.chunk_hello init_world).2).
  assert (loadChunk Fixture.repo Fixture.chunk_hello init_world
          = (Ret (Fixture.hello, None), w')) as Hrun by (vm_compute; reflexivity).
  exact (loadChunk_verified (ext := Fixture.ext) _ _ _ _ _ Hrun).
Defined.

Lemma loadChunk_error_empty_witness :
  exists b w',
    loadChunk Fixture.repo_empty Fixture.chunk_hello init_world
      = (Ret (b, Some Fixture.ErrNotExist), w') /\ b = [].
Proof.
  pose (w' := (loadChunk Fixture.repo_empty Fixture.chunk_hello init_world).2).
  assert (loadChunk Fixture.repo_empty Fixture.chunk_hello init_world
          = (Ret ([], Some Fixture.ErrNotExist), w')) as Hrun
    by (vm_compute; reflexivity).
  exists [], w'. split; [exact Hrun|].
  exact (loadChunk_error_empty (ext := Fixture.ext) _ _ _ _ _ _ Hrun).
Defined.

(** One data shard, one parity shard, both in the backend: only the data
    shard is fetched. *)
Lemma loadChunk_stops_at_first_join_witness :
  backend_calls (log (loadChunk Fixture.repo Fixture.chunk_1_1 init_world).2)
  = [(Fixture.chunk_1_1, 0)].
Proof.
  assert (forall i, 0 <= i < Chunk.DataParts Fixture.chunk_1_1 ->
            fetched Fixture.repo Fixture.chunk_1_1 i = true) as Hf.
  { intros i Hi. assert (i = 0) as -> by (simpl in Hi; lia). reflexivity. }
  assert (Chunk.DataParts Fixture.chunk_1_1 + Chunk.ParityParts Fixture.chunk_1_1
          <= max_int) as Hmax by (vm_compute; discriminate).
  pose proof (loadChunk_stops_at_first_join (ext := Fixture.ext) Fixture.repo
                Fixture.chunk_1_1 init_world Fixture.hello
                eq_refl ltac:(simpl; lia) Hmax eq_refl Hf eq_refl) as Hrun.
  rewrite Hrun. vm_compute. reflexivity.
Defined.


Lemma DecodeArchive_nil_complete_witness :
  exists ps,
    Forall2 (fun i b => plaintext Fixture.repo Fixture.file_arc i = Some b)
      (seqZ 0 2) ps /\
    os_Lchown "/dst/file" 1000 1000 = None.
Proof.
  pose (w' := (DecodeArchive Fixture.repo Fixture.file_arc "/dst/file" init_world).2).
  assert (DecodeArchive Fixture.repo Fixture.file_arc "/dst/file" init_world
          = (Ret None, w')) as Hrun by (vm_compute; reflexivity).
  destruct (DecodeArchive_nil_complete (ext := Fixture.ext) Fixture.repo
              Fixture.file_arc "/dst/file" init_world w' eq_refl Hrun)
    as (ps & Hps & _ & _ & Hown).
  exists ps. split; [exact Hps|exact Hown].
Defined.

Lemma DecodeArchive_writes_verified_witness :
  exists evs,
    log (DecodeArchive Fixture.repo Fixture.file_arc "/dst/file" init_world).2
      = [] ++ evs /\
    Forall (fun b => exists chunk,
              chunk ∈ Archive.Chunks Fixture.file_arc /\
              hex_EncodeToString (SHA256.Sum256 b) = Chunk.DecryptedShaSum chunk)
      (writes_of "/dst/file" evs).
Proof.
  exact (DecodeArchive_writes_verified (ext := Fixture.ext) Fixture.repo
           Fixture.file_arc "/dst/file" init_world eq_refl).
Defined.

Lemma readArchiveChunk_success_witness :
  let w' := (readArchiveChunk Fixture.repo Fixture.file_arc 0 init_world).2 in
  mutex w' = false /\
  exists chunk,
    logical_chunk Fixture.file_arc 0 = Some chunk /\
    cache w' !! Chunk.ShaSum chunk = Some Fixture.hello.
Proof.
  intros w'.
  assert (readArchiveChunk Fixture.repo Fixture.file_arc 0 init_world
          = (Ret (Fixture.hello, None), w')) as Hrun by (vm_compute; reflexivity).
  exact (readArchiveChunk_success (ext := Fixture.ext) Fixture.repo Fixture.file_arc
           0 init_world Fixture.hello w' eq_refl Hrun).
Defined.

(** The first read fails on a lost chunk; a read from another archive
    then blocks. *)
Lemma cache_blocked_after_loader_failure_witness :
  let w' := (readArchiveChunk Fixture.repo_empty Fixture.file_arc 0 init_world).2 in
  readArchiveChunk Fixture.repo_empty Fixture.hollow_arc 1 w' = (Block, w').
Proof.
  intros w'.
  destruct (cache_blocked_after_loader_failure (ext := Fixture.ext)
              Fixture.repo_empty Fixture.file_arc 0 1 Fixture.chunk_hello
              init_world [] Fixture.ErrNotExist
              eq_refl eq_refl eq_refl eq_refl eq_refl
              Fixture.hollow_arc 1 1 Fixture.chunk_empty eq_refl eq_refl)
    as [Hblock _].
  exact Hblock.
Defined.

Lemma DecodeArchiveData_success_witness :
  exists w',
    DecodeArchiveData Fixture.repo Fixture.file_arc init_world
      = (Ret (Fixture.hello ++ Fixture.world,
              Stats.mk 1 0 0 12 12 12, None), w') /\
    mutex w' = false.
Proof.
  pose (w' := (DecodeArchiveData Fixture.repo Fixture.file_arc init_world).2).
  assert (DecodeArchiveData Fixture.repo Fixture.file_arc init_world
          = (Ret (Fixture.hello ++ Fixture.world, Stats.mk 1 0 0 12 12 12, None), w'))
    as Hrun by (vm_compute; reflexivity).
  destruct (DecodeArchiveData_success (ext := Fixture.ext) Fixture.repo
              Fixture.file_arc init_world (Fixture.hello ++ Fixture.world)
              (Stats.mk 1 0 0 12 12 12) w' eq_refl eq_refl Hrun) as (Hm & _).
  exists w'. split; [exact Hrun|exact Hm].
Defined.

Lemma cache_holds_verified_plaintexts_witness :
  exists chunk,
    Chunk.ShaSum chunk = Fixture.hello_sha /\
    loadChunk_result Fixture.repo chunk = Ret (Fixture.hello, None) /\
    hex_EncodeToString (SHA256.Sum256 Fixture.hello) = Chunk.DecryptedShaSum chunk.
Proof.
  assert (cache (run_reads Fixture.repo [OpReadArchiveChunk Fixture.file_arc 0]
                   init_world) !! Fixture.hello_sha = Some Fixture.hello) as Hk
    by (vm_compute; reflexivity).
  exact (cache_holds_verified_plaintexts (ext := Fixture.ext) _ _ _ _ Hk).
Defined.

Lemma ReadArchive_at_most_size_witness :
  len (drop 2 Fixture.hello ++ take 3 Fixture.world) <= Z.max 0 7.
Proof.
  pose (w' := (ReadArchive Fixture.repo Fixture.file_arc 2 7 init_world).2).
  assert (ReadArchive Fixture.repo Fixture.file_arc 2 7 init_world
          = (Ret (drop 2 Fixture.hello ++ take 3 Fixture.world, None), w')) as Hrun
    by (vm_compute; reflexivity).
  exact (proj1 (ReadArchive_at_most_size (ext := Fixture.ext) _ _ _ _ _ _ _ _ Hrun)).
Defined.

(** With both chunks of the file in the cache, seven bytes from offset 2
    are the end of the first chunk and the start of the second. *)
Lemma ReadArchive_warm_cache_witness :
  let w := (DecodeArchiveData Fixture.repo Fixture.file_arc init_world).2 in
  exists w',
    ReadArchive Fixture.repo Fixture.file_arc 2 7 w
      = (Ret (take 7 (drop 2 (Fixture.hello ++ Fixture.world)), None), w').
Proof.
  intros w.
  assert (Forall2 (fun i cd => cached_chunk w Fixture.file_arc i = Some cd /\ cd <> [])
            (seqZ 0 (len (Archive.Chunks Fixture.file_arc) - 0))
            [Fixture.hello; Fixture.world]) as Hcds.
  { repeat constructor; try (vm_compute; reflexivity); discriminate. }
  assert (mutex w = false) as Hm by (vm_compute; reflexivity).
  destruct (ReadArchive_warm_cache (ext := Fixture.ext) Fixture.repo
              Fixture.file_arc 2 7 w 0 2 [Fixture.hello; Fixture.world]
              eq_refl eq_refl Hm ltac:(lia) Hcds ltac:(vm_compute; reflexivity))
    as (w' & Hrun & _).
  exists w'. rewrite Hrun. reflexivity.
Defined.

Lemma DecodeArchive_progress_witness :
  exists evs,
    log (DecodeArchive Fixture.repo Fixture.file_arc "/dst/file" init_world).2 = evs /\
    map transferred (sends_of evs) = [(0, 0); (6, 6); (12, 12)].
Proof.
  pose (w' := (DecodeArchive Fixture.repo Fixture.file_arc "/dst/file" init_world).2).
  assert (DecodeArchive Fixture.repo Fixture.file_arc "/dst/file" init_world
          = (Ret None, w')) as Hrun by (vm_compute; reflexivity).
  destruct (DecodeArchive_progress (ext := Fixture.ext) Fixture.repo
              Fixture.file_arc "/dst/file" init_world w' eq_refl Hrun)
    as (ps & evs & Hps & Hlog & Hs).
  exists evs. split; [exact Hlog|].
  assert (ps = [Fixture.hello; Fixture.world]) as ->.
  { assert (Forall2 (fun i b => plaintext Fixture.repo Fixture.file_arc i = Some b)
              (seqZ 0 (len (Archive.Chunks Fixture.file_arc)))
              [Fixture.hello; Fixture.world]) as Hps'
      by (repeat constructor; vm_compute; reflexivity).
    clear Hs Hlog. revert Hps Hps'.
    generalize (seqZ 0 (len (Archive.Chunks Fixture.file_arc))).
    intros l H1 H2. revert H2. generalize [Fixture.hello; Fixture.world].
    induction H1 as [|i b l ps Hb _ IH]; intros l2 H2.
    - by apply Forall2_nil_inv_l in H2.
    - apply Forall2_cons_inv_l in H2 as (b2 & l2' & Hb2 & H2 & ->).
      f_equal; [congruence|by apply IH]. }
  rewrite Hs. reflexivity.
Defined.

(** The second chunk of the file is lost: the restore fails and the file
    is neither synced nor closed. *)
Lemma DecodeArchive_failure_skips_finish_witness :
  (DecodeArchive Fixture.repo_half Fixture.file_arc "/dst/file" init_world).1
  <> Ret None.
Proof.
  assert (plaintext Fixture.repo_half Fixture.file_arc 1 = None) as Hnone
    by (vm_compute; reflexivity).
  assert (0 <= 1 < len (Archive.Chunks Fixture.file_arc)) as Hi
    by (vm_compute; split; [discriminate|reflexivity]).
  exact (proj1 (DecodeArchive_failure_skips_finish (ext := Fixture.ext)
                  Fixture.repo_half Fixture.file_arc "/dst/file" init_world 1
                  eq_refl Hi Hnone)).
Defined.

(** The second chunk of the file is lost: the first comes back with the
    error. *)
Lemma DecodeArchiveData_partial_witness :
  let w' := (DecodeArchiveData Fixture.repo_half Fixture.file_arc init_world).2 in
  exists j cds,
    (j < length (Archive.Chunks Fixture.file_arc))%nat /\
    Forall2 (fun i cd => exists chunk,
               logical_chunk Fixture.file_arc i = Some chunk /\
               cache w' !! Chunk.ShaSum chunk = Some cd)
      (take j (seqZ 0 (len (Archive.Chunks Fixture.file_arc)))) cds /\
    Fixture.hello = concat cds.
Proof.
  intros w'.
  assert (DecodeArchiveData Fixture.repo_half Fixture.file_arc init_world
          = (Ret (Fixture.hello, Stats.zero, Some Fixture.ErrNotExist), w')) as Hrun
    by (vm_compute; reflexivity).
  exact (proj2 (DecodeArchiveData_partial (ext := Fixture.ext) Fixture.repo_half
                  Fixture.file_arc init_world Fixture.hello Stats.zero
                  Fixture.ErrNotExist w' eq_refl eq_refl Hrun)).
Defined.

(** The chunk records ten bytes and holds six: an offset of eight falls
    outside its plaintext. *)
Lemma ReadArchive_offset_outside_chunk_witness :
  (ReadArchive Fixture.repo Fixture.oversized_arc 8 4 init_world).1
  = Panic (PanicRuntime "slice bounds out of range").
Proof.
  pose (w1 := (readArchiveChunk Fixture.repo Fixture.oversized_arc 0 init_world).2).
  assert (readArchiveChunk Fixture.repo Fixture.oversized_arc 0 init_world
          = (Ret (Fixture.hello, None), w1)) as Hread by (vm_compute; reflexivity).
  rewrite (ReadArchive_offset_outside_chunk (ext := Fixture.ext) Fixture.repo
             Fixture.oversized_arc 8 4 init_world 0 8 Fixture.hello w1
             eq_refl eq_refl ltac:(lia) ltac:(vm_compute; reflexivity) Hread
             ltac:(discriminate) ltac:(right; vm_compute; discriminate)).
  reflexivity.
Defined.
